(** * Schedule-tree transformations of the polyhedral layer

    A shallow embedding of [tc/core/polyhedral/schedule_transforms.cc]:
    the derived-schedule queries ([partialSchedule], [prefixSchedule],
    [activeDomainPoints]), the band operations ([joinBands],
    [joinBandsIterative], [bandSplit], [bandTile]), [swapSubtree] and
    [mergeConsecutiveMappingFilters].

    The integer-set library is modelled extensionally: a union set is the
    finite set of the integer points it denotes, a union map the finite set
    of the pairs it relates, and a union piecewise affine function the
    finite map from points to rational values.  A node pointer is the index
    path of the node below the root. *)

From Stdlib Require Import QArith Qcanon Qround.
From stdpp Require Import gmap strings list fin_maps fin_sets numbers.

Local Open Scope Z_scope.
#[local] Set Warnings "-register-all,-clear-no-such-hyp".

(** ** Fatal contract failures

    Every [CHECK] of the source aborts the process; [outcome] is the error
    monad that threads them. *)

Inductive failure : Type :=
  | RootNotDomain          (* "root must be a Domain node" *)
  | ExtensionWithoutBand   (* "expected a zero-dimensional domain of the
                              Extension node in absence of parent band nodes" *)
  | StrictRootNeeded       (* "Need a strict relative root to graft" *)
  | NotABand               (* "Not a band" *)
  | NoBandsToSplit         (* "no bands to split" *)
  | PositionOutOfBounds    (* "position out of bounds" *)
  | RangeOutOfBounds       (* "range out of bounds" *)
  | NotPermutable          (* "Can't tile an non-permutable band" *)
  | IncorrectSizes         (* "NYI: incorrect sizes" *)
  | ExpectedBandSequence   (* "expected a sequence of bands" *)
  | RootNotDomainOrExtension
  | MappedInBoth           (* "id: ... mapped in both!" *)
  | NoSuchNode             (* a child or ancestor that does not exist *)
  | OutOfFuel.             (* the model's loop bound, never the code's *)

Inductive outcome (A : Type) : Type :=
  | Done (a : A)
  | Abort (why : failure).
Arguments Done {A} a.
Arguments Abort {A} why.

Definition obind {A B} (m : outcome A) (k : A → outcome B) : outcome B :=
  match m with
  | Done a => k a
  | Abort w => Abort w
  end.

Notation "x ←! m ; k" := (obind m (λ x, k))
  (at level 100, m at next level, right associativity,
   format "x  ←!  m ;  '/' k").

Definition check (b : bool) (w : failure) : outcome unit :=
  if b then Done tt else Abort w.

Definition from_option {A} (o : option A) (w : failure) : outcome A :=
  match o with
  | Some a => Done a
  | None => Abort w
  end.

Fixpoint foldlM {A B} (f : A → B → outcome A) (a : A) (l : list B) : outcome A :=
  match l with
  | [] => Done a
  | b :: l' => a' ←! f a b; foldlM f a' l'
  end.

Definition is_done {A} (m : outcome A) : bool :=
  match m with
  | Done _ => true
  | Abort _ => false
  end.

(** ** The integer-set library, extensionally *)

Module isl.

(** A point of a named tuple space: a statement instance [S(i, j)] is
    [("S", [i; j])], a schedule-coordinate tuple has the empty name. *)
Abbreviation tuple := (string * list Z)%type.

Definition anon (coords : list Z) : tuple := (EmptyString, coords).

Abbreviation union_set := (gset tuple).
Abbreviation union_map := (gset (tuple * tuple)).

(** [isl::val]: a rational in lowest terms. *)
Abbreviation val := Qc.

Definition val_of_Z (z : Z) : val := Q2Qc (inject_Z z).

(** [isl::val(ctx, long)] given a [size_t]: the size, a number below
    [2^64], is converted to [long], so a size of [2^63] or more arrives as
    a negative number. *)
Definition size_to_long (n : N) : Z :=
  let bits := Z.of_N n mod 2 ^ 64 in
  if bits <? 2 ^ 63 then bits else bits - 2 ^ 64.

Definition val_of_size (n : N) : val := val_of_Z (size_to_long n).

Definition val_floor (v : val) : val := val_of_Z (Qfloor (this v)).

Definition val_to_Z (v : val) : option Z :=
  if decide (Qden (this v) = 1%positive) then Some (Qnum (this v)) else None.

(** [isl::union_pw_aff] and [isl::multi_union_pw_aff]: one partial
    function per member. *)
Abbreviation union_pw_aff := (gmap tuple val).
Abbreviation multi_union_pw_aff := (list union_pw_aff).

(** *** Sets *)

Definition intersect (a b : union_set) : union_set := a ∩ b.
Definition unite (a b : union_set) : union_set := a ∪ b.
Definition subtract (a b : union_set) : union_set := a ∖ b.
Definition is_empty (a : union_set) : bool := bool_decide (a = ∅).

(** The space of a point: its tuple name and dimension. *)
Definition space_of (x : tuple) : string * nat := (x.1, length x.2).

(** The number of tuple spaces in which the set holds a point. *)
Definition n_spaces (a : union_set) : nat :=
  size (set_map (D := gset (string * nat)) space_of a).

(** [union_set::n_set]: the number of pieces of the representation, one
    per tuple space.  isl drops a piece only once it knows the piece to be
    empty, so a set can carry pieces that hold no point; a set of the model
    is the set of its points, and the number of such pieces in the
    representation at hand comes with it. *)
Definition n_set (a : union_set) (emptyPieces : nat) : nat :=
  (n_spaces a + emptyPieces)%nat.

(** *** Relations *)

Definition from_domain (a : union_set) : union_map :=
  set_map (λ x, (x, anon [])) a.

Definition domain (m : union_map) : union_set := set_map fst m.
Definition range (m : union_map) : union_set := set_map snd m.

Definition reverse (m : union_map) : union_map :=
  set_map (λ p : tuple * tuple, (p.2, p.1)) m.

Definition intersect_domain (m : union_map) (a : union_set) : union_map :=
  filter (λ p, p.1 ∈ a) m.

Definition intersect_range (m : union_map) (a : union_set) : union_map :=
  filter (λ p, p.2 ∈ a) m.

Definition unite_map (m1 m2 : union_map) : union_map := m1 ∪ m2.

(** [union_set::apply]: the image of a set under a relation. *)
Definition apply (a : union_set) (m : union_map) : union_set :=
  range (intersect_domain m a).

(** [flat_range_product]: pairs with a common domain point, their range
    tuples concatenated into one anonymous tuple. *)
Definition flat_range_product (m1 m2 : union_map) : union_map :=
  set_bind (λ p : tuple * tuple,
    set_map (D := union_map)
      (λ q : tuple * tuple, (p.1, anon (p.2.2 ++ q.2.2)))
      (filter (λ q : tuple * tuple, q.1 = p.1) m2)) m1.

(** [union_map::dim(isl::dim_type::in)]: the dimension of the domain side,
    zero when every domain tuple has no coordinates. *)
Definition dim_in (m : union_map) : nat :=
  max_list ((λ p : tuple * tuple, length p.1.2) <$> elements m).

(** *** Affine functions *)

(** The integer coordinates a multi-function assigns to a point, where
    every member is defined and integral. *)
Definition mupa_at (f : multi_union_pw_aff) (x : tuple) : option (list Z) :=
  mapM (λ u : union_pw_aff, u !! x ≫= val_to_Z) f.

(** [union_map::from(multi_union_pw_aff)]. *)
Definition from_mupa (f : multi_union_pw_aff) : union_map :=
  match f with
  | [] => ∅
  | u :: _ => set_omap (λ x, (λ zs, (x, anon zs)) <$> mupa_at f x) (dom u)
  end.

Definition scale_down (u : union_pw_aff) (v : val) : union_pw_aff :=
  (λ q, (q / v)%Qc) <$> u.
Definition floor (u : union_pw_aff) : union_pw_aff := val_floor <$> u.
Definition scale_val (u : union_pw_aff) (v : val) : union_pw_aff :=
  (λ q, (q * v)%Qc) <$> u.

(** [multi_union_pw_aff::flat_range_product]: dimension stacking. *)
Definition mupa_flat_range_product (f g : multi_union_pw_aff)
  : multi_union_pw_aff := f ++ g.

Definition get_union_pw_aff (f : multi_union_pw_aff) (i : nat)
  : option union_pw_aff := f !! i.

Definition set_union_pw_aff (f : multi_union_pw_aff) (i : nat)
    (u : union_pw_aff) : multi_union_pw_aff := <[i := u]> f.

(** [scale_multi_val]: member [i] scaled by the [i]-th value. *)
Definition scale_multi_val (f : multi_union_pw_aff) (vs : list val)
  : multi_union_pw_aff := zip_with scale_val f vs.

(** [multi_union_pw_aff::sub]: member-wise difference, defined where both
    sides are. *)
Definition sub (f g : multi_union_pw_aff) : multi_union_pw_aff :=
  zip_with (intersection_with (λ a b : val, Some (a - b)%Qc)) f g.

(** [drop_dims(isl::dim_type::set, pos, n)]. *)
Definition drop_dims {A} (l : list A) (pos n : nat) : list A :=
  take pos l ++ drop (pos + n) l.

End isl.

Import isl.

(** ** The schedule tree *)

(** Modelled from the spec: [mapping::MappingId] (its header is not under
    src/), a "hardware-dimension identifier": a block or a thread
    dimension. *)
Inductive MappingId : Type :=
  | BlockId (dim : nat)
  | ThreadId (dim : nat).

#[global] Instance MappingId_eq_dec : EqDecision MappingId.
Proof. solve_decision. Defined.

#[global] Instance MappingId_countable : Countable MappingId.
Proof.
  refine (inj_countable'
    (λ i, match i with BlockId d => inl d | ThreadId d => inr d end)
    (λ s, match s with inl d => BlockId d | inr d => ThreadId d end) _).
  by intros [].
Defined.

(** Modelled from the spec: the node types of schedule_tree_elem.h and
    schedule_tree.h (not under src/).  A band is "a multi-dimensional
    affine function ... (one coordinate per member); parallel vectors
    coincident and unroll ...; a permutable flag". *)
Record ScheduleTreeElemBand : Type := mkBand {
  mupa_ : multi_union_pw_aff;
  permutable_ : bool;
  coincident_ : list bool;
  unroll_ : list bool
}.

(** Modelled from the spec: "a tagged variant over kinds: Domain (root
    only), Band, Filter (plain or MappingFilter), Sequence, Set, Extension,
    Context"; a mapping filter is a filter that also carries the set of
    hardware ids it binds. *)
Inductive ScheduleTreeElem : Type :=
  | EDomain (domain_ : union_set)
  | EBand (band : ScheduleTreeElemBand)
  | EFilter (filter_ : union_set)
  | EMappingFilter (filter_ : union_set) (mappingIds : gset MappingId)
  | ESequence
  | ESet
  | EExtension (extension_ : union_map)
  | EContext (context_ : gset (list Z)).

(** Modelled from the spec: "each node owns an ordered list of children
    exclusively". *)
Inductive ScheduleTree : Type :=
  mkTree { elem_ : ScheduleTreeElem; children_ : list ScheduleTree }.

Definition elemIsDomain (e : ScheduleTreeElem) : bool :=
  match e with
  | EDomain _ => true
  | _ => false
  end.

Definition elemIsExtension (e : ScheduleTreeElem) : bool :=
  match e with
  | EExtension _ => true
  | _ => false
  end.

(** [elemAsBase<ScheduleTreeElemFilter>]: plain and mapping filters;
    [elemAs<T>] matches the one kind [T]. *)
Definition elemAsBaseFilter (e : ScheduleTreeElem) : option union_set :=
  match e with
  | EFilter f | EMappingFilter f _ => Some f
  | _ => None
  end.

Definition elemAsBand (e : ScheduleTreeElem) : option ScheduleTreeElemBand :=
  match e with
  | EBand b => Some b
  | _ => None
  end.

Definition elemAsMappingFilter (e : ScheduleTreeElem)
  : option (union_set * gset MappingId) :=
  match e with
  | EMappingFilter f ids => Some (f, ids)
  | _ => None
  end.

(** Modelled from the spec: [ScheduleTreeElemBand::nMember]
    (schedule_tree_elem.cc is not under src/), "one coordinate per
    member". *)
Definition nMember (b : ScheduleTreeElemBand) : nat := length (mupa_ b).

(** Modelled from the spec: [ScheduleTreeElemBand::drop]
    (schedule_tree_elem.cc is not under src/).  The members [pos, pos + n)
    leave the affine function and both flag vectors, so that a split keeps
    "[0, pos)" outside and "[pos, n)" inside; the range has to lie within
    the band. *)
Definition band_drop (b : ScheduleTreeElemBand) (pos n : nat)
  : outcome ScheduleTreeElemBand :=
  _ ←! check (bool_decide (pos + n ≤ nMember b)%nat) RangeOutOfBounds;
  Done {| mupa_ := drop_dims (mupa_ b) pos n;
          permutable_ := permutable_ b;
          coincident_ := drop_dims (coincident_ b) pos n;
          unroll_ := drop_dims (unroll_ b) pos n |}.

(** *** Navigation and structural edits

    A pointer to a node is its index path below the root the caller
    passes. *)

Abbreviation path := (list nat).

(** Modelled from the spec: [ScheduleTree::child] (schedule_tree.cc is not
    under src/), the node an index path leads to. *)
Fixpoint child (t : ScheduleTree) (p : path) : option ScheduleTree :=
  match p with
  | [] => Some t
  | i :: q => c ← children_ t !! i; child c q
  end.

Fixpoint strict_prefixes (p : path) : list path :=
  match p with
  | [] => []
  | i :: q => [] :: (cons i <$> strict_prefixes q)
  end.

(** Modelled from the spec: [ScheduleTree::ancestors] (schedule_tree.cc is
    not under src/): "walk the ancestor chain from root to node
    (exclusive ... of node)".  The chain starts at the relative root
    itself: [partialScheduleImpl] meets the [Domain] element in it, and
    [ancestor(root, 1)] is the root for a child of the root.  A node that
    is not below the root has no ancestors. *)
Definition ancestors (relativeRoot : ScheduleTree) (node : path) : list path :=
  match child relativeRoot node with
  | Some _ => strict_prefixes node
  | None => []
  end.

(** Modelled from the spec: [ScheduleTree::ancestor] (schedule_tree.cc is
    not under src/); generation 1 is the parent. *)
Definition ancestor (relativeRoot : ScheduleTree) (node : path)
    (generation : nat) : outcome path :=
  let chain := ancestors relativeRoot node in
  _ ←! check (bool_decide (0 < generation ≤ length chain)%nat) NoSuchNode;
  from_option (chain !! (length chain - generation)%nat) NoSuchNode.

(** Modelled from the spec: [ScheduleTree::positionRelativeTo]
    (schedule_tree.cc is not under src/), the "index path of a node
    relative to an ancestor". *)
Definition positionRelativeTo (relativeRoot : ScheduleTree) (node : path)
  : path := node.

(** The element of the node a pointer leads to. *)
Definition elemAt (root : ScheduleTree) (p : path) : option ScheduleTreeElem :=
  elem_ <$> child root p.

(** In-place edit of the node at [p]; the edit may hand something back to
    the caller. *)
Fixpoint updateR {R} (t : ScheduleTree) (p : path)
    (f : ScheduleTree → outcome (ScheduleTree * R))
  : outcome (ScheduleTree * R) :=
  match p with
  | [] => f t
  | i :: q =>
      c ←! from_option (children_ t !! i) NoSuchNode;
      r ←! updateR c q f;
      Done (mkTree (elem_ t) (<[i := r.1]> (children_ t)), r.2)
  end.

Definition update (t : ScheduleTree) (p : path)
    (f : ScheduleTree → outcome ScheduleTree) : outcome ScheduleTree :=
  r ←! updateR t p (λ n, n' ←! f n; Done (n', tt));
  Done r.1.

(** Modelled from the spec: [ScheduleTree::swapChild] (schedule_tree.h is
    not under src/), the ownership-transferring "replace a single child":
    the slot takes the new tree and the caller's handle takes the old
    one. *)
Definition swapChild (t : ScheduleTree) (pos : nat) (swappee : ScheduleTree)
  : outcome (ScheduleTree * ScheduleTree) :=
  old ←! from_option (children_ t !! pos) NoSuchNode;
  Done (mkTree (elem_ t) (<[pos := swappee]> (children_ t)), old).

(** Modelled from the spec: [ScheduleTree::detachChild] (schedule_tree.h is
    not under src/): the child at [pos] leaves the list and is handed to
    the caller; there has to be one. *)
Definition detachChild (t : ScheduleTree) (pos : nat)
  : outcome (ScheduleTree * ScheduleTree) :=
  c ←! from_option (children_ t !! pos) NoSuchNode;
  Done (mkTree (elem_ t) (delete pos (children_ t)), c).

(** Modelled from the spec: [ScheduleTree::replaceChild] (schedule_tree.h
    is not under src/). *)
Definition replaceChild (t : ScheduleTree) (pos : nat) (c : ScheduleTree)
  : outcome ScheduleTree :=
  _ ←! check (bool_decide (pos < length (children_ t))%nat) NoSuchNode;
  Done (mkTree (elem_ t) (<[pos := c]> (children_ t))).

(** Modelled from the spec: [ScheduleTree::detachChildren],
    [appendChildren] and [appendChild] (schedule_tree.h is not under
    src/). *)
Definition detachChildren (t : ScheduleTree)
  : ScheduleTree * list ScheduleTree :=
  (mkTree (elem_ t) [], children_ t).

Definition appendChildren (t : ScheduleTree) (cs : list ScheduleTree)
  : ScheduleTree := mkTree (elem_ t) (children_ t ++ cs).

Definition appendChild (t : ScheduleTree) (c : ScheduleTree) : ScheduleTree :=
  appendChildren t [c].

(** Modelled from the spec: [ScheduleTree::collect] (schedule_tree.cc is
    not under src/): the pointers to all nodes of a subtree, parents before
    their children and children left to right. *)
Fixpoint collectDFSPreorder (t : ScheduleTree) : list path :=
  match t with
  | mkTree _ cs =>
      [] :: (fix go (i : nat) (cs : list ScheduleTree) : list path :=
               match cs with
               | [] => []
               | c :: cs' => (cons i <$> collectDFSPreorder c) ++ go (S i) cs'
               end) 0%nat cs
  end.

Definition isMappingFilter (root : ScheduleTree) (p : path) : bool :=
  match elemAt root p with
  | Some (EMappingFilter _ _) => true
  | _ => false
  end.

Definition collectMappingFilters (root : ScheduleTree) (node : path)
  : list path :=
  match child root node with
  | Some t =>
      filter (λ p, isMappingFilter root p = true)
             (app node <$> collectDFSPreorder t)
  | None => []
  end.

(** ** Derived schedules *)

(** A null [isl::union_map] is [None]; the library's operations give null
    on a null receiver. *)
Definition extendSchedule (node : ScheduleTree) (schedule : option union_map)
  : option union_map :=
  match elem_ node with
  | EBand bandElem =>
      if bool_decide (0 < nMember bandElem)%nat
      then (λ s, flat_range_product s (from_mupa (mupa_ bandElem))) <$> schedule
      else schedule
  | EFilter filter | EMappingFilter filter _ =>
      (λ s, intersect_domain s filter) <$> schedule
  | EExtension extension =>
      (λ s, unite_map s (intersect_range (reverse extension) (range s)))
        <$> schedule
  | _ => schedule
  end.

(** One round of the loop of [partialScheduleImpl]. *)
Definition scheduleStep (root : ScheduleTree) (schedule : option union_map)
    (anc : path) : option union_map :=
  match child root anc with
  | Some t =>
      match elem_ t with
      | EDomain domain => Some (from_domain domain)
      | _ => extendSchedule t schedule
      end
  | None => schedule
  end.

Definition partialScheduleImpl (root : ScheduleTree) (node : path)
    (useNode : bool) : option union_map :=
  let nodes := ancestors root node ++ (if useNode then [node] else []) in
  fold_left (scheduleStep root) nodes None.

Definition prefixSchedule (root : ScheduleTree) (node : path)
  : option union_map := partialScheduleImpl root node false.

Definition partialSchedule (root : ScheduleTree) (node : path)
  : option union_map := partialScheduleImpl root node true.

(** One round of the loop of [activeDomainPoints]. *)
Definition activeStep (root : ScheduleTree) (domain : union_set) (anc : path)
  : outcome union_set :=
  match child root anc with
  | Some t =>
      match elem_ t with
      | EFilter filter | EMappingFilter filter _ =>
          Done (intersect domain filter)
      | EExtension extension =>
          let parentSchedule := prefixSchedule root anc in
          _ ←! check (bool_decide (is_Some parentSchedule)
                      || bool_decide (dim_in extension = 0%nat))
                 ExtensionWithoutBand;
          match parentSchedule with
          | Some parentSchedule =>
              let parentSchedule := intersect_domain parentSchedule domain in
              Done (unite domain (apply (range parentSchedule) extension))
          | None => Done (unite domain (range extension))
          end
      | _ => Done domain
      end
  | None => Done domain
  end.

Definition activeDomainPoints (root : ScheduleTree) (node : path)
  : outcome union_set :=
  match elem_ root with
  | EDomain domain =>
      if decide (node = []) then Done domain
      else foldlM (activeStep root) domain (ancestors root node)
  | _ => Abort RootNotDomain
  end.

(** The elements met on the way from the root down to the parent of a
    node. *)
Definition ancestorElems (root : ScheduleTree) (node : path)
  : list ScheduleTreeElem :=
  omap (elemAt root) (ancestors root node).

(** The two loops run side by side over the elements of an ancestor chain:
    the accumulated active set and the prefix schedule at each ancestor. *)
Definition scheduleElem (schedule : option union_map) (e : ScheduleTreeElem)
  : option union_map :=
  match e with
  | EDomain d => Some (from_domain d)
  | _ => extendSchedule (mkTree e []) schedule
  end.

Definition chainStep (st : union_set * option union_map) (e : ScheduleTreeElem)
  : outcome (union_set * option union_map) :=
  let '(domain, schedule) := st in
  let schedule' := scheduleElem schedule e in
  match e with
  | EFilter filter | EMappingFilter filter _ =>
      Done (intersect domain filter, schedule')
  | EExtension extension =>
      _ ←! check (bool_decide (is_Some schedule)
                  || bool_decide (dim_in extension = 0%nat))
             ExtensionWithoutBand;
      match schedule with
      | Some parentSchedule =>
          let parentSchedule := intersect_domain parentSchedule domain in
          Done (unite domain (apply (range parentSchedule) extension), schedule')
      | None => Done (unite domain (range extension), schedule')
      end
  | _ => Done (domain, schedule')
  end.

(** ** Structural edits *)

(** The mutated root, the returned pointer (to the inserted subtree) and
    what the caller's [newTree] handle owns afterwards. *)
Definition swapSubtree (relativeRoot : ScheduleTree) (tree : path)
    (newTree : ScheduleTree) : outcome (ScheduleTree * path * ScheduleTree) :=
  _ ←! check (bool_decide (tree ≠ [])) StrictRootNeeded;
  cpos ←! from_option (list.last (positionRelativeTo relativeRoot tree)) NoSuchNode;
  parent ←! ancestor relativeRoot tree 1;
  let rawPtr := parent ++ [cpos] in
  r ←! updateR relativeRoot parent (λ p, swapChild p cpos newTree);
  Done (r.1, rawPtr, r.2).

(** ** Band manipulation *)

(** The node after the merge and the [moveChildren] flag. *)
Definition joinBandsHelper (st : ScheduleTree) : outcome (ScheduleTree * bool) :=
  eb ←! from_option (elemAsBand (elem_ st)) NotABand;
  if negb (length (children_ st) =? 1)%nat then Done (st, false)
  else
    match children_ st !! 0%nat ≫= λ c, elemAsBand (elem_ c) with
    | None => Done (st, false)
    | Some ebChild =>
        let eb' :=
          {| mupa_ := mupa_flat_range_product (mupa_ eb) (mupa_ ebChild);
             permutable_ := permutable_ eb;
             coincident_ :=
               resize (length (coincident_ eb) + length (coincident_ ebChild))
                      false (coincident_ eb);
             unroll_ := unroll_ eb ++ unroll_ ebChild |} in
        Done (mkTree (EBand eb') (children_ st), true)
    end.

(** The grandchildren take the place of the single child. *)
Definition moveGrandChildren (st : ScheduleTree) : outcome ScheduleTree :=
  let '(st, children) := detachChildren st in
  _ ←! check (length children =? 1)%nat ExpectedBandSequence;
  c ←! from_option (children !! 0%nat) ExpectedBandSequence;
  Done (appendChildren st (detachChildren c).2).

Definition setPermutable (st : ScheduleTree) (permutable : bool)
  : outcome ScheduleTree :=
  eb ←! from_option (elemAsBand (elem_ st)) NotABand;
  Done (mkTree (EBand {| mupa_ := mupa_ eb;
                         permutable_ := permutable;
                         coincident_ := coincident_ eb;
                         unroll_ := unroll_ eb |}) (children_ st)).

Definition joinBands (st : ScheduleTree) (permutable : bool)
  : outcome ScheduleTree :=
  r ←! joinBandsHelper st;
  let '(st, moveChildren) := r in
  st ←! (if moveChildren then moveGrandChildren st else Done st);
  setPermutable st permutable.

(** The [while (moveChildren)] loop, at most [fuel] rounds of it. *)
Fixpoint joinBandsLoop (fuel : nat) (st : ScheduleTree) : outcome ScheduleTree :=
  match fuel with
  | O => Abort OutOfFuel
  | S fuel' =>
      r ←! joinBandsHelper st;
      let '(st, moveChildren) := r in
      if moveChildren
      then st ←! moveGrandChildren st; joinBandsLoop fuel' st
      else Done st
  end.

Definition joinBandsIterative (fuel : nat) (st : ScheduleTree)
    (permutable : bool) : outcome ScheduleTree :=
  st ←! joinBandsLoop fuel st;
  setPermutable st permutable.

(** Modelled from the spec: [TileOptions] (schedule_transforms.h is not
    under src/), "a configuration flag set over {ScaleTileLoops,
    ShiftPointLoops}": an enumeration over an integer type whose two
    options are distinct bits, combined with [|] and tested with [&]. *)
Definition TileOptions : Type := Z.
Definition ScaleTileLoops : TileOptions := 1.
Definition ShiftPointLoops : TileOptions := 2.

Definition tileOptionsAnd (actual wanted : TileOptions) : bool :=
  negb (Z.land actual wanted =? 0).

Definition tileOptionsOr (actual wanted : TileOptions) : TileOptions :=
  Z.lor actual wanted.

Definition bandSplit (relativeRoot : ScheduleTree) (tree : ScheduleTree)
    (pos : nat) : outcome ScheduleTree :=
  band ←! from_option (elemAsBand (elem_ tree)) NotABand;
  let n := nMember band in
  _ ←! check (bool_decide (0 < n)%nat) NoBandsToSplit;
  _ ←! check (bool_decide (0 ≤ pos)%nat) PositionOutOfBounds;
  _ ←! check (bool_decide (pos ≤ n)%nat) PositionOutOfBounds;
  let '(tree, children) := detachChildren tree in
  let newChild := appendChildren tree children in
  newChildBand ←! band_drop band 0 pos;
  let newChild := mkTree (EBand newChildBand) (children_ newChild) in
  let tree := appendChild tree newChild in
  band ←! band_drop band pos (n - pos);
  Done (mkTree (EBand band) (children_ tree)).

(** What the tiling loop does to one member, of tile size [t]. *)
Definition tileUpa (tileOptions : TileOptions) (t : N) (upa : union_pw_aff)
  : union_pw_aff :=
  if negb (t =? 0)%N then
    let upa := floor (scale_down upa (val_of_size t)) in
    if tileOptionsAnd tileOptions ScaleTileLoops
    then scale_val upa (val_of_size t)
    else upa
  else scale_val upa (val_of_size t).

(** The body of the tiling loop for member [i]. *)
Definition tileMember (tileOptions : TileOptions) (ts : list N)
    (mupa : multi_union_pw_aff) (i : nat) : multi_union_pw_aff :=
  match get_union_pw_aff mupa i, ts !! i with
  | Some upa, Some t => set_union_pw_aff mupa i (tileUpa tileOptions t upa)
  | _, _ => mupa
  end.

Definition bandTile (st : ScheduleTree) (tileSizes : list N)
    (tileOptions : TileOptions) : outcome ScheduleTree :=
  eb ←! from_option (elemAsBand (elem_ st)) NotABand;
  if (length tileSizes =? 0)%nat then Done st
  else
    let band := eb in
    _ ←! check (permutable_ band) NotPermutable;
    let ts := tileSizes in
    let ts := if bool_decide (length ts < nMember band)%nat
              then resize (nMember band) 0%N ts else ts in
    let ts := if bool_decide (nMember band < length ts)%nat
              then take (nMember band) ts else ts in
    _ ←! check (nMember band =? length ts)%nat IncorrectSizes;
    let childUPtr := st in
    let mupa := fold_left (tileMember tileOptions ts) 
                  (seq 0 (min (nMember band) (length ts))) (mupa_ band) in
    ebChild ←! from_option (elemAsBand (elem_ childUPtr)) NotABand;
    let childMupa :=
      if tileOptionsAnd tileOptions ShiftPointLoops then
        let mupa :=
          if negb (tileOptionsAnd tileOptions ScaleTileLoops)
          then scale_multi_val mupa (val_of_size <$> ts)
          else mupa in
        sub (mupa_ ebChild) mupa
      else mupa_ ebChild in
    let child :=
      mkTree (EBand {| mupa_ := childMupa;
                       permutable_ := permutable_ ebChild;
                       coincident_ := coincident_ ebChild;
                       unroll_ := unroll_ ebChild |}) (children_ childUPtr) in
    let st := (detachChildren st).1 in
    let st := appendChild st child in
    Done (mkTree (EBand {| mupa_ := mupa;
                           permutable_ := permutable_ band;
                           coincident_ := coincident_ band;
                           unroll_ := unroll_ band |}) (children_ st)).

(** ** Mapping filters *)

(** The loop over the ids of the child filter: each has to be new to the
    parent's set, which takes it. *)
Definition mergeIds (ids : gset MappingId) (childIds : gset MappingId)
  : outcome (gset MappingId) :=
  foldlM (λ ids id,
            _ ←! check (bool_decide (id ∉ ids)) MappedInBoth;
            Done ({[id]} ∪ ids))
         ids (elements childIds).

(** The pieces without a point that the filter sets of the tree carry
    in their representation, by the node of the filter. *)
Abbreviation pieces := (path → nat).

Fixpoint stripPrefix (f q : path) : option path :=
  match f, q with
  | [], _ => Some q
  | x :: f', y :: q' => if decide (x = y) then stripPrefix f' q' else None
  | _ :: _, [] => None
  end.

(** The same after the filter at [f] has been merged into its parent at
    [p]: the parent holds the intersection, which isl builds from the
    pieces that hold a point, and what was below the first child of [f] has
    moved up into the place of [f]. *)
Definition piecesAfterMerge (emptyPieces : pieces) (p f : path) : pieces :=
  λ q, if decide (q = p) then 0%nat
       else match stripPrefix f q with
            | Some rest => emptyPieces (f ++ 0%nat :: rest)
            | None => emptyPieces q
            end.

(** The [for] loop over the collected mapping filters: the root after the
    first successful merge, or [None] when no pair merged.  The
    intersection [merged] comes out of isl without a piece that holds no
    point, which is what lets the code compare the counts ("the same
    number of tuples"); the two filters of the tree are counted as they
    are represented. *)
Fixpoint mergeScan (root : ScheduleTree) (emptyPieces : pieces)
    (filterNodes : list path) : outcome (option (ScheduleTree * pieces)) :=
  match filterNodes with
  | [] => Done None
  | f :: rest =>
      p ←! ancestor root f 1;
      match elemAt root p ≫= elemAsMappingFilter with
      | None => mergeScan root emptyPieces rest
      | Some (parentFilter, parentIds) =>
          filter ←! from_option (elemAt root f ≫= elemAsMappingFilter) NoSuchNode;
          let merged := intersect parentFilter filter.1 in
          if negb (n_set merged 0 =? n_set parentFilter (emptyPieces p))%nat
             || negb (n_set merged 0 =? n_set filter.1 (emptyPieces f))%nat
          then mergeScan root emptyPieces rest
          else
            ids ←! mergeIds parentIds filter.2;
            fNode ←! from_option (child root f) NoSuchNode;
            sub ←! detachChild fNode 0;
            pos ←! from_option (list.last f) NoSuchNode;
            root' ←! update root p (λ pNode,
              replaceChild (mkTree (EMappingFilter merged ids) (children_ pNode))
                           pos sub.2);
            Done (Some (root', piecesAfterMerge emptyPieces p f))
      end
  end.

(** The [while (changed)] loop, at most [fuel] rounds of it; the mutated
    root. *)
Fixpoint mergeLoop (fuel : nat) (root : ScheduleTree) (emptyPieces : pieces)
    (node : path) : outcome ScheduleTree :=
  match fuel with
  | O => Abort OutOfFuel
  | S fuel' =>
      r ←! mergeScan root emptyPieces (collectMappingFilters root node);
      match r with
      | Some (root', emptyPieces') => mergeLoop fuel' root' emptyPieces' node
      | None => Done root
      end
  end.

(** The mutated root and the returned pointer. *)
Definition mergeConsecutiveMappingFilters (fuel : nat) (root : ScheduleTree)
    (emptyPieces : pieces) (node : path) : outcome (ScheduleTree * path) :=
  _ ←! check (match elem_ root with
              | EDomain _ | EExtension _ => true
              | _ => false
              end) RootNotDomainOrExtension;
  root' ←! mergeLoop fuel root emptyPieces node;
  Done (root', node).

(** ** Concrete trees *)

Definition stmtS (i : Z) : tuple := ("S"%string, [i]).
Definition stmtT (j : Z) : tuple := ("T"%string, [j]).
Definition stmtE : tuple := ("E"%string, []).

Definition leafNode : ScheduleTree := mkTree ESet [].

(** The one-member band with the identity schedule on [S(0)], [S(1)]. *)
Definition bandS01 : ScheduleTreeElemBand :=
  {| mupa_ := [ {[ stmtS 0 := val_of_Z 0; stmtS 1 := val_of_Z 1 ]} ];
     permutable_ := true;
     coincident_ := [true];
     unroll_ := [false] |}.

(** A root domain [{S(0)}] with an extension [{ [] -> E() }] below it. *)
Definition extensionTree : ScheduleTree :=
  mkTree (EDomain {[ stmtS 0 ]})
    [mkTree (EExtension {[ (anon [], stmtE) ]}) [leafNode]].

(** Domain, filter, band, leaf. *)
Definition filteredTree : ScheduleTree :=
  mkTree (EDomain {[ stmtS 0; stmtS 1 ]})
    [mkTree (EFilter {[ stmtS 1 ]}) [mkTree (EBand bandS01) [leafNode]]].

(** The same without the filter. *)
Definition unfilteredTree : ScheduleTree :=
  mkTree (EDomain {[ stmtS 0; stmtS 1 ]})
    [mkTree (EBand bandS01) [leafNode]].

(** A root domain [{S(0)}] with an extension [{ [7] -> E() }], of a
    one-dimensional domain side, and no band above it. *)
Definition extensionNoBandTree : ScheduleTree :=
  mkTree (EDomain {[ stmtS 0 ]})
    [mkTree (EExtension {[ (anon [7], stmtE) ]}) [leafNode]].

(** An extension of zero-dimensional domain side below a filter that
    leaves no point active. *)
Definition extensionEmptyActiveTree : ScheduleTree :=
  mkTree (EDomain {[ stmtS 0 ]})
    [mkTree (EFilter ∅)
       [mkTree (EExtension {[ (anon [], stmtE) ]}) [leafNode]]].

(** Bands nested one below the other, [kids] below the last. *)
Fixpoint bandChain (b : ScheduleTreeElemBand) (bs : list ScheduleTreeElemBand)
    (kids : list ScheduleTree) : ScheduleTree :=
  match bs with
  | [] => mkTree (EBand b) kids
  | b' :: bs' => mkTree (EBand b) [bandChain b' bs' kids]
  end.

(** Whether a child list is a single band, which a join would absorb. *)
Definition singleBandChild (kids : list ScheduleTree) : bool :=
  (length kids =? 1)%nat
  && bool_decide (is_Some (kids !! 0%nat ≫= λ c, elemAsBand (elem_ c))).

(** What a join leaves of two bands: the stacked affine function, the
    outer flags followed by a reset flag for every inner member, the
    unroll vectors one after the other. *)
Definition joinedBand (eb ebChild : ScheduleTreeElemBand) (permutable : bool)
  : ScheduleTreeElemBand :=
  {| mupa_ := mupa_flat_range_product (mupa_ eb) (mupa_ ebChild);
     permutable_ := permutable;
     coincident_ :=
       coincident_ eb ++ replicate (length (coincident_ ebChild)) false;
     unroll_ := unroll_ eb ++ unroll_ ebChild |}.

(** Two nested one-member bands, both coincident. *)
Definition nestedBands : ScheduleTree :=
  mkTree (EBand bandS01) [mkTree (EBand bandS01) [leafNode]].

(** A band without members. *)
Definition emptyBand : ScheduleTreeElemBand :=
  {| mupa_ := []; permutable_ := true; coincident_ := []; unroll_ := [] |}.

(** A two-member band over [S(i, j)], schedule [(i, j)], on four points. *)
Definition stmtS2 (i j : Z) : tuple := ("S"%string, [i; j]).

Definition bandS2 : ScheduleTreeElemBand :=
  {| mupa_ :=
       [ {[ stmtS2 0 0 := val_of_Z 0; stmtS2 0 1 := val_of_Z 0;
            stmtS2 1 0 := val_of_Z 1; stmtS2 1 1 := val_of_Z 1 ]};
         {[ stmtS2 0 0 := val_of_Z 0; stmtS2 0 1 := val_of_Z 1;
            stmtS2 1 0 := val_of_Z 0; stmtS2 1 1 := val_of_Z 1 ]} ];
     permutable_ := true;
     coincident_ := [true; false];
     unroll_ := [false; true] |}.

(** The scenario of two statements, [{S(i) : 0 <= i < 10; T(j) : 0 <= j <
    10}], under one band of one member that maps [S(i)] to [i] and [T(j)]
    to [j]. *)
Definition domain10 : union_set :=
  list_to_set ((stmtS <$> seqZ 0 10) ++ (stmtT <$> seqZ 0 10)).

Definition identity10 : union_pw_aff :=
  list_to_map (((λ i, (stmtS i, val_of_Z i)) <$> seqZ 0 10)
               ++ ((λ j, (stmtT j, val_of_Z j)) <$> seqZ 0 10)).

Definition band10 (coincident unroll : bool) : ScheduleTreeElemBand :=
  {| mupa_ := [identity10];
     permutable_ := true;
     coincident_ := [coincident];
     unroll_ := [unroll] |}.

(** The iteration variable of a point of [domain10]. *)
Definition iterator (x : tuple) : Z := x.2 !!! 0%nat.

(** ** Chains of mapping filters *)

(** A mapping filter as the pair of its filter set and its ids. *)
Abbreviation mappingFilter := (union_set * gset MappingId)%type.

(** Mapping filters nested one below the other, [kids] below the last. *)
Fixpoint mappingChain (k : mappingFilter) (ks : list mappingFilter)
    (kids : list ScheduleTree) : ScheduleTree :=
  match ks with
  | [] => mkTree (EMappingFilter k.1 k.2) kids
  | k' :: ks' => mkTree (EMappingFilter k.1 k.2) [mappingChain k' ks' kids]
  end.

(** The test of the merge on the filter of a parent and the filter of its
    child, each with the pieces without a point that it carries: the
    intersection has as many pieces as either operand. *)
Definition countsMatch (parentFilter : union_set) (parentEmpty : nat)
    (filter : union_set) (filterEmpty : nat) : bool :=
  let merged := intersect parentFilter filter in
  (n_set merged 0 =? n_set parentFilter parentEmpty)%nat
  && (n_set merged 0 =? n_set filter filterEmpty)%nat.

(** The test on two sets that carry no piece without a point: the
    intersection holds points in as many tuple spaces as either operand. *)
Definition countsPreserved (a b : union_set) : bool := countsMatch a 0 b 0.

(** No filter of the first [n + 1] nodes of a chain that starts at [p]
    carries a piece without a point. *)
Definition noEmptyPieces (emptyPieces : pieces) (p : path) (n : nat) : Prop :=
  ∀ j, (j ≤ n)%nat → emptyPieces (p ++ replicate j 0%nat) = 0%nat.

(** The tree with the subtree at [p] replaced. *)
Fixpoint graft (root : ScheduleTree) (p : path) (t : ScheduleTree)
  : ScheduleTree :=
  match p with
  | [] => t
  | i :: q =>
      match children_ root !! i with
      | Some c => mkTree (elem_ root) (<[i := graft c q t]> (children_ root))
      | None => root
      end
  end.

Definition rootIsDomainOrExtension (root : ScheduleTree) : bool :=
  match elem_ root with
  | EDomain _ | EExtension _ => true
  | _ => false
  end.

(** A node that is a mapping filter below a mapping filter, with the two
    filter sets and the pieces without a point in each. *)
Definition mappingPair (root : ScheduleTree) (emptyPieces : pieces) (f : path)
  : option (union_set * nat * (union_set * nat)) :=
  match f with
  | [] => None
  | _ :: _ =>
      let p := removelast f in
      parentFilter ← elemAt root p ≫= elemAsMappingFilter;
      filter ← elemAt root f ≫= elemAsMappingFilter;
      Some (parentFilter.1, emptyPieces p, (filter.1, emptyPieces f))
  end.

(** The test holds each time the filter merged so far meets the next
    filter of the chain. *)
Fixpoint countsPreservedAlong (acc : union_set) (fs : list union_set) : Prop :=
  match fs with
  | [] => True
  | f :: fs' =>
      countsPreserved acc f = true ∧ countsPreservedAlong (intersect acc f) fs'
  end.

Fixpoint pairwiseDisjoint (l : list (gset MappingId)) : Prop :=
  match l with
  | [] => True
  | a :: l' => Forall (λ b, a ## b) l' ∧ pairwiseDisjoint l'
  end.

(** The test holds for every two filters of the list. *)
Fixpoint countsPreservedPairwise (fs : list union_set) : Prop :=
  match fs with
  | [] => True
  | f :: fs' =>
      Forall (λ g, countsPreserved f g = true) fs'
      ∧ countsPreservedPairwise fs'
  end.

(** No node of the tree is a mapping filter. *)
Definition noMappingFilters (t : ScheduleTree) : Prop :=
  Forall (λ p, isMappingFilter t p = false) (collectDFSPreorder t).

(** Three nested mapping filters over [S(0)], [S(1)], [S(2)] whose filters
    meet two by two and have no common point. *)
Definition threeFilters : list mappingFilter :=
  [ ({[ stmtS 0; stmtS 1 ]}, {[ BlockId 0 ]});
    ({[ stmtS 1; stmtS 2 ]}, {[ BlockId 1 ]});
    ({[ stmtS 0; stmtS 2 ]}, {[ ThreadId 0 ]}) ].

Definition threeFiltersTree : ScheduleTree :=
  mkTree (EDomain {[ stmtS 0; stmtS 1; stmtS 2 ]})
    [mappingChain ({[ stmtS 0; stmtS 1 ]}, {[ BlockId 0 ]})
       [ ({[ stmtS 1; stmtS 2 ]}, {[ BlockId 1 ]});
         ({[ stmtS 0; stmtS 2 ]}, {[ ThreadId 0 ]}) ] [leafNode]].

(** Two nested mapping filters that merge. *)
Definition twoFiltersHead : mappingFilter :=
  ({[ stmtS 0; stmtS 1 ]}, {[ BlockId 0 ]}).

Definition twoFiltersTail : list mappingFilter :=
  [ ({[ stmtS 1 ]}, {[ ThreadId 0 ]}) ].

(** ** Further operations of the file *)


Definition bandScale (tree : ScheduleTree) (scales : list N)
  : outcome ScheduleTree :=
  eb ←! from_option (elemAsBand (elem_ tree)) NotABand;
  let band := eb in
  let s := scales in
  let s := if bool_decide (length s < nMember band)%nat
           then resize (nMember band) 0%N s else s in
  let s := if bool_decide (nMember band < length s)%nat
           then take (nMember band) s else s in
  let mupa := scale_multi_val (mupa_ band) (val_of_size <$> s) in
  Done (mkTree (EBand {| mupa_ := mupa;
                         permutable_ := permutable_ band;
                         coincident_ := coincident_ band;
                         unroll_ := unroll_ band |}) (children_ tree)).

(** [schedule.dim(isl::dim_type::set) - 1]: the member count is an
    unsigned number, so the difference wraps around for a band without
    members. *)
Definition dimMinusOne (schedule : multi_union_pw_aff) : Z :=
  (Z.of_nat (length schedule) - 1) mod 2 ^ 32.

(** [pos + 1] on [size_t]. *)
Definition sizeSucc (pos : nat) : nat :=
  Z.to_nat ((Z.of_nat pos + 1) mod 2 ^ 64).

(** The mutated node and the pointer to the isolated band, relative to
    it. *)
Definition bandSplitOut (relativeRoot : ScheduleTree) (tree : ScheduleTree)
    (pos : nat) : outcome (ScheduleTree * path) :=
  band ←! from_option (elemAsBand (elem_ tree)) NotABand;
  let schedule := mupa_ band in
  tree ←! (if bool_decide (Z.of_nat pos ≠ dimMinusOne schedule)
           then bandSplit relativeRoot tree (sizeSucc pos)
           else Done tree);
  if bool_decide (pos ≠ 0%nat)
  then tree ←! bandSplit relativeRoot tree pos;
       _ ←! from_option (child tree [0%nat]) NoSuchNode;
       Done (tree, [0%nat])
  else Done (tree, []).

(** The members of the bands of a list of nodes, in order: [filterType]
    keeps the bands, [foldl] stacks their affine functions. *)
Definition stackBands (root : ScheduleTree) (nodes : list path)
  : multi_union_pw_aff :=
  fold_left (λ prefix st,
               match elemAt root st ≫= elemAsBand with
               | Some band => mupa_flat_range_product prefix (mupa_ band)
               | None => prefix
               end)
            nodes [].

(** The function starts without members; in this model such a function
    carries no values, so the universe of the root domain it is defined on
    leaves no trace. *)
Definition prefixScheduleMupa (root : ScheduleTree) (tree : path)
  : outcome multi_union_pw_aff :=
  _ ←! check (elemIsDomain (elem_ root)) RootNotDomain;
  Done (stackBands root (ancestors root tree)).

(** The [while] loop of [collectScheduleTreesPath], at most [fuel] rounds
    of it; [next] gives [None] for a null pointer. *)
Fixpoint collectPathLoop {A} (fuel : nat) (next : A → option A)
    (res : list A) (n : A) : outcome (list A) :=
  match fuel with
  | O => Abort OutOfFuel
  | S fuel' =>
      match next n with
      | Some n' => collectPathLoop fuel' next (res ++ [n']) n'
      | None => Done res
      end
  end.

Definition collectScheduleTreesPath {A} (fuel : nat) (next : A → option A)
    (start : A) : outcome (list A) :=
  collectPathLoop fuel next [start] start.

(** Modelled from the spec: [ScheduleTree::positionInParent]
    (schedule_tree.cc is not under src/), the index of a node among the
    children of its parent. *)
Definition positionInParent (tree : path) : outcome nat :=
  from_option (list.last tree) NoSuchNode.

(** Modelled from the spec: [ScheduleTree::insertChild] (schedule_tree.h is
    not under src/), the "insert" among the child-list edits; the position
    is at most the number of children. *)
Definition insertChild (t : ScheduleTree) (pos : nat) (c : ScheduleTree)
  : outcome ScheduleTree :=
  _ ←! check (bool_decide (pos ≤ length (children_ t))%nat) NoSuchNode;
  Done (mkTree (elem_ t) (take pos (children_ t) ++ c :: drop pos (children_ t))).

(** Modelled from the spec: [ScheduleTree::makeBand] (schedule_tree.cc is
    not under src/), "a new ... Band carrying a given affine function";
    the band is not permutable and no member is coincident or unrolled,
    the flag vectors being as long as the function has members. *)
Definition makeBand (mupa : multi_union_pw_aff) (children : list ScheduleTree)
  : ScheduleTree :=
  mkTree (EBand {| mupa_ := mupa;
                   permutable_ := false;
                   coincident_ := replicate (length mupa) false;
                   unroll_ := replicate (length mupa) false |}) children.

(** Modelled from the spec: [ScheduleTree::makeExtension] (schedule_tree.cc
    is not under src/), "an Extension node carrying the given relation". *)
Definition makeExtension (extension : union_map) (children : list ScheduleTree)
  : ScheduleTree := mkTree (EExtension extension) children.

(** The edit shared by the insertions above a node: the slot of the node
    in its parent takes [wrap node]. *)
Definition wrapInParent (root : ScheduleTree) (tree : path)
    (wrap : ScheduleTree → ScheduleTree) : outcome (ScheduleTree * path) :=
  parent ←! ancestor root tree 1;
  childPos ←! positionInParent tree;
  root' ←! update root parent (λ p,
    r ←! detachChild p childPos;
    insertChild r.1 childPos (wrap r.2));
  _ ←! from_option (child root' (parent ++ [childPos])) NoSuchNode;
  Done (root', parent ++ [childPos]).

Definition insertBandAbove (root : ScheduleTree) (tree : path)
    (mupa : multi_union_pw_aff) : outcome (ScheduleTree * path) :=
  wrapInParent root tree (λ child, makeBand mupa [child]).

Definition insertBandBelow (tree : ScheduleTree) (mupa : multi_union_pw_aff)
  : outcome (ScheduleTree * path) :=
  let numChildren := length (children_ tree) in
  _ ←! check (bool_decide (numChildren ≤ 1)%nat) IncorrectSizes;
  let '(tree, children) := detachChildren tree in
  let tree := appendChild tree (makeBand mupa children) in
  _ ←! from_option (child tree [0%nat]) NoSuchNode;
  Done (tree, [0%nat]).

Definition insertExtensionAbove (root : ScheduleTree) (tree : path)
    (extension : union_map) : outcome (ScheduleTree * path) :=
  wrapInParent root tree (λ child, makeExtension extension [child]).

Definition insertEmptyExtensionAbove (root : ScheduleTree) (st : path)
  : outcome (ScheduleTree * path) :=
  _ ←! check (elemIsDomain (elem_ root)) RootNotDomain;
  let extension : union_map := ∅ in
  insertExtensionAbove root st extension.

(** One round of the stacking in [prefixScheduleMupa], on the element of
    an ancestor. *)
Definition stackElem (prefix : multi_union_pw_aff) (e : ScheduleTreeElem)
  : multi_union_pw_aff :=
  match elemAsBand e with
  | Some band => mupa_flat_range_product prefix (mupa_ band)
  | None => prefix
  end.

(** Every pair of a schedule relates a point to an anonymous tuple of [n]
    coordinates. *)
Definition scheduleDim (s : union_map) (n : nat) : Prop :=
  ∀ x t, (x, t) ∈ s → t = anon t.2 ∧ length t.2 = n.

(** *** Simplification in a context, and ordering

    isl's [gist] (isl is an external library) simplifies a set or a
    function in a context, and promises no more than that the result
    agrees with the argument on the context; the two operations are
    parameters of the model. *)

Definition elemIsSequence (e : ScheduleTreeElem) : bool :=
  match e with
  | ESequence => true
  | _ => false
  end.

(** The test of [gist] on a child of a sequence, and on the node itself:
    a filter (of either kind) whose set is empty. *)
Definition emptyFilterNode (t : ScheduleTree) : bool :=
  match elemAsBaseFilter (elem_ t) with
  | Some filter => is_empty filter
  | None => false
  end.

(** One round of the downward loop [for (i = numChildren; i > 0; --i)]. *)
Definition pruneStep (children : list ScheduleTree) (i : nat)
  : list ScheduleTree :=
  match children !! (i - 1)%nat with
  | Some c => if emptyFilterNode c then delete (i - 1)%nat children else children
  | None => children
  end.

Definition pruneEmptyFilters (children : list ScheduleTree)
  : list ScheduleTree :=
  fold_left pruneStep (rev (seq 1 (length children))) children.

Section gist.
Variable gistSet : union_set → union_set → union_set.
Variable gistMupa : multi_union_pw_aff → union_set → multi_union_pw_aff.

Definition gistElem (e : ScheduleTreeElem) (context : union_set)
  : ScheduleTreeElem :=
  match e with
  | EBand b => EBand {| mupa_ := gistMupa (mupa_ b) context;
                        permutable_ := permutable_ b;
                        coincident_ := coincident_ b;
                        unroll_ := unroll_ b |}
  | EFilter filter => EFilter (gistSet filter context)
  | EMappingFilter filter ids => EMappingFilter (gistSet filter context) ids
  | _ => e
  end.

Fixpoint gist (tree : ScheduleTree) (context : union_set) : ScheduleTree :=
  match tree with
  | mkTree e children =>
      let e' := gistElem e context in
      let children :=
        if emptyFilterNode (mkTree e' [])
        then []
        else map (λ c, gist c context) children in
      mkTree e' (if elemIsSequence e'
                 then pruneEmptyFilters children
                 else children)
  end.

(** Modelled from the spec: [ScheduleTree::makeFilter] and
    [ScheduleTree::makeSequence] (schedule_tree.cc is not under src/), a
    new [Filter] node with a filter set, and a new [Sequence] node, above
    the given children. *)
Definition makeFilter (filter : union_set) (children : list ScheduleTree)
  : ScheduleTree := mkTree (EFilter filter) children.

Definition makeSequence (children : list ScheduleTree) : ScheduleTree :=
  mkTree ESequence children.

Definition gistedFilter (filter : union_set) (child : ScheduleTree)
  : ScheduleTree :=
  let child := gist child filter in
  makeFilter filter [child].

(** The mutated root.  [makeScheduleTree], given the node, copies its
    subtree. *)
Definition orderBefore (root : ScheduleTree) (tree : path)
    (filter : union_set) : outcome ScheduleTree :=
  active ←! activeDomainPoints root tree;
  let other := subtract active filter in
  copy ←! from_option (child root tree) NoSuchNode;
  let seq := makeSequence [gistedFilter filter copy] in
  parent ←! ancestor root tree 1;
  childPos ←! positionInParent tree;
  update root parent (λ p,
    r ←! detachChild p childPos;
    let seq := appendChild seq (gistedFilter other r.2) in
    insertChild r.1 childPos seq).

Definition orderAfter (root : ScheduleTree) (tree : path)
    (filter : union_set) : outcome ScheduleTree :=
  active ←! activeDomainPoints root tree;
  let other := subtract active filter in
  copy ←! from_option (child root tree) NoSuchNode;
  let seq := makeSequence [gistedFilter filter copy] in
  parent ←! ancestor root tree 1;
  childPos ←! positionInParent tree;
  update root parent (λ p,
    r ←! detachChild p childPos;
    seq ←! insertChild seq 0 (gistedFilter other r.2);
    insertChild r.1 childPos seq).

End gist.

(** A sequence of the statements [S(0)] and [T(0)], below a band. *)
Definition sequenceST : ScheduleTree :=
  mkTree ESequence
    [mkTree (EFilter {[ stmtS 0 ]}) [mkTree (EBand bandS01) [leafNode]];
     mkTree (EFilter {[ stmtT 0 ]}) [leafNode]].

(** * Properties *)

(** ** The error monad *)

Lemma foldlM_app {A B} (f : A → B → outcome A) (a : A) (l1 l2 : list B) :
  foldlM f a (l1 ++ l2) = (a' ←! foldlM f a l1; foldlM f a' l2).
Proof.
  revert a. induction l1 as [|b l1 IH]; intros a; simpl; [done|].
  destruct (f a b); simpl; auto.
Qed.

Lemma obind_Done_r {A} (m : outcome A) : (a ←! m; Done a) = m.
Proof. by destruct m. Qed.

Lemma foldlM_snoc {A B} (f : A → B → outcome A) (a : A) (l : list B) (b : B) :
  foldlM f a (l ++ [b]) = (a' ←! foldlM f a l; f a' b).
Proof.
  rewrite foldlM_app. destruct (foldlM f a l); simpl; [|done].
  apply obind_Done_r.
Qed.

(** ** Paths and ancestor chains *)

Lemma strict_prefixes_snoc (p : path) (i : nat) :
  strict_prefixes (p ++ [i]) = strict_prefixes p ++ [p].
Proof.
  induction p as [|j p IH]; simpl; [done|].
  by rewrite IH, fmap_app.
Qed.

Lemma strict_prefixes_length (p : path) :
  length (strict_prefixes p) = length p.
Proof. induction p; simpl; [done|]. by rewrite length_fmap, IHp. Qed.

Lemma child_app (t : ScheduleTree) (p q : path) :
  child t (p ++ q) = child t p ≫= λ c, child c q.
Proof.
  revert t. induction p as [|i p IH]; intros t; simpl; [done|].
  destruct (children_ t !! i); simpl; auto.
Qed.

Lemma child_snoc_valid (t : ScheduleTree) (p : path) (i : nat) :
  is_Some (child t (p ++ [i])) → is_Some (child t p).
Proof.
  rewrite child_app. destruct (child t p); simpl; [eauto|].
  by intros [? ?].
Qed.

Lemma ancestors_valid (root : ScheduleTree) (p : path) :
  is_Some (child root p) → ancestors root p = strict_prefixes p.
Proof. intros [t Ht]. unfold ancestors. by rewrite Ht. Qed.

Lemma prefixSchedule_valid (root : ScheduleTree) (p : path) :
  is_Some (child root p) →
  prefixSchedule root p = fold_left (scheduleStep root) (strict_prefixes p) None.
Proof.
  intros Hp. unfold prefixSchedule, partialScheduleImpl.
  by rewrite ancestors_valid, app_nil_r.
Qed.

Lemma partialSchedule_valid (root : ScheduleTree) (p : path) :
  is_Some (child root p) →
  partialSchedule root p
  = scheduleStep root (fold_left (scheduleStep root) (strict_prefixes p) None) p.
Proof.
  intros Hp. unfold partialSchedule, partialScheduleImpl.
  by rewrite ancestors_valid, fold_left_app.
Qed.

Lemma ancestorElems_snoc (root : ScheduleTree) (p : path) (i : nat) t :
  is_Some (child root (p ++ [i])) → child root p = Some t →
  ancestorElems root (p ++ [i]) = ancestorElems root p ++ [elem_ t].
Proof.
  intros Hpi Hp. unfold ancestorElems.
  rewrite !ancestors_valid by eauto.
  rewrite strict_prefixes_snoc, omap_app. f_equal.
  simpl. unfold elemAt. by rewrite Hp.
Qed.

(** ** The two loops of [activeDomainPoints], side by side *)

Lemma scheduleStep_elem (root : ScheduleTree) s (p : path) t :
  child root p = Some t → scheduleStep root s p = scheduleElem s (elem_ t).
Proof.
  intros Hp. unfold scheduleStep, scheduleElem, extendSchedule.
  rewrite Hp. by destruct (elem_ t).
Qed.

Lemma chainStep_schedule st e st' :
  chainStep st e = Done st' → st'.2 = scheduleElem st.2 e.
Proof.
  destruct st as [D s]. unfold chainStep, scheduleElem.
  destruct e; simpl; try (intros [= <-]; done).
  destruct (bool_decide (is_Some s) || bool_decide (dim_in extension_ = 0%nat));
    simpl; [|done].
  destruct s; intros [= <-]; done.
Qed.

Lemma activeStep_chainStep (root : ScheduleTree) (p : path) t D :
  child root p = Some t →
  chainStep (D, prefixSchedule root p) (elem_ t)
  = (D' ←! activeStep root D p;
     Done (D', scheduleElem (prefixSchedule root p) (elem_ t))).
Proof.
  intros Hp. unfold activeStep, chainStep, scheduleElem. rewrite Hp.
  destruct (elem_ t); simpl; try done.
  destruct (bool_decide (is_Some (prefixSchedule root p))
            || bool_decide (dim_in extension_ = 0%nat)); simpl; [|done].
  by destruct (prefixSchedule root p).
Qed.

(** The loop of [activeDomainPoints] over the ancestors of a node is the
    loop over their elements, which also carries the prefix schedule. *)
Lemma active_loop_chain (root : ScheduleTree) (d : union_set) (p : path) :
  is_Some (child root p) →
  foldlM chainStep (d, None) (ancestorElems root p)
  = (D ←! foldlM (activeStep root) d (ancestors root p);
     Done (D, prefixSchedule root p)).
Proof.
  induction p as [|i p IH] using rev_ind; intros Hp.
  - by rewrite prefixSchedule_valid.
  - pose proof (child_snoc_valid _ _ _ Hp) as Hp'.
    destruct Hp' as [t Ht].
    rewrite (ancestorElems_snoc _ _ _ t) by done.
    rewrite foldlM_snoc, IH by eauto.
    rewrite (ancestors_valid _ (p ++ [i])) by done.
    rewrite strict_prefixes_snoc, foldlM_snoc.
    rewrite <- (ancestors_valid root p) by eauto.
    destruct (foldlM (activeStep root) d (ancestors root p)) as [D|w];
      cbn [obind]; [|done].
    rewrite (activeStep_chainStep root p t D Ht).
    destruct (activeStep root D p) as [D'|w]; cbn [obind]; [|done].
    do 2 f_equal.
    rewrite (prefixSchedule_valid _ (p ++ [i])) by done.
    rewrite strict_prefixes_snoc, fold_left_app. cbn [fold_left].
    rewrite <- prefixSchedule_valid by eauto.
    symmetry. by apply scheduleStep_elem.
Qed.

(** ** Set algebra of the schedule steps *)

Lemma elem_of_domain (s : union_map) (a : tuple) :
  a ∈ domain s ↔ ∃ r, (a, r) ∈ s.
Proof.
  unfold domain. rewrite elem_of_map. split.
  - intros ([b r] & -> & H). by exists r.
  - intros [r H]. by exists (a, r).
Qed.

Lemma elem_of_range (s : union_map) (r : tuple) :
  r ∈ range s ↔ ∃ a, (a, r) ∈ s.
Proof.
  unfold range. rewrite elem_of_map. split.
  - intros ([a b] & -> & H). by exists a.
  - intros [a H]. by exists (a, r).
Qed.

Lemma elem_of_from_domain (d : union_set) (x : tuple * tuple) :
  x ∈ from_domain d ↔ x.2 = anon [] ∧ x.1 ∈ d.
Proof.
  unfold from_domain. rewrite elem_of_map. destruct x as [a r]. split.
  - by intros (b & [= -> ->] & H).
  - simpl. intros [-> H]. by exists a.
Qed.

Lemma elem_of_reverse (s : union_map) (a r : tuple) :
  (a, r) ∈ reverse s ↔ (r, a) ∈ s.
Proof.
  unfold reverse. rewrite elem_of_map. split.
  - by intros ([u v] & [= -> ->] & H).
  - intros H. by exists (r, a).
Qed.

Lemma elem_of_intersect_domain (s : union_map) (d : union_set) x :
  x ∈ intersect_domain s d ↔ x.1 ∈ d ∧ x ∈ s.
Proof. unfold intersect_domain. by rewrite elem_of_filter. Qed.

Lemma elem_of_intersect_range (s : union_map) (d : union_set) x :
  x ∈ intersect_range s d ↔ x.2 ∈ d ∧ x ∈ s.
Proof. unfold intersect_range. by rewrite elem_of_filter. Qed.

Lemma elem_of_apply (d : union_set) (m : union_map) (r : tuple) :
  r ∈ apply d m ↔ ∃ a, a ∈ d ∧ (a, r) ∈ m.
Proof.
  unfold apply. rewrite elem_of_range. split.
  - intros [a H]. apply elem_of_intersect_domain in H as [? ?]. by exists a.
  - intros (a & ? & ?). exists a. by apply elem_of_intersect_domain.
Qed.

Lemma elem_of_flat_range_product (s m : union_map) (x : tuple * tuple) :
  x ∈ flat_range_product s m
  ↔ ∃ a r1 r2, x = (a, anon (r1.2 ++ r2.2)) ∧ (a, r1) ∈ s ∧ (a, r2) ∈ m.
Proof.
  unfold flat_range_product. rewrite elem_of_set_bind. split.
  - intros ([a r1] & Hs & Hx). apply elem_of_map in Hx as ([b r2] & -> & Hq).
    apply elem_of_filter in Hq as [Hb Hm]. simpl in *. subst b.
    by exists a, r1, r2.
  - intros (a & r1 & r2 & -> & Hs & Hm). exists (a, r1). split; [done|].
    apply elem_of_map. exists (a, r2). split; [done|].
    by apply elem_of_filter.
Qed.

Lemma domain_from_domain (d : union_set) : domain (from_domain d) = d.
Proof.
  apply set_eq. intros a. rewrite elem_of_domain. split.
  - intros [r H]. by apply elem_of_from_domain in H as [_ H].
  - intros H. exists (anon []). by apply elem_of_from_domain.
Qed.

Lemma domain_mono (s1 s2 : union_map) : s1 ⊆ s2 → domain s1 ⊆ domain s2.
Proof.
  intros Hs a. rewrite !elem_of_domain. intros [r H]. exists r. auto.
Qed.

Lemma domain_flat_range_product (s m : union_map) :
  domain (flat_range_product s m) ⊆ domain s.
Proof.
  intros a. rewrite !elem_of_domain. intros [r Hr].
  apply elem_of_flat_range_product in Hr as (b & r1 & r2 & [= -> ->] & Hs & _).
  by exists r1.
Qed.

Lemma flat_range_product_mono (s1 s2 m : union_map) :
  s1 ⊆ s2 → flat_range_product s1 m ⊆ flat_range_product s2 m.
Proof.
  intros Hs x. rewrite !elem_of_flat_range_product.
  intros (a & r1 & r2 & -> & H1 & H2). exists a, r1, r2. auto.
Qed.

Lemma domain_intersect_domain (s : union_map) (f D : union_set) :
  domain s ⊆ D → domain (intersect_domain s f) ⊆ intersect D f.
Proof.
  intros HD a. rewrite elem_of_domain. intros [r H].
  apply elem_of_intersect_domain in H as [Hf Hs]. simpl in Hf.
  apply elem_of_intersection. split; [|done].
  apply HD, elem_of_domain. by exists r.
Qed.

Lemma intersect_domain_mono (s1 s2 : union_map) (d1 d2 : union_set) :
  s1 ⊆ s2 → d1 ⊆ d2 → intersect_domain s1 d1 ⊆ intersect_domain s2 d2.
Proof.
  intros Hs Hd x. rewrite !elem_of_intersect_domain. intros [? ?]. auto.
Qed.

Lemma extension_step_covers (s ext : union_map) (D : union_set) :
  domain s ⊆ D →
  domain (unite_map s (intersect_range (reverse ext) (range s)))
  ⊆ unite D (apply (range (intersect_domain s D)) ext).
Proof.
  intros HD a. rewrite elem_of_domain. intros [r H].
  apply elem_of_union in H as [H|H]; apply elem_of_union.
  - left. apply HD, elem_of_domain. by exists r.
  - right. apply elem_of_intersect_range in H as [Hr Hext]. simpl in Hr.
    rewrite elem_of_reverse in Hext. apply elem_of_range in Hr as [y Hy].
    apply elem_of_apply. exists r. split; [|done].
    apply elem_of_range. exists y. apply elem_of_intersect_domain.
    split; [|done]. apply HD, elem_of_domain. by exists r.
Qed.

Lemma extension_step_mono (s1 s2 ext : union_map) :
  s1 ⊆ s2 →
  unite_map s1 (intersect_range (reverse ext) (range s1))
  ⊆ unite_map s2 (intersect_range (reverse ext) (range s2)).
Proof.
  intros Hs x. unfold unite_map. rewrite !elem_of_union.
  intros [H|H]; [left; auto|right].
  apply elem_of_intersect_range in H as [Hr Hext].
  apply elem_of_intersect_range. split; [|done].
  apply elem_of_range in Hr as [a Ha]. apply elem_of_range. exists a. auto.
Qed.

Lemma extension_active_mono (s1 s2 ext : union_map) (D1 D2 : union_set) :
  s1 ⊆ s2 → D1 ⊆ D2 →
  unite D1 (apply (range (intersect_domain s1 D1)) ext)
  ⊆ unite D2 (apply (range (intersect_domain s2 D2)) ext).
Proof.
  intros Hs HD x. unfold unite. rewrite !elem_of_union.
  intros [H|H]; [left; auto|right].
  apply elem_of_apply in H as (t & Ht & Hext). apply elem_of_apply.
  exists t. split; [|done].
  apply elem_of_range in Ht as [a Ha]. apply elem_of_range. exists a.
  by apply (intersect_domain_mono s1 s2 D1 D2).
Qed.

(** With a schedule in hand a round of the loop never fails. *)
Lemma chainStep_total (D : union_set) (s : union_map) (e : ScheduleTreeElem) :
  ∃ D' s', chainStep (D, Some s) e = Done (D', Some s').
Proof.
  unfold chainStep, scheduleElem, extendSchedule.
  destruct e; simpl; try (eexists _, _; reflexivity).
  destruct (bool_decide (0 < nMember band)%nat); eexists _, _; reflexivity.
Qed.

Lemma chain_total (D : union_set) (s : union_map) (es : list ScheduleTreeElem) :
  ∃ D' s', foldlM chainStep (D, Some s) es = Done (D', Some s').
Proof.
  revert D s. induction es as [|e es IH]; intros D s; [by eexists _, _|].
  destruct (chainStep_total D s e) as (D1 & s1 & H1).
  cbn [foldlM]. rewrite H1. cbn [obind]. apply IH.
Qed.

(** The active set covers the domain of the prefix schedule, round after
    round, as long as no [Domain] element resets the schedule. *)
Lemma chainStep_covers (D : union_set) (s : union_map) (e : ScheduleTreeElem)
    D' s' :
  elemIsDomain e = false → domain s ⊆ D →
  chainStep (D, Some s) e = Done (D', Some s') → domain s' ⊆ D'.
Proof.
  intros He HD. unfold chainStep, scheduleElem, extendSchedule.
  destruct e; simpl in *; try discriminate; try (intros [= <- <-]; done).
  - destruct (bool_decide (0 < nMember band)%nat); intros [= <- <-]; [|done].
    etrans; [apply domain_flat_range_product|done].
  - intros [= <- <-]. by apply domain_intersect_domain.
  - intros [= <- <-]. by apply domain_intersect_domain.
  - intros [= <- <-]. by apply extension_step_covers.
Qed.

Lemma chain_covers (es : list ScheduleTreeElem) (D : union_set) (s : union_map)
    D' s' :
  Forall (λ e, elemIsDomain e = false) es → domain s ⊆ D →
  foldlM chainStep (D, Some s) es = Done (D', Some s') → domain s' ⊆ D'.
Proof.
  revert D s. induction es as [|e es IH]; intros D s Hes HD.
  - by intros [= <- <-].
  - inversion_clear Hes as [|? ? He Hes'].
    destruct (chainStep_total D s e) as (D1 & s1 & H1).
    cbn [foldlM]. rewrite H1. cbn [obind].
    apply IH; [done|]. by eapply chainStep_covers.
Qed.

(** A round of the loop is monotone in the active set and the schedule. *)
Lemma chainStep_mono (D1 D2 : union_set) (s1 s2 : union_map) e D1' s1' D2' s2' :
  D1 ⊆ D2 → s1 ⊆ s2 →
  chainStep (D1, Some s1) e = Done (D1', Some s1') →
  chainStep (D2, Some s2) e = Done (D2', Some s2') →
  D1' ⊆ D2' ∧ s1' ⊆ s2'.
Proof.
  intros HD Hs. unfold chainStep, scheduleElem, extendSchedule.
  destruct e; simpl; try (intros [= <- <-] [= <- <-]; done).
  - destruct (bool_decide (0 < nMember band)%nat);
      intros [= <- <-] [= <- <-]; [|done].
    split; [done|]. by apply flat_range_product_mono.
  - intros [= <- <-] [= <- <-]. split.
    + unfold intersect. by apply intersection_mono_r.
    + by apply intersect_domain_mono.
  - intros [= <- <-] [= <- <-]. split.
    + unfold intersect. by apply intersection_mono_r.
    + by apply intersect_domain_mono.
  - intros [= <- <-] [= <- <-]. split.
    + by apply extension_active_mono.
    + by apply extension_step_mono.
Qed.

Lemma chain_mono (es : list ScheduleTreeElem) (D1 D2 : union_set)
    (s1 s2 : union_map) D1' s1' D2' s2' :
  D1 ⊆ D2 → s1 ⊆ s2 →
  foldlM chainStep (D1, Some s1) es = Done (D1', Some s1') →
  foldlM chainStep (D2, Some s2) es = Done (D2', Some s2') →
  D1' ⊆ D2' ∧ s1' ⊆ s2'.
Proof.
  revert D1 D2 s1 s2. induction es as [|e es IH]; intros D1 D2 s1 s2 HD Hs.
  - by intros [= <- <-] [= <- <-].
  - destruct (chainStep_total D1 s1 e) as (E1 & t1 & H1).
    destruct (chainStep_total D2 s2 e) as (E2 & t2 & H2).
    cbn [foldlM]. rewrite H1, H2. cbn [obind].
    destruct (chainStep_mono _ _ _ _ _ _ _ _ _ HD Hs H1 H2).
    by apply IH.
Qed.

(** ** [activeDomainPoints] against the schedules *)

Lemma ancestorElems_cons (root : ScheduleTree) (p : path) :
  is_Some (child root p) → p ≠ [] →
  ∃ rest, ancestorElems root p = elem_ root :: rest.
Proof.
  intros Hp Hne. destruct p as [|i q]; [done|].
  unfold ancestorElems. rewrite ancestors_valid by done. simpl. eauto.
Qed.

Lemma ancestorElems_nil (root : ScheduleTree) : ancestorElems root [] = [].
Proof. done. Qed.

Lemma activeDomainPoints_chain (root : ScheduleTree) (p : path) d D s :
  elem_ root = EDomain d → is_Some (child root p) → p ≠ [] →
  foldlM chainStep (d, None) (ancestorElems root p) = Done (D, s) →
  activeDomainPoints root p = Done D ∧ prefixSchedule root p = s.
Proof.
  intros Hroot Hp Hne. rewrite active_loop_chain by done.
  unfold activeDomainPoints. rewrite Hroot.
  destruct (decide (p = [])) as [|_]; [done|].
  destruct (foldlM (activeStep root) d (ancestors root p)); cbn [obind];
    [|done].
  by intros [= -> ->].
Qed.

Lemma chainStep_root (d : union_set) :
  chainStep (d, None) (EDomain d) = Done (d, Some (from_domain d)).
Proof. done. Qed.

(** The element of a node that is neither a [Domain] nor an [Extension]
    can only shrink the domain of the schedule. *)
Lemma scheduleElem_shrinks (s : union_map) (e : ScheduleTreeElem) :
  elemIsDomain e = false → elemIsExtension e = false →
  ∃ s', scheduleElem (Some s) e = Some s' ∧ domain s' ⊆ domain s.
Proof.
  intros Hd He. unfold scheduleElem, extendSchedule.
  destruct e; simpl in *; try discriminate; try (by exists s).
  - destruct (bool_decide (0 < nMember band)%nat); [|by exists s].
    eexists. split; [done|]. apply domain_flat_range_product.
  - eexists. split; [done|]. apply domain_mono. intros x.
    rewrite elem_of_intersect_domain. tauto.
  - eexists. split; [done|]. apply domain_mono. intros x.
    rewrite elem_of_intersect_domain. tauto.
Qed.

(** C1, in the form the code supports.  In a tree whose only [Domain] node
    is the root, for a node [n] that is not itself an [Extension],
    [activeDomainPoints root n] returns a superset of the domain of
    [partialSchedule root n]; and inserting a filter element into the
    ancestor chain of a node can only shrink the active set. *)
Theorem activeDomainPoints_covers_and_shrinks :
  (∀ (root : ScheduleTree) (node : path) (n : ScheduleTree) (d : union_set),
     elem_ root = EDomain d →
     child root node = Some n →
     Forall (λ e, elemIsDomain e = false) (tail (ancestorElems root node)) →
     (node ≠ [] → elemIsDomain (elem_ n) = false) →
     elemIsExtension (elem_ n) = false →
     ∃ D s, activeDomainPoints root node = Done D
            ∧ partialSchedule root node = Some s
            ∧ domain s ⊆ D)
  ∧
  (∀ (root root' : ScheduleTree) (node node' : path) (d : union_set)
     (above below : list ScheduleTreeElem) (f : ScheduleTreeElem),
     elem_ root = EDomain d →
     is_Some (child root node) → is_Some (child root' node') →
     above ≠ [] →
     is_Some (elemAsBaseFilter f) →
     ancestorElems root node = above ++ below →
     ancestorElems root' node' = above ++ f :: below →
     ∃ D D', activeDomainPoints root node = Done D
             ∧ activeDomainPoints root' node' = Done D'
             ∧ D' ⊆ D).
Proof.
  split.
  - intros root node n d Hroot Hn Hchain Hnd Hne.
    destruct (decide (node = [])) as [->|Hnode].
    + simpl in Hn. injection Hn as <-.
      exists d, (from_domain d). split; [|split].
      * unfold activeDomainPoints. by rewrite Hroot.
      * rewrite partialSchedule_valid by (simpl; eauto). simpl.
        unfold scheduleStep. simpl. by rewrite Hroot.
      * by rewrite domain_from_domain.
    + destruct (ancestorElems_cons root node) as [rest Hrest]; [eauto|done|].
      rewrite Hrest in Hchain. simpl in Hchain.
      destruct (chain_total d (from_domain d) rest) as (D & s & Hfold).
      assert (foldlM chainStep (d, None) (ancestorElems root node)
              = Done (D, Some s)) as Hall.
      { rewrite Hrest, Hroot. cbn [foldlM]. rewrite chainStep_root. done. }
      apply activeDomainPoints_chain in Hall as [Hact Hpre]; [|done|eauto|done].
      assert (domain s ⊆ D) as Hcov.
      { eapply chain_covers; [exact Hchain| |exact Hfold].
        by rewrite domain_from_domain. }
      destruct (scheduleElem_shrinks s (elem_ n)) as (s' & Hs' & Hsub);
        [auto|done|].
      exists D, s'. split; [done|]. split; [|by etrans].
      rewrite partialSchedule_valid by eauto.
      rewrite <- prefixSchedule_valid by eauto.
      by rewrite (scheduleStep_elem _ _ _ n), Hpre.
  - intros root root' node node' d above below f Hroot Hn Hn' Habove Hf
      Hchain Hchain'.
    destruct above as [|e0 above]; [done|]. clear Habove.
    assert (node ≠ []) as Hnode.
    { intros ->. by rewrite ancestorElems_nil in Hchain. }
    assert (node' ≠ []) as Hnode'.
    { intros ->. by rewrite ancestorElems_nil in Hchain'. }
    destruct (ancestorElems_cons root node) as [rest Hrest]; [done..|].
    destruct (ancestorElems_cons root' node') as [rest' Hrest']; [done..|].
    assert (e0 = EDomain d) as ->.
    { rewrite Hrest in Hchain. simpl in Hchain. congruence. }
    assert (elem_ root' = EDomain d) as Hroot'.
    { rewrite Hrest' in Hchain'. simpl in Hchain'. congruence. }
    destruct (chain_total d (from_domain d) above) as (D0 & s0 & H0).
    destruct (chain_total D0 s0 below) as (D & s & HD).
    destruct (chainStep_total D0 s0 f) as (D1 & s1 & H1).
    destruct (chain_total D1 s1 below) as (D' & s' & HD').
    assert (foldlM chainStep (d, None) (ancestorElems root node)
            = Done (D, Some s)) as Hall.
    { rewrite Hchain. cbn [app foldlM]. rewrite chainStep_root. cbn [obind].
      rewrite foldlM_app, H0. done. }
    assert (foldlM chainStep (d, None) (ancestorElems root' node')
            = Done (D', Some s')) as Hall'.
    { rewrite Hchain'. cbn [app foldlM]. rewrite chainStep_root. cbn [obind].
      rewrite foldlM_app, H0. cbn [obind foldlM]. rewrite H1. done. }
    apply activeDomainPoints_chain in Hall as [Hact _]; [|done..].
    apply activeDomainPoints_chain in Hall' as [Hact' _]; [|done..].
    exists D, D'. split; [done|]. split; [done|].
    assert (D1 ⊆ D0 ∧ s1 ⊆ s0) as [HD1 Hs1].
    { destruct Hf as [flt Hflt]. unfold chainStep, scheduleElem, extendSchedule in H1.
      destruct f; simpl in *; try discriminate;
        injection H1 as <- <-; split;
        try (unfold intersect; apply intersection_subseteq_l);
        intros x; rewrite elem_of_intersect_domain; tauto. }
    by destruct (chain_mono below D1 D0 s1 s0 _ _ _ _ HD1 Hs1 HD' HD).
Qed.

Lemma activeDomainPoints_covers_and_shrinks_witness :
  (∃ D s, activeDomainPoints filteredTree [0; 0]%nat = Done D
          ∧ partialSchedule filteredTree [0; 0]%nat = Some s
          ∧ domain s ⊆ D)
  ∧ (∃ D D', activeDomainPoints unfilteredTree [0; 0]%nat = Done D
             ∧ activeDomainPoints filteredTree [0; 0; 0]%nat = Done D'
             ∧ D' ⊆ D).
Proof.
  split.
  - apply (proj1 activeDomainPoints_covers_and_shrinks filteredTree
             [0; 0]%nat (mkTree (EBand bandS01) [leafNode])
             {[ stmtS 0; stmtS 1 ]}).
    + reflexivity.
    + reflexivity.
    + vm_compute. repeat constructor.
    + reflexivity.
    + reflexivity.
  - apply (proj2 activeDomainPoints_covers_and_shrinks unfilteredTree
             filteredTree [0; 0]%nat [0; 0; 0]%nat {[ stmtS 0; stmtS 1 ]}
             [EDomain {[ stmtS 0; stmtS 1 ]}] [EBand bandS01]
             (EFilter {[ stmtS 1 ]})).
    + reflexivity.
    + vm_compute. eauto.
    + vm_compute. eauto.
    + discriminate.
    + simpl. eauto.
    + reflexivity.
    + reflexivity.
Defined.

(** C1 as stated fails at an [Extension] node: the points the node
    introduces are in the domain of its partial schedule and not in the set
    that is active when the node is reached. *)
Lemma activeDomainPoints_misses_extension_node :
  activeDomainPoints extensionTree [0%nat] = Done {[ stmtS 0 ]}
  ∧ partialSchedule extensionTree [0%nat]
    = Some {[ (stmtS 0, anon []); (stmtE, anon []) ]}
  ∧ ¬ domain ({[ (stmtS 0, anon []); (stmtE, anon []) ]} : union_map)
      ⊆ ({[ stmtS 0 ]} : union_set).
Proof.
  split; [|split].
  - vm_compute. reflexivity.
  - vm_compute. reflexivity.
  - intros H. specialize (H stmtE).
    assert (stmtE ∈ ({[ stmtS 0 ]} : union_set)) as Hin.
    { apply H, elem_of_domain. exists (anon []). set_solver. }
    apply elem_of_singleton in Hin. discriminate.
Qed.

(** C7, at the inputs where the code and the claim part.  Below a [Domain]
    root the prefix schedule of an ancestor is never null, so the check on
    the dimension of the extension never fires: an extension with a
    one-dimensional domain side and no band above it is accepted, and the
    range of a zero-dimensional extension is united in only through the
    points that are still active. *)
Lemma activeDomainPoints_extension_without_band :
  dim_in {[ (anon [7], stmtE) ]} = 1%nat
  ∧ activeDomainPoints extensionNoBandTree [0; 0]%nat = Done {[ stmtS 0 ]}
  ∧ dim_in {[ (anon [], stmtE) ]} = 0%nat
  ∧ activeDomainPoints extensionEmptyActiveTree [0; 0; 0]%nat = Done ∅.
Proof. repeat split; vm_compute; reflexivity. Qed.

(** Below a [Domain] root [activeDomainPoints] has no failing path. *)
Lemma activeDomainPoints_total (root : ScheduleTree) (node : path) d :
  elem_ root = EDomain d → is_Some (child root node) →
  ∃ D, activeDomainPoints root node = Done D.
Proof.
  intros Hroot Hn. destruct (decide (node = [])) as [->|Hne].
  - exists d. unfold activeDomainPoints. by rewrite Hroot.
  - destruct (ancestorElems_cons root node) as [rest Hrest]; [done..|].
    destruct (chain_total d (from_domain d) rest) as (D & s & Hfold).
    exists D. eapply (activeDomainPoints_chain root node d D (Some s));
      [done..|].
    rewrite Hrest, Hroot. cbn [foldlM]. by rewrite chainStep_root.
Qed.

(** ** Structural edits *)

Lemma updateR_spec {R} (f : ScheduleTree → outcome (ScheduleTree * R))
    (p : path) (root n n' : ScheduleTree) (r : R) :
  child root p = Some n → f n = Done (n', r) →
  ∃ root', updateR root p f = Done (root', r)
           ∧ child root' p = Some n'
           ∧ elem_ root' = (if decide (p = []) then elem_ n' else elem_ root).
Proof.
  revert root. induction p as [|i q IH]; intros root Hn Hf.
  - simpl in *. injection Hn as ->. exists n'. by rewrite Hf.
  - cbn [child] in Hn. cbn [updateR child].
    destruct (children_ root !! i) as [c|] eqn:Hc; [|done].
    cbn [mbind option_bind] in Hn. cbn [from_option obind].
    destruct (IH c Hn Hf) as (c' & Hupd & Hchild & _).
    rewrite Hupd. cbn [obind fst snd]. eexists. split; [done|].
    split; [|done]. cbn [child children_].
    rewrite list_lookup_insert_eq; [done|].
    by eapply lookup_lt_Some.
Qed.

Lemma ancestor_parent (root : ScheduleTree) (parent : path) (cpos : nat) :
  is_Some (child root (parent ++ [cpos])) →
  ancestor root (parent ++ [cpos]) 1 = Done parent.
Proof.
  intros Hn. unfold ancestor. rewrite ancestors_valid by done.
  rewrite strict_prefixes_snoc, length_app, strict_prefixes_length. simpl.
  rewrite bool_decide_eq_true_2 by lia. simpl.
  replace (length parent + 1 - 1)%nat with (length parent + 0)%nat by lia.
  rewrite lookup_app_r, strict_prefixes_length
    by (rewrite strict_prefixes_length; lia).
  by replace (length parent + 0 - length parent)%nat with 0%nat by lia.
Qed.

(** C8.  For a node strictly below the root, [swapSubtree] puts the new
    subtree into the slot of the node in its parent's child list, returns
    the pointer to that slot and hands the old subtree back; called on the
    root itself it fails. *)
Theorem swapSubtree_replaces_child :
  (∀ (root : ScheduleTree) (parent : path) (cpos : nat)
     (pnode old newSubtree : ScheduleTree),
     child root parent = Some pnode →
     children_ pnode !! cpos = Some old →
     ∃ root',
       swapSubtree root (parent ++ [cpos]) newSubtree
       = Done (root', parent ++ [cpos], old)
       ∧ child root' parent
         = Some (mkTree (elem_ pnode) (<[cpos := newSubtree]> (children_ pnode)))
       ∧ child root' (parent ++ [cpos]) = Some newSubtree)
  ∧ (∀ (root newSubtree : ScheduleTree),
       swapSubtree root [] newSubtree = Abort StrictRootNeeded).
Proof.
  split; [|done].
  intros root parent cpos pnode old newSubtree Hp Hold.
  assert (child root (parent ++ [cpos]) = Some old) as Hnode.
  { rewrite child_app, Hp. simpl. by rewrite Hold. }
  destruct (updateR_spec (λ p, swapChild p cpos newSubtree) parent root pnode
              (mkTree (elem_ pnode) (<[cpos := newSubtree]> (children_ pnode)))
              old Hp) as (root' & Hupd & Hchild & _).
  { unfold swapChild. by rewrite Hold. }
  exists root'. split; [|split; [done|]].
  - unfold swapSubtree, positionRelativeTo.
    rewrite bool_decide_eq_true_2 by (by destruct parent). cbn [check obind].
    rewrite last_snoc. cbn [from_option obind].
    rewrite ancestor_parent by eauto. cbn [obind].
    rewrite Hupd. done.
  - rewrite child_app, Hchild. simpl.
    rewrite list_lookup_insert_eq; [done|]. by eapply lookup_lt_Some.
Qed.

Lemma swapSubtree_replaces_child_witness :
  ∃ root',
    swapSubtree filteredTree ([0%nat] ++ [0%nat]) leafNode
    = Done (root', [0%nat] ++ [0%nat], mkTree (EBand bandS01) [leafNode])
    ∧ child root' [0%nat]
      = Some (mkTree (EFilter {[ stmtS 1 ]}) (<[0%nat := leafNode]>
                [mkTree (EBand bandS01) [leafNode]]))
    ∧ child root' ([0%nat] ++ [0%nat]) = Some leafNode.
Proof.
  apply (proj1 swapSubtree_replaces_child filteredTree [0%nat] 0%nat
           (mkTree (EFilter {[ stmtS 1 ]}) [mkTree (EBand bandS01) [leafNode]])
           (mkTree (EBand bandS01) [leafNode]) leafNode);
    reflexivity.
Defined.

(** ** Joining bands *)

Lemma resize_plus_replicate {A} (l : list A) (n : nat) (x : A) :
  resize (length l + n) x l = l ++ replicate n x.
Proof.
  rewrite resize_ge by lia. f_equal. f_equal. lia.
Qed.

Lemma joinBandsHelper_nested eb ebChild gcs :
  joinBandsHelper (mkTree (EBand eb) [mkTree (EBand ebChild) gcs])
  = Done (mkTree (EBand (joinedBand eb ebChild (permutable_ eb)))
                 [mkTree (EBand ebChild) gcs], true).
Proof.
  unfold joinBandsHelper, joinedBand. simpl.
  by rewrite resize_plus_replicate.
Qed.

Lemma joinBandsHelper_end eb kids :
  singleBandChild kids = false →
  joinBandsHelper (mkTree (EBand eb) kids) = Done (mkTree (EBand eb) kids, false).
Proof.
  unfold singleBandChild, joinBandsHelper. simpl.
  destruct (length kids =? 1)%nat; simpl; [|done].
  destruct (kids !! 0%nat ≫= λ c, elemAsBand (elem_ c)) eqn:Hk; [|done].
  intros H. apply bool_decide_eq_false_1 in H. destruct H. eauto.
Qed.

Lemma bandChain_elem b bs kids : elem_ (bandChain b bs kids) = EBand b.
Proof. by destruct bs. Qed.

Lemma bandChain_rebuild b x bs kids :
  mkTree (EBand x) (children_ (bandChain b bs kids)) = bandChain x bs kids.
Proof. by destruct bs. Qed.

Lemma bandChain_unfold b bs kids :
  bandChain b bs kids = mkTree (EBand b) (children_ (bandChain b bs kids)).
Proof. by destruct bs. Qed.

Lemma moveGrandChildren_single e c gcs :
  moveGrandChildren (mkTree e [mkTree c gcs]) = Done (mkTree e gcs).
Proof. done. Qed.

(** The flags and functions of a whole chain joined into its first band. *)
Lemma joinBandsLoop_chain (bs : list ScheduleTreeElemBand) :
  ∀ (b : ScheduleTreeElemBand) (kids : list ScheduleTree) (fuel : nat),
    singleBandChild kids = false → (length bs < fuel)%nat →
    joinBandsLoop fuel (bandChain b bs kids)
    = Done (mkTree (EBand
        {| mupa_ := mupa_ b ++ concat (mupa_ <$> bs);
           permutable_ := permutable_ b;
           coincident_ :=
             coincident_ b
             ++ replicate (length (concat (coincident_ <$> bs))) false;
           unroll_ := unroll_ b ++ concat (unroll_ <$> bs) |}) kids).
Proof.
  induction bs as [|b' bs IH]; intros b kids fuel Hkids Hfuel;
    (destruct fuel as [|fuel]; [simpl in Hfuel; lia|]).
  - cbn [joinBandsLoop bandChain]. rewrite joinBandsHelper_end by done.
    cbn [obind]. simpl. rewrite !app_nil_r. by destruct b.
  - cbn [joinBandsLoop bandChain].
    rewrite (bandChain_unfold b' bs kids) at 1.
    rewrite joinBandsHelper_nested. cbn [obind].
    rewrite moveGrandChildren_single, bandChain_rebuild. cbn [obind].
    rewrite IH by (done || simpl in Hfuel; lia).
    unfold joinedBand, mupa_flat_range_product. simpl.
    rewrite length_app, replicate_add, <- !app_assoc. done.
Qed.

Lemma joinBands_nested (eb ebChild : ScheduleTreeElemBand)
    (gcs : list ScheduleTree) (permutable : bool) :
  joinBands (mkTree (EBand eb) [mkTree (EBand ebChild) gcs]) permutable
  = Done (mkTree (EBand (joinedBand eb ebChild permutable)) gcs).
Proof.
  unfold joinBands. rewrite joinBandsHelper_nested. cbn [obind].
  by rewrite moveGrandChildren_single.
Qed.

(** C2, in the form the code supports.  [joinBands] on a band whose single
    child is a band gives one band with the two affine functions stacked,
    the two unroll vectors one after the other, the grandchildren below
    it and the given [permutable] flag; the coincident flags of the outer
    band are kept and only those of the members that come from the nested
    band are reset.  [joinBandsIterative] collapses a chain of bands into
    its first band in the same way, in at most one round per band. *)
Theorem joinBands_merges_nested_band :
  (∀ (eb ebChild : ScheduleTreeElemBand) (gcs : list ScheduleTree)
     (permutable : bool),
     joinBands (mkTree (EBand eb) [mkTree (EBand ebChild) gcs]) permutable
     = Done (mkTree (EBand (joinedBand eb ebChild permutable)) gcs))
  ∧ (∀ (b : ScheduleTreeElemBand) (bs : list ScheduleTreeElemBand)
       (kids : list ScheduleTree) (permutable : bool) (fuel : nat),
       singleBandChild kids = false → (length bs < fuel)%nat →
       joinBandsIterative fuel (bandChain b bs kids) permutable
       = Done (mkTree (EBand
           {| mupa_ := concat (mupa_ <$> b :: bs);
              permutable_ := permutable;
              coincident_ :=
                coincident_ b
                ++ replicate (length (concat (coincident_ <$> bs))) false;
              unroll_ := concat (unroll_ <$> b :: bs) |}) kids)).
Proof.
  split.
  - apply joinBands_nested.
  - intros b bs kids permutable fuel Hkids Hfuel. unfold joinBandsIterative.
    rewrite joinBandsLoop_chain by done. done.
Qed.

Lemma joinBands_merges_nested_band_witness :
  joinBandsIterative 2 (bandChain bandS01 [bandS01] [leafNode]) false
  = Done (mkTree (EBand
      {| mupa_ := concat (mupa_ <$> [bandS01; bandS01]);
         permutable_ := false;
         coincident_ :=
           coincident_ bandS01
           ++ replicate (length (concat (coincident_ <$> [bandS01]))) false;
         unroll_ := concat (unroll_ <$> [bandS01; bandS01]) |}) [leafNode]).
Proof.
  apply (proj2 joinBands_merges_nested_band bandS01 [bandS01] [leafNode]
           false 2%nat).
  - reflexivity.
  - simpl. lia.
Defined.

(** C2 as stated fails on the coincident flags: the flag of the outer
    member survives the join. *)
Lemma joinBands_keeps_outer_coincident :
  ∃ b, joinBands nestedBands true = Done (mkTree (EBand b) [leafNode])
       ∧ coincident_ b = [true; false]
       ∧ ¬ Forall (λ c, c = false) (coincident_ b).
Proof.
  eexists. split; [reflexivity|]. split; [reflexivity|].
  simpl. intros H. by inversion H.
Qed.

(** ** Splitting bands *)

Lemma bandSplit_result (relativeRoot : ScheduleTree)
    (band : ScheduleTreeElemBand) (children : list ScheduleTree) (pos : nat) :
  (0 < nMember band)%nat → (pos ≤ nMember band)%nat →
  bandSplit relativeRoot (mkTree (EBand band) children) pos
  = Done (mkTree (EBand
      {| mupa_ := drop_dims (mupa_ band) pos (nMember band - pos);
         permutable_ := permutable_ band;
         coincident_ := drop_dims (coincident_ band) pos (nMember band - pos);
         unroll_ := drop_dims (unroll_ band) pos (nMember band - pos) |})
      [mkTree (EBand
         {| mupa_ := drop_dims (mupa_ band) 0 pos;
            permutable_ := permutable_ band;
            coincident_ := drop_dims (coincident_ band) 0 pos;
            unroll_ := drop_dims (unroll_ band) 0 pos |}) children]).
Proof.
  intros Hn Hpos. unfold bandSplit, band_drop.
  cbn [elem_ elemAsBand from_option obind].
  rewrite !bool_decide_eq_true_2 by lia. cbn [check obind].
  unfold detachChildren, appendChild, appendChildren.
  cbn [elem_ children_ obind app]. done.
Qed.

Lemma drop_dims_split {A} (l : list A) (pos n : nat) :
  n = length l → (pos ≤ n)%nat →
  drop_dims l pos (n - pos) ++ drop_dims l 0 pos = l.
Proof.
  intros -> Hpos. unfold drop_dims.
  replace (pos + (length l - pos))%nat with (length l) by lia.
  rewrite drop_all, app_nil_r. simpl. apply take_drop.
Qed.

(** C5.  Splitting a band with at least one member at a position within
    it and joining the result gives back a band with the same affine
    function, above the same children. *)
Theorem bandSplit_joinBands_roundtrip
    (relativeRoot : ScheduleTree) (band : ScheduleTreeElemBand)
    (children : list ScheduleTree) (pos : nat) (permutable : bool) :
  (1 ≤ nMember band)%nat → (0 ≤ pos ≤ nMember band)%nat →
  ∃ split joined b,
    bandSplit relativeRoot (mkTree (EBand band) children) pos = Done split
    ∧ joinBands split permutable = Done joined
    ∧ joined = mkTree (EBand b) children
    ∧ mupa_ b = mupa_ band
    ∧ permutable_ b = permutable.
Proof.
  intros Hn [_ Hpos]. rewrite bandSplit_result by lia.
  eexists _, _, _. split; [done|]. split.
  { apply joinBands_nested. }
  split; [done|]. unfold joinedBand, mupa_flat_range_product. simpl.
  split; [|done]. by apply drop_dims_split.
Qed.

Lemma bandSplit_joinBands_roundtrip_witness :
  ∃ split joined b,
    bandSplit leafNode (mkTree (EBand bandS2) [leafNode]) 1 = Done split
    ∧ joinBands split false = Done joined
    ∧ joined = mkTree (EBand b) [leafNode]
    ∧ mupa_ b = mupa_ bandS2
    ∧ permutable_ b = false.
Proof.
  apply (bandSplit_joinBands_roundtrip leafNode bandS2 [leafNode] 1 false).
  - unfold nMember. simpl. lia.
  - unfold nMember. simpl. lia.
Defined.

(** C10.  [bandSplit] fails on a band without members, at every position;
    on a band node it succeeds exactly when the band has a member and the
    position is within it. *)
Theorem bandSplit_needs_a_member
    (relativeRoot : ScheduleTree) (band : ScheduleTreeElemBand)
    (children : list ScheduleTree) (pos : nat) :
  (nMember band = 0%nat →
   bandSplit relativeRoot (mkTree (EBand band) children) pos
   = Abort NoBandsToSplit)
  ∧ (is_done (bandSplit relativeRoot (mkTree (EBand band) children) pos) = true
     ↔ (0 < nMember band)%nat ∧ (0 ≤ pos ≤ nMember band)%nat).
Proof.
  split.
  - intros Hn. unfold bandSplit. simpl. by rewrite Hn.
  - split.
    + unfold bandSplit. simpl.
      destruct (bool_decide (0 < nMember band)%nat) eqn:Hn; [|done].
      apply bool_decide_eq_true_1 in Hn. simpl.
      destruct (bool_decide (pos ≤ nMember band)%nat) eqn:Hpos; [|done].
      apply bool_decide_eq_true_1 in Hpos. intros _. lia.
    + intros [Hn [_ Hpos]]. by rewrite bandSplit_result.
Qed.

Lemma bandSplit_needs_a_member_witness :
  bandSplit leafNode (mkTree (EBand emptyBand) [leafNode]) 0
  = Abort NoBandsToSplit.
Proof.
  apply (proj1 (bandSplit_needs_a_member leafNode emptyBand [leafNode] 0)).
  reflexivity.
Defined.

(** ** Tiling *)

(** C9.  With an empty vector of tile sizes [bandTile] returns the band
    node as it is, whatever its [permutable] flag. *)
Theorem bandTile_empty_sizes (band : ScheduleTreeElemBand)
    (children : list ScheduleTree) (tileOptions : TileOptions) :
  bandTile (mkTree (EBand band) children) [] tileOptions
  = Done (mkTree (EBand band) children).
Proof. done. Qed.








(** C4.  The scenario of two statements over [0 <= i < 10] under one
    permutable band of one member, tiled with sizes [[3]] and both
    options: the outer band maps a point of iterator [i] to
    [3 * floor(i / 3)], the new child band maps it to
    [i - 3 * floor(i / 3)], which lies in [[0, 3)], and the two children of
    the band are below the child band. *)
Theorem bandTile_scenario_by_three
    (c1 c2 : ScheduleTree) (coincident unroll : bool) :
  ∃ outer inner : union_pw_aff,
    bandTile (mkTree (EBand (band10 coincident unroll)) [c1; c2]) [3%N]
             (tileOptionsOr ScaleTileLoops ShiftPointLoops)
    = Done (mkTree
        (EBand {| mupa_ := [outer]; permutable_ := true;
                  coincident_ := [coincident]; unroll_ := [unroll] |})
        [mkTree
           (EBand {| mupa_ := [inner]; permutable_ := true;
                     coincident_ := [coincident]; unroll_ := [unroll] |})
           [c1; c2]])
    ∧ dom outer = domain10 ∧ dom inner = domain10
    ∧ ∀ x, x ∈ domain10 →
        outer !! x = Some (val_of_Z (3 * (iterator x / 3)))
        ∧ inner !! x = Some (val_of_Z (iterator x - 3 * (iterator x / 3)))
        ∧ 0 ≤ iterator x - 3 * (iterator x / 3) < 3.
Proof.
  exists (scale_val (floor (scale_down identity10 (val_of_size 3)))
                    (val_of_size 3)).
  exists (intersection_with (λ a b : val, Some (a - b)%Qc) identity10
            (scale_val (floor (scale_down identity10 (val_of_size 3)))
                       (val_of_size 3))).
  split; [reflexivity|].
  split; [vm_compute; reflexivity|].
  split; [vm_compute; reflexivity|].
  intros x Hx. unfold domain10 in Hx. apply elem_of_list_to_set in Hx.
  vm_compute in Hx.
  repeat (apply elem_of_cons in Hx as [->|Hx]);
    try (by apply elem_of_nil in Hx).
  all: split; [vm_compute; reflexivity|].
  all: split; [vm_compute; reflexivity|].
  all: vm_compute; split; [discriminate|reflexivity].
Qed.

Lemma bandTile_scenario_by_three_witness :
  ∃ outer inner : union_pw_aff,
    bandTile (mkTree (EBand (band10 true false)) [leafNode; leafNode]) [3%N]
             (tileOptionsOr ScaleTileLoops ShiftPointLoops)
    = Done (mkTree
        (EBand {| mupa_ := [outer]; permutable_ := true;
                  coincident_ := [true]; unroll_ := [false] |})
        [mkTree
           (EBand {| mupa_ := [inner]; permutable_ := true;
                     coincident_ := [true]; unroll_ := [false] |})
           [leafNode; leafNode]])
    ∧ outer !! stmtS 7 = Some (val_of_Z (3 * (iterator (stmtS 7) / 3)))
    ∧ inner !! stmtS 7
      = Some (val_of_Z (iterator (stmtS 7) - 3 * (iterator (stmtS 7) / 3)))
    ∧ 0 ≤ iterator (stmtS 7) - 3 * (iterator (stmtS 7) / 3) < 3.
Proof.
  destruct (bandTile_scenario_by_three leafNode leafNode true false)
    as (outer & inner & Hrun & _ & _ & Hpoint).
  exists outer, inner. split; [exact Hrun|].
  apply (Hpoint (stmtS 7)).
  apply (bool_decide_unpack _). vm_compute. exact I.
Defined.

(** ** Merging mapping filters *)

(** ** Merging mapping filters *)

Lemma mergeIds_disjoint (ids childIds : gset MappingId) :
  ids ## childIds → mergeIds ids childIds = Done (ids ∪ childIds).
Proof.
  intros Hdisj. unfold mergeIds.
  assert (∀ (l : list MappingId) (acc : gset MappingId),
            NoDup l → (∀ x, x ∈ l → x ∉ acc) →
            foldlM (λ ids id,
                      _ ←! check (bool_decide (id ∉ ids)) MappedInBoth;
                      Done ({[id]} ∪ ids)) acc l
            = Done (acc ∪ list_to_set l)) as Hloop.
  { induction l as [|x l IH]; intros acc Hnd Hfresh.
    - simpl. f_equal. set_solver.
    - inversion_clear Hnd as [|? ? Hx Hnd'].
      cbn [foldlM]. rewrite bool_decide_eq_true_2 by (apply Hfresh; left).
      cbn [check obind]. rewrite IH; [f_equal; set_solver|done|].
      intros y Hy. apply not_elem_of_union. split.
      + apply not_elem_of_singleton. intros ->. done.
      + apply Hfresh. by right. }
  rewrite Hloop.
  - by rewrite list_to_set_elements_L.
  - apply NoDup_elements.
  - intros x Hx. apply elem_of_elements in Hx. set_solver.
Qed.

Lemma mergeIds_collision (ids childIds : gset MappingId) (id : MappingId) :
  id ∈ ids → id ∈ childIds → mergeIds ids childIds = Abort MappedInBoth.
Proof.
  intros Hp Hc. unfold mergeIds. apply elem_of_elements in Hc.
  revert ids Hp. induction (elements childIds) as [|x l IH]; intros ids Hp.
  - by apply elem_of_nil in Hc.
  - cbn [foldlM]. destruct (decide (x ∈ ids)) as [Hx|Hx].
    + by rewrite bool_decide_eq_false_2 by (intros ?; done).
    + rewrite bool_decide_eq_true_2 by done. cbn [check obind].
      apply elem_of_cons in Hc as [->|Hc]; [done|].
      apply IH; [done|]. set_solver.
Qed.

Lemma collectDFSPreorder_single e Y :
  collectDFSPreorder (mkTree e [Y]) = [] :: (cons 0%nat <$> collectDFSPreorder Y).
Proof. simpl. by rewrite app_nil_r. Qed.

Lemma isMappingFilter_below e X (q : path) :
  isMappingFilter (mkTree e [X]) (0%nat :: q) = isMappingFilter X q.
Proof. done. Qed.

Lemma filter_mapping_below e X (l : list path) :
  filter (λ p, isMappingFilter (mkTree e [X]) p = true) (cons 0%nat <$> l)
  = cons 0%nat <$> filter (λ q, isMappingFilter X q = true) l.
Proof.
  induction l as [|q l IH]; [done|].
  rewrite fmap_cons, !filter_cons, isMappingFilter_below, IH.
  by destruct (decide (isMappingFilter X q = true)).
Qed.

Lemma mappingPaths_filter_node f ids Y :
  filter (λ q, isMappingFilter (mkTree (EMappingFilter f ids) [Y]) q = true)
         (collectDFSPreorder (mkTree (EMappingFilter f ids) [Y]))
  = [] :: (cons 0%nat <$> filter (λ q, isMappingFilter Y q = true)
                                 (collectDFSPreorder Y)).
Proof.
  rewrite collectDFSPreorder_single, filter_cons_True by done.
  by rewrite filter_mapping_below.
Qed.

Lemma mappingPaths_none (c : ScheduleTree) :
  noMappingFilters c →
  filter (λ q, isMappingFilter c q = true) (collectDFSPreorder c) = [].
Proof.
  unfold noMappingFilters. induction (collectDFSPreorder c) as [|q l IH];
    intros Hall; [done|].
  inversion_clear Hall as [|? ? Hq Hl].
  rewrite filter_cons_False by congruence. by apply IH.
Qed.

Lemma mappingChain_unfold k ks kids :
  mappingChain k ks kids
  = mkTree (EMappingFilter k.1 k.2) (children_ (mappingChain k ks kids)).
Proof. by destruct ks. Qed.

Lemma mappingChain_children k ks c :
  ∃ Y, children_ (mappingChain k ks [c]) = [Y]
       ∧ Y = match ks with
             | [] => c
             | k' :: ks' => mappingChain k' ks' [c]
             end.
Proof. destruct ks; eexists; split; reflexivity. Qed.
Lemma collectDFSPreorder_head (t : ScheduleTree) :
  ∃ tl, collectDFSPreorder t = [] :: tl.
Proof. destruct t. simpl. eauto. Qed.

Lemma mappingChain_rebuild (f : union_set) (ids : gset MappingId)
    (k' : mappingFilter) (ks' : list mappingFilter) (c Y : ScheduleTree) :
  children_ (mappingChain k' ks' [c]) = [Y] →
  mkTree (EMappingFilter f ids) [Y] = mappingChain (f, ids) ks' [c].
Proof. destruct ks'; simpl; by intros [= ->]. Qed.

Lemma mappingChain_snoc (k k' : mappingFilter) (ks : list mappingFilter)
    (kids : list ScheduleTree) :
  mappingChain k (ks ++ [k']) kids
  = mappingChain k ks [mkTree (EMappingFilter k'.1 k'.2) kids].
Proof.
  revert k. induction ks as [|k1 ks IH]; intros k; [done|].
  cbn [app mappingChain]. by rewrite IH.
Qed.

(** *** Replacing a subtree *)

Lemma child_graft (root : ScheduleTree) (p : path) (t : ScheduleTree) :
  is_Some (child root p) → child (graft root p t) p = Some t.
Proof.
  revert root. induction p as [|i q IH]; intros root Hp; [done|].
  cbn [child graft] in *.
  destruct (children_ root !! i) as [c|] eqn:Hc; [|by destruct Hp].
  cbn [mbind option_bind] in Hp. cbn [child children_].
  rewrite list_lookup_insert_eq by (by eapply lookup_lt_Some).
  cbn [mbind option_bind]. by apply IH.
Qed.

Lemma graft_id (root : ScheduleTree) (p : path) (t : ScheduleTree) :
  child root p = Some t → graft root p t = root.
Proof.
  revert root. induction p as [|i q IH]; intros root Hp.
  - simpl in Hp. by injection Hp as ->.
  - cbn [child graft] in *.
    destruct (children_ root !! i) as [c|] eqn:Hc; [|done].
    cbn [mbind option_bind] in Hp. rewrite (IH c Hp).
    rewrite list_insert_id by done. by destruct root.
Qed.

Lemma graft_graft (root : ScheduleTree) (p : path) (t t' : ScheduleTree) :
  graft (graft root p t) p t' = graft root p t'.
Proof.
  revert root. induction p as [|i q IH]; intros root; [done|].
  cbn [graft]. destruct (children_ root !! i) as [c|] eqn:Hc.
  - cbn [graft children_ elem_].
    rewrite list_lookup_insert_eq by (by eapply lookup_lt_Some).
    by rewrite IH, list_insert_insert_eq.
  - cbn [graft]. by rewrite Hc.
Qed.

Lemma graft_app (root sub : ScheduleTree) (p q : path) (t : ScheduleTree) :
  child root p = Some sub → graft root (p ++ q) t = graft root p (graft sub q t).
Proof.
  revert root. induction p as [|i p IH]; intros root Hp.
  - simpl in Hp. by injection Hp as ->.
  - cbn [child app graft] in *.
    destruct (children_ root !! i) as [c|] eqn:Hc; [|done].
    cbn [mbind option_bind] in Hp. by rewrite (IH c Hp).
Qed.

Lemma elem_graft (root : ScheduleTree) (p : path) (t : ScheduleTree) :
  p ≠ [] → elem_ (graft root p t) = elem_ root.
Proof.
  intros Hp. destruct p as [|i q]; [done|]. cbn [graft].
  by destruct (children_ root !! i).
Qed.

(** Below the parent of the replaced subtree only that child changes. *)
Lemma child_graft_parent (root pnode : ScheduleTree) (pp : path) (i : nat)
    (t : ScheduleTree) :
  child root pp = Some pnode → is_Some (children_ pnode !! i) →
  child (graft root (pp ++ [i]) t) pp
  = Some (mkTree (elem_ pnode) (<[i := t]> (children_ pnode))).
Proof.
  intros Hpp [old Hold]. rewrite (graft_app root pnode pp [i] t Hpp).
  rewrite child_graft by eauto. cbn [graft]. by rewrite Hold.
Qed.

Lemma update_graft (root n n' : ScheduleTree) (p : path)
    (f : ScheduleTree → outcome ScheduleTree) :
  child root p = Some n → f n = Done n' →
  update root p f = Done (graft root p n').
Proof.
  intros Hn Hf. unfold update.
  assert (updateR root p (λ n0, n1 ←! f n0; Done (n1, tt))
          = Done (graft root p n', tt)) as ->; [|done].
  revert root Hn. induction p as [|i q IH]; intros root Hn.
  - simpl in Hn. injection Hn as ->. cbn [updateR graft]. by rewrite Hf.
  - cbn [child updateR graft] in *.
    destruct (children_ root !! i) as [c|] eqn:Hc; [|done].
    cbn [mbind option_bind] in Hn. cbn [from_option obind].
    by rewrite (IH c Hn).
Qed.

(** *** The pieces without a point, after a merge *)

Lemma stripPrefix_app (f r : path) : stripPrefix f (f ++ r) = Some r.
Proof.
  induction f as [|x f IH]; [done|]. cbn [app stripPrefix].
  by rewrite decide_True.
Qed.

Lemma piecesAfterMerge_parent (emptyPieces : pieces) (p f : path) :
  piecesAfterMerge emptyPieces p f p = 0%nat.
Proof. unfold piecesAfterMerge. by rewrite decide_True. Qed.

Lemma piecesAfterMerge_below (emptyPieces : pieces) (p rest : path) :
  piecesAfterMerge emptyPieces p (p ++ [0%nat]) (p ++ 0%nat :: rest)
  = emptyPieces (p ++ 0%nat :: 0%nat :: rest).
Proof.
  unfold piecesAfterMerge. rewrite decide_False.
  - change (p ++ 0%nat :: rest) with (p ++ [0%nat] ++ rest).
    rewrite (assoc_L (++)), stripPrefix_app, <- (assoc_L (++)). done.
  - intros Heq. apply (f_equal length) in Heq.
    rewrite length_app in Heq. simpl in Heq. lia.
Qed.

Lemma piecesAfterMerge_iter_parent (emptyPieces : pieces) (p : path) (n : nat) :
  emptyPieces p = 0%nat →
  Nat.iter n (λ e, piecesAfterMerge e p (p ++ [0%nat])) emptyPieces p = 0%nat.
Proof.
  intros Hp. destruct n as [|n]; [done|]. cbn [Nat.iter nat_rect].
  apply piecesAfterMerge_parent.
Qed.

Lemma piecesAfterMerge_iter_below (emptyPieces : pieces) (p rest : path)
    (n : nat) :
  Nat.iter n (λ e, piecesAfterMerge e p (p ++ [0%nat])) emptyPieces
    (p ++ 0%nat :: rest)
  = emptyPieces (p ++ replicate n 0%nat ++ 0%nat :: rest).
Proof.
  revert rest. induction n as [|n IH]; intros rest; [done|].
  cbn [Nat.iter nat_rect]. rewrite piecesAfterMerge_below.
  change (nat_rect _ ?a ?f n) with (Nat.iter n (λ e, f 0%nat e) a).
  rewrite IH. do 2 f_equal.
  change (replicate (S n) 0%nat ++ 0%nat :: rest)
    with (0%nat :: replicate n 0%nat ++ 0%nat :: rest).
  clear. induction n as [|n IH]; [done|]. cbn [replicate app]. by rewrite IH.
Qed.

Lemma noEmptyPieces_after (emptyPieces : pieces) (p : path) (n : nat) :
  noEmptyPieces emptyPieces p (S n) →
  noEmptyPieces (piecesAfterMerge emptyPieces p (p ++ [0%nat])) p n.
Proof.
  intros Hemp j Hj. destruct j as [|j].
  - cbn [replicate]. rewrite app_nil_r. apply piecesAfterMerge_parent.
  - cbn [replicate]. rewrite piecesAfterMerge_below.
    apply (Hemp (S (S j))). lia.
Qed.

(** *** The scan, at a chain anywhere in the tree *)

Lemma isMappingFilter_app (root sub : ScheduleTree) (p q : path) :
  child root p = Some sub →
  isMappingFilter root (p ++ q) = isMappingFilter sub q.
Proof.
  intros Hp. unfold isMappingFilter, elemAt. by rewrite child_app, Hp.
Qed.

Lemma collectMappingFilters_at (root sub : ScheduleTree) (p : path) :
  child root p = Some sub →
  collectMappingFilters root p
  = app p <$> filter (λ q, isMappingFilter sub q = true)
                     (collectDFSPreorder sub).
Proof.
  intros Hp. unfold collectMappingFilters. rewrite Hp.
  induction (collectDFSPreorder sub) as [|q l IH]; [done|].
  rewrite fmap_cons, !filter_cons, (isMappingFilter_app root sub p q Hp), IH.
  by destruct (decide (isMappingFilter sub q = true)).
Qed.

(** The mapping filters of a chain above a subtree without any: the head
    alone when the chain has one filter. *)
Lemma collect_chain_last (root c : ScheduleTree) (p : path)
    (f : union_set) (ids : gset MappingId) :
  child root p = Some (mkTree (EMappingFilter f ids) [c]) →
  noMappingFilters c →
  collectMappingFilters root p = [p].
Proof.
  intros Hp Hc. rewrite (collectMappingFilters_at root _ p Hp).
  rewrite mappingPaths_filter_node, mappingPaths_none by done.
  cbn [fmap list_fmap]. by rewrite app_nil_r.
Qed.

(** The head and the filter below it come first. *)
Lemma collect_chain_pair (root : ScheduleTree) (p : path)
    (f f' : union_set) (ids ids' : gset MappingId) (kids : list ScheduleTree) :
  child root p = Some (mkTree (EMappingFilter f ids)
                         [mkTree (EMappingFilter f' ids') kids]) →
  ∃ rest,
    collectMappingFilters root p = p :: (p ++ [0%nat]) :: rest
    ∧ (Forall (λ t, noMappingFilters t) kids → length kids ≤ 1 → rest = [])%nat.
Proof.
  intros Hp. rewrite (collectMappingFilters_at root _ p Hp).
  rewrite mappingPaths_filter_node.
  destruct kids as [|c kids].
  - eexists. split.
    + cbn. rewrite app_nil_r. reflexivity.
    + done.
  - destruct kids as [|c' kids].
    + rewrite mappingPaths_filter_node.
      eexists. split.
      * cbn [fmap list_fmap]. rewrite app_nil_r. reflexivity.
      * intros Hc _. inversion_clear Hc as [|? ? Hc' _].
        by rewrite mappingPaths_none.
    + destruct (collectDFSPreorder_head
                  (mkTree (EMappingFilter f' ids') (c :: c' :: kids)))
        as [tl ->].
      rewrite filter_cons_True by done.
      eexists. split.
      * cbn [fmap list_fmap]. rewrite app_nil_r. reflexivity.
      * simpl. lia.
Qed.

(** The scan passes over a node whose parent is no mapping filter. *)
Lemma mergeScan_skip (root : ScheduleTree) (emptyPieces : pieces) (pp : path)
    (i : nat) (rest : list path) :
  is_Some (child root (pp ++ [i])) →
  elemAt root pp ≫= elemAsMappingFilter = None →
  mergeScan root emptyPieces ((pp ++ [i]) :: rest)
  = mergeScan root emptyPieces rest.
Proof.
  intros Hp Hnm. cbn [mergeScan]. rewrite ancestor_parent by done.
  cbn [obind]. by rewrite Hnm.
Qed.

(** The scan at a mapping filter below a mapping filter whose only child
    it is. *)
Lemma mergeScan_pair (root : ScheduleTree) (emptyPieces : pieces) (p : path)
    (k k' : mappingFilter) (kids : list ScheduleTree) (rest : list path) :
  child root p = Some (mkTree (EMappingFilter k.1 k.2)
                         [mkTree (EMappingFilter k'.1 k'.2) kids]) →
  mergeScan root emptyPieces ((p ++ [0%nat]) :: rest)
  = if countsMatch k.1 (emptyPieces p) k'.1 (emptyPieces (p ++ [0%nat]))
    then ids ←! mergeIds k.2 k'.2;
         sub ←! from_option (kids !! 0%nat) NoSuchNode;
         Done (Some (graft root p
                       (mkTree (EMappingFilter (intersect k.1 k'.1) ids) [sub]),
                     piecesAfterMerge emptyPieces p (p ++ [0%nat])))
    else mergeScan root emptyPieces rest.
Proof.
  intros Hp.
  assert (child root (p ++ [0%nat])
          = Some (mkTree (EMappingFilter k'.1 k'.2) kids)) as Hf.
  { by rewrite child_app, Hp. }
  cbn [mergeScan]. rewrite ancestor_parent by (rewrite Hf; eauto).
  cbn [obind]. unfold elemAt. rewrite Hp, Hf.
  cbn [fmap option_fmap option_map elem_ mbind option_bind elemAsMappingFilter
       from_option obind fst snd].
  unfold countsMatch.
  destruct (n_set (intersect k.1 k'.1) 0 =? n_set k.1 (emptyPieces p))%nat;
    [|done].
  destruct (n_set (intersect k.1 k'.1) 0
            =? n_set k'.1 (emptyPieces (p ++ [0%nat])))%nat; [|done].
  cbn [negb orb andb]. destruct (mergeIds k.2 k'.2) as [ids|w]; [|done].
  cbn [obind]. unfold detachChild. cbn [children_].
  destruct (kids !! 0%nat) as [sub|]; [|done].
  cbn [from_option obind snd]. rewrite last_snoc. cbn [from_option obind].
  rewrite (update_graft root _
             (mkTree (EMappingFilter (intersect k.1 k'.1) ids) [sub]) p _ Hp);
    [done|].
  unfold replaceChild. cbn [children_ length elem_].
  by rewrite bool_decide_eq_true_2 by lia.
Qed.

Lemma countsPreservedAlong_app (acc : union_set) (l1 l2 : list union_set) :
  countsPreservedAlong acc (l1 ++ l2)
  ↔ countsPreservedAlong acc l1
    ∧ countsPreservedAlong (foldl intersect acc l1) l2.
Proof.
  revert acc. induction l1 as [|f l1 IH]; intros acc; cbn; [tauto|].
  rewrite IH. tauto.
Qed.

(** The rounds in which the filters of a chain merge into its head, one
    round each, whatever is below the chain. *)
Lemma mergeLoop_rounds (pp : path) (i : nat) (c : ScheduleTree) :
  ∀ (ks : list mappingFilter) (k : mappingFilter) (root : ScheduleTree)
    (emptyPieces : pieces) (fuel : nat),
    is_Some (child root pp) →
    elemAt root pp ≫= elemAsMappingFilter = None →
    child root (pp ++ [i]) = Some (mappingChain k ks [c]) →
    Forall (λ b, k.2 ## b) (snd <$> ks) →
    pairwiseDisjoint (snd <$> ks) →
    countsPreservedAlong k.1 (fst <$> ks) →
    noEmptyPieces emptyPieces (pp ++ [i]) (length ks) →
    mergeLoop (length ks + fuel) root emptyPieces (pp ++ [i])
    = mergeLoop fuel
        (graft root (pp ++ [i])
           (mkTree (EMappingFilter (foldl intersect k.1 (fst <$> ks))
                                   (k.2 ∪ ⋃ (snd <$> ks))) [c]))
        (Nat.iter (length ks)
           (λ e, piecesAfterMerge e (pp ++ [i]) ((pp ++ [i]) ++ [0%nat]))
           emptyPieces)
        (pp ++ [i]).
Proof.
  induction ks as [|k' ks IH];
    intros k root emptyPieces fuel Hpp Hnm Hp Hk Hpair Hcount Hemp.
  - simpl. rewrite (right_id_L ∅ (∪)). simpl in Hp.
    by rewrite graft_id.
  - cbn [length Nat.add mergeLoop].
    cbn [mappingChain] in Hp. rewrite (mappingChain_unfold k' ks [c]) in Hp.
    destruct (collect_chain_pair root (pp ++ [i]) _ _ _ _ _ Hp)
      as (rest & -> & _).
    rewrite mergeScan_skip by (rewrite ?Hp; eauto).
    rewrite (mergeScan_pair root emptyPieces (pp ++ [i]) k k' _ rest Hp).
    simpl in Hk, Hpair, Hcount.
    inversion_clear Hk as [|? ? Hkk' Hk'].
    destruct Hpair as [Hk'ks Hpair]. destruct Hcount as [Hcnt Hcount].
    pose proof (Hemp 0%nat ltac:(lia)) as He0.
    pose proof (Hemp 1%nat ltac:(simpl; lia)) as He1.
    cbn [replicate] in He0, He1. rewrite app_nil_r in He0.
    rewrite He0, He1. unfold countsPreserved in Hcnt. rewrite Hcnt.
    rewrite mergeIds_disjoint by done. cbn [obind].
    destruct (mappingChain_children k' ks c) as (Y & HY & _).
    rewrite HY. cbn [lookup list_lookup from_option obind].
    rewrite (mappingChain_rebuild (intersect k.1 k'.1) (k.2 ∪ k'.2) k' ks c Y HY).
    assert (is_Some (child root (pp ++ [i]))) as Hvalid by (rewrite Hp; eauto).
    destruct Hpp as [pnode Hpnode].
    assert (is_Some (children_ pnode !! i)) as Hslot.
    { rewrite child_app, Hpnode in Hvalid. simpl in Hvalid.
      destruct (children_ pnode !! i); [eauto|by destruct Hvalid]. }
    rewrite (IH (intersect k.1 k'.1, k.2 ∪ k'.2)); cbn [fst snd].
    + rewrite graft_graft, Nat.iter_succ_r. simpl.
      by rewrite (assoc_L (∪)).
    + rewrite (child_graft_parent root pnode pp i _ Hpnode Hslot). eauto.
    + unfold elemAt in *.
      rewrite (child_graft_parent root pnode pp i _ Hpnode Hslot).
      rewrite Hpnode in Hnm. exact Hnm.
    + by rewrite child_graft.
    + rewrite Forall_forall in Hk', Hk'ks. apply Forall_forall.
      intros b Hb. apply disjoint_union_l. split; auto.
    + done.
    + done.
    + by apply noEmptyPieces_after.
Qed.

Lemma graft_parent_kept (root : ScheduleTree) (pp : path) (i : nat)
    (t : ScheduleTree) :
  is_Some (child root (pp ++ [i])) →
  is_Some (child (graft root (pp ++ [i]) t) pp)
  ∧ elemAt (graft root (pp ++ [i]) t) pp = elemAt root pp.
Proof.
  intros Hvalid.
  destruct (child root pp) as [pnode|] eqn:Hpnode;
    [|rewrite child_app, Hpnode in Hvalid; by destruct Hvalid].
  assert (is_Some (children_ pnode !! i)) as Hslot.
  { rewrite child_app, Hpnode in Hvalid. simpl in Hvalid.
    destruct (children_ pnode !! i); [eauto|by destruct Hvalid]. }
  unfold elemAt.
  rewrite (child_graft_parent root pnode pp i _ Hpnode Hslot), Hpnode.
  split; [eauto|done].
Qed.

Lemma replicate_snoc_zero (n : nat) :
  replicate n 0%nat ++ [0%nat] = replicate (S n) 0%nat.
Proof. induction n as [|n IH]; [done|]. cbn [replicate app]. by rewrite IH. Qed.

(** A chain whose tests pass and whose ids are new each time collapses
    into its head, one filter per round; one more round finds nothing to
    merge. *)
Lemma mergeLoop_collapse (root : ScheduleTree) (pp : path) (i : nat)
    (k : mappingFilter) (ks : list mappingFilter) (c : ScheduleTree)
    (emptyPieces : pieces) (fuel : nat) :
  is_Some (child root pp) →
  elemAt root pp ≫= elemAsMappingFilter = None →
  child root (pp ++ [i]) = Some (mappingChain k ks [c]) →
  pairwiseDisjoint (snd <$> k :: ks) →
  countsPreservedAlong k.1 (fst <$> ks) →
  noEmptyPieces emptyPieces (pp ++ [i]) (length ks) →
  noMappingFilters c →
  (length ks < fuel)%nat →
  mergeLoop fuel root emptyPieces (pp ++ [i])
  = Done (graft root (pp ++ [i])
            (mkTree (EMappingFilter (foldl intersect k.1 (fst <$> ks))
                                    (⋃ (snd <$> k :: ks))) [c])).
Proof.
  intros Hpp Hnm Hp [Hk Hpair] Hcount Hemp Hc Hfuel.
  replace fuel with (length ks + S (fuel - S (length ks)))%nat by lia.
  rewrite (mergeLoop_rounds pp i c ks k root emptyPieces _
             Hpp Hnm Hp Hk Hpair Hcount Hemp).
  assert (is_Some (child root (pp ++ [i]))) as Hvalid by (rewrite Hp; eauto).
  destruct (graft_parent_kept root pp i
              (mkTree (EMappingFilter (foldl intersect k.1 (fst <$> ks))
                                      (k.2 ∪ ⋃ (snd <$> ks))) [c]) Hvalid)
    as [Hpp' Hnm'].
  cbn [mergeLoop].
  rewrite (collect_chain_last _ c (pp ++ [i]) _ _ (child_graft _ _ _ Hvalid) Hc).
  rewrite mergeScan_skip;
    [|rewrite child_graft by done; eauto|by rewrite Hnm'].
  done.
Qed.

Lemma ancestor_removelast (root : ScheduleTree) (f : path) :
  f ≠ [] → is_Some (child root f) →
  ancestor root f 1 = Done (removelast f).
Proof.
  intros Hne Hf.
  rewrite (app_removelast_last 0%nat Hne) in Hf |- * at 1.
  by apply ancestor_parent.
Qed.

(** The scan merges nothing where no mapping filter below a mapping
    filter passes the test. *)
Lemma mergeScan_unmerged (root : ScheduleTree) (emptyPieces : pieces)
    (l : list path) :
  (∀ f, f ∈ l → f ≠ [] ∧ isMappingFilter root f = true) →
  (∀ f a b, f ∈ l → mappingPair root emptyPieces f = Some (a, b) →
            countsMatch a.1 a.2 b.1 b.2 = false) →
  mergeScan root emptyPieces l = Done None.
Proof.
  induction l as [|f l IH]; intros Hl Htest; [done|].
  destruct (Hl f ltac:(left)) as [Hne Hmap].
  assert (is_Some (child root f)) as Hvalid.
  { unfold isMappingFilter, elemAt in Hmap.
    destruct (child root f); [eauto|done]. }
  cbn [mergeScan]. rewrite ancestor_removelast by done. cbn [obind].
  assert (mergeScan root emptyPieces l = Done None) as Hrest.
  { apply IH; intros; [apply Hl|eapply Htest]; try right; eauto. }
  destruct (elemAt root (removelast f) ≫= elemAsMappingFilter)
    as [[parentFilter parentIds]|] eqn:Hparent; [|exact Hrest].
  unfold isMappingFilter in Hmap.
  destruct (elemAt root f) as [[| |?|filter ids| | | |]|] eqn:Hf; try done.
  cbn [mbind option_bind elemAsMappingFilter from_option obind fst].
  pose proof (Htest f (parentFilter, emptyPieces (removelast f))
                (filter, emptyPieces f) ltac:(left)) as Hfail.
  destruct f as [|x f']; [done|].
  unfold mappingPair in Hfail. rewrite Hparent, Hf in Hfail.
  cbn [mbind option_bind elemAsMappingFilter fst snd] in Hfail.
  specialize (Hfail eq_refl). unfold countsMatch in Hfail.
  destruct (n_set (intersect parentFilter filter) 0
            =? n_set parentFilter _)%nat; [|exact Hrest].
  cbn [andb] in Hfail. rewrite Hfail. exact Hrest.
Qed.

Lemma collectMappingFilters_elem (root : ScheduleTree) (node f : path) :
  f ∈ collectMappingFilters root node → isMappingFilter root f = true.
Proof.
  unfold collectMappingFilters. destruct (child root node); [|by intros ?%elem_of_nil].
  intros Hf. by apply list_elem_of_filter in Hf as [? _].
Qed.

(** C6, in the form the code supports.  The chain is anywhere in a tree
    with a [Domain] or [Extension] root, below a node that is no mapping
    filter, and the call is made at its head.  (1) If the ids are
    pairwise disjoint, no filter carries a piece without a point, and the
    test on the tuple counts holds each time the filter merged so far
    meets the next one, the chain collapses into one mapping filter with
    the union of the ids and the intersection of the filters, above the
    subtree that was below the chain.  (2) In any tree, where no mapping
    filter below a mapping filter passes the test, nothing changes.
    (3) Where the filters of a chain merge up to one that fails the test
    against the filter merged so far, by its points or by a piece without
    a point that it carries, that one is left unmerged below the merged
    filter.  (4) Where the next filter passes the test and binds an id
    that the filters merged so far bind, the call is fatal. *)
Theorem mergeConsecutiveMappingFilters_chain :
  (∀ (root : ScheduleTree) (pp : path) (i : nat) (k : mappingFilter)
     (ks : list mappingFilter) (c : ScheduleTree) (emptyPieces : pieces)
     (fuel : nat),
     rootIsDomainOrExtension root = true →
     is_Some (child root pp) →
     elemAt root pp ≫= elemAsMappingFilter = None →
     child root (pp ++ [i]) = Some (mappingChain k ks [c]) →
     pairwiseDisjoint (snd <$> k :: ks) →
     countsPreservedAlong k.1 (fst <$> ks) →
     noEmptyPieces emptyPieces (pp ++ [i]) (length ks) →
     noMappingFilters c →
     (length ks < fuel)%nat →
     let merged := mkTree (EMappingFilter (foldl intersect k.1 (fst <$> ks))
                                          (⋃ (snd <$> k :: ks))) [c] in
     mergeConsecutiveMappingFilters fuel root emptyPieces (pp ++ [i])
     = Done (graft root (pp ++ [i]) merged, pp ++ [i])
     ∧ child (graft root (pp ++ [i]) merged) (pp ++ [i]) = Some merged)
  ∧ (∀ (root : ScheduleTree) (node : path) (emptyPieces : pieces)
       (fuel : nat),
       rootIsDomainOrExtension root = true →
       (∀ f a b, f ∈ collectMappingFilters root node →
                 mappingPair root emptyPieces f = Some (a, b) →
                 countsMatch a.1 a.2 b.1 b.2 = false) →
       (0 < fuel)%nat →
       mergeConsecutiveMappingFilters fuel root emptyPieces node
       = Done (root, node))
  ∧ (∀ (root : ScheduleTree) (pp : path) (i : nat) (k k' : mappingFilter)
       (ks : list mappingFilter) (c : ScheduleTree) (emptyPieces : pieces)
       (fuel : nat),
       rootIsDomainOrExtension root = true →
       is_Some (child root pp) →
       elemAt root pp ≫= elemAsMappingFilter = None →
       child root (pp ++ [i]) = Some (mappingChain k (ks ++ [k']) [c]) →
       pairwiseDisjoint (snd <$> k :: ks) →
       countsPreservedAlong k.1 (fst <$> ks) →
       noEmptyPieces emptyPieces (pp ++ [i]) (length ks) →
       noMappingFilters c →
       countsMatch (foldl intersect k.1 (fst <$> ks)) 0 k'.1
         (emptyPieces (pp ++ [i] ++ replicate (S (length ks)) 0%nat)) = false →
       (length ks < fuel)%nat →
       mergeConsecutiveMappingFilters fuel root emptyPieces (pp ++ [i])
       = Done (graft root (pp ++ [i])
                 (mappingChain (foldl intersect k.1 (fst <$> ks),
                                ⋃ (snd <$> k :: ks)) [k'] [c]),
               pp ++ [i]))
  ∧ (∀ (root : ScheduleTree) (pp : path) (i : nat) (k k' : mappingFilter)
       (ks : list mappingFilter) (kids : list ScheduleTree)
       (emptyPieces : pieces) (id : MappingId) (fuel : nat),
       rootIsDomainOrExtension root = true →
       is_Some (child root pp) →
       elemAt root pp ≫= elemAsMappingFilter = None →
       child root (pp ++ [i]) = Some (mappingChain k (ks ++ [k']) kids) →
       pairwiseDisjoint (snd <$> k :: ks) →
       countsPreservedAlong k.1 (fst <$> ks ++ [k']) →
       noEmptyPieces emptyPieces (pp ++ [i]) (S (length ks)) →
       id ∈ ⋃ (snd <$> k :: ks) → id ∈ k'.2 →
       (length ks < fuel)%nat →
       mergeConsecutiveMappingFilters fuel root emptyPieces (pp ++ [i])
       = Abort MappedInBoth).
Proof.
  assert (∀ (root : ScheduleTree) (pp : path) (i : nat) (k k' : mappingFilter)
            (ks : list mappingFilter) (kids : list ScheduleTree)
            (emptyPieces : pieces) (fuel : nat),
            is_Some (child root pp) →
            elemAt root pp ≫= elemAsMappingFilter = None →
            child root (pp ++ [i]) = Some (mappingChain k (ks ++ [k']) kids) →
            pairwiseDisjoint (snd <$> k :: ks) →
            countsPreservedAlong k.1 (fst <$> ks) →
            noEmptyPieces emptyPieces (pp ++ [i]) (length ks) →
            (length ks < fuel)%nat →
            ∃ root' pieces' rest,
              mergeLoop fuel root emptyPieces (pp ++ [i])
              = (r ←! mergeScan root' pieces' (((pp ++ [i]) ++ [0%nat]) :: rest);
                 match r with
                 | Some (root'', pieces'') =>
                     mergeLoop (fuel - S (length ks)) root'' pieces'' (pp ++ [i])
                 | None => Done root'
                 end)
              ∧ root' = graft root (pp ++ [i])
                          (mappingChain (foldl intersect k.1 (fst <$> ks),
                                         ⋃ (snd <$> k :: ks)) [k'] kids)
              ∧ pieces' (pp ++ [i]) = 0%nat
              ∧ pieces' ((pp ++ [i]) ++ [0%nat])
                = emptyPieces (pp ++ [i] ++ replicate (S (length ks)) 0%nat)
              ∧ (Forall (λ t, noMappingFilters t) kids →
                 (length kids ≤ 1)%nat → rest = [])) as Hlast.
  { intros root pp i k k' ks kids emptyPieces fuel Hpp Hnm Hp [Hk Hpair]
      Hcount Hemp Hfuel.
    rewrite mappingChain_snoc in Hp.
    pose proof (mergeLoop_rounds pp i _ ks k root emptyPieces
                  (S (fuel - S (length ks))) Hpp Hnm Hp Hk Hpair Hcount Hemp)
      as Hrounds.
    replace (length ks + S (fuel - S (length ks)))%nat with fuel
      in Hrounds by lia.
    rewrite Hrounds. clear Hrounds.
    assert (is_Some (child root (pp ++ [i]))) as Hvalid by (rewrite Hp; eauto).
    set (root' := graft root (pp ++ [i]) _).
    destruct (graft_parent_kept root pp i
                (mkTree (EMappingFilter (foldl intersect k.1 (fst <$> ks))
                                        (k.2 ∪ ⋃ (snd <$> ks)))
                   [mkTree (EMappingFilter k'.1 k'.2) kids]) Hvalid)
      as [Hpp' Hnm'].
    fold root' in Hpp', Hnm'.
    assert (child root' (pp ++ [i])
            = Some (mkTree (EMappingFilter (foldl intersect k.1 (fst <$> ks))
                                           (k.2 ∪ ⋃ (snd <$> ks)))
                      [mkTree (EMappingFilter k'.1 k'.2) kids])) as Hp'
      by (by apply child_graft).
    destruct (collect_chain_pair root' (pp ++ [i]) _ _ _ _ _ Hp')
      as (rest & Hcollect & Hrest).
    eexists root', _, rest. split; [|split; [done|split; [|split; [|done]]]].
    - cbn [mergeLoop]. rewrite Hcollect.
      rewrite mergeScan_skip by (rewrite ?Hp', ?Hnm'; eauto).
      reflexivity.
    - apply piecesAfterMerge_iter_parent.
      rewrite <- (app_nil_r (pp ++ [i])). apply (Hemp 0%nat). lia.
    - rewrite <- (assoc_L (++) pp [i] [0%nat]).
      rewrite (assoc_L (++) pp [i]).
      change ((pp ++ [i]) ++ [0%nat]) with ((pp ++ [i]) ++ 0%nat :: []).
      rewrite piecesAfterMerge_iter_below.
      by rewrite replicate_snoc_zero, <- (assoc_L (++)). }
  split; [|split; [|split]].
  - intros root pp i k ks c emptyPieces fuel Hroot Hpp Hnm Hp Hpair Hcount
      Hemp Hc Hfuel merged. split.
    + unfold mergeConsecutiveMappingFilters.
      unfold rootIsDomainOrExtension in Hroot. rewrite Hroot.
      cbn [check obind].
      by rewrite (mergeLoop_collapse root pp i k ks c emptyPieces fuel).
    + apply child_graft. rewrite Hp. eauto.
  - intros root node emptyPieces fuel Hroot Htest Hfuel.
    unfold mergeConsecutiveMappingFilters.
    pose proof Hroot as Hroot'.
    unfold rootIsDomainOrExtension in Hroot. rewrite Hroot.
    cbn [check obind]. destruct fuel as [|fuel]; [lia|]. cbn [mergeLoop].
    rewrite mergeScan_unmerged; [done| |done].
    intros f Hf. apply collectMappingFilters_elem in Hf. split; [|done].
    intros ->. unfold isMappingFilter, elemAt in Hf. cbn in Hf.
    unfold rootIsDomainOrExtension in Hroot'. by destruct (elem_ root).
  - intros root pp i k k' ks c emptyPieces fuel Hroot Hpp Hnm Hp Hpair Hcount
      Hemp Hc Hfail Hfuel.
    destruct (Hlast root pp i k k' ks [c] emptyPieces fuel Hpp Hnm Hp Hpair
                Hcount Hemp Hfuel)
      as (root' & pieces' & rest & Hrun & Hroot' & He0 & He1 & Hrest).
    rewrite Hrest in Hrun by (repeat constructor; done).
    unfold mergeConsecutiveMappingFilters.
    unfold rootIsDomainOrExtension in Hroot. rewrite Hroot.
    cbn [check obind]. rewrite Hrun.
    rewrite (mergeScan_pair root' pieces' (pp ++ [i])
               (foldl intersect k.1 (fst <$> ks), ⋃ (snd <$> k :: ks)) k' [c]).
    + cbn [fst snd]. rewrite He0, He1, Hfail. cbn [mergeScan obind].
      by rewrite Hroot'.
    + rewrite Hroot'. apply child_graft. rewrite Hp. eauto.
  - intros root pp i k k' ks kids emptyPieces id fuel Hroot Hpp Hnm Hp Hpair
      Hcount Hemp Hid Hid' Hfuel.
    rewrite fmap_app in Hcount.
    apply countsPreservedAlong_app in Hcount as [Hcount [Hpass _]].
    destruct (Hlast root pp i k k' ks kids emptyPieces fuel Hpp Hnm Hp Hpair
                Hcount) as (root' & pieces' & rest & Hrun & Hroot' & He0 & He1 & _).
    { intros j Hj. apply Hemp. lia. }
    { done. }
    unfold mergeConsecutiveMappingFilters.
    unfold rootIsDomainOrExtension in Hroot. rewrite Hroot.
    cbn [check obind]. rewrite Hrun.
    rewrite (mergeScan_pair root' pieces' (pp ++ [i])
               (foldl intersect k.1 (fst <$> ks), ⋃ (snd <$> k :: ks)) k' kids).
    + cbn [fst snd]. rewrite He0, He1.
      rewrite (assoc_L (++) pp), (Hemp (S (length ks))) by lia.
      unfold countsPreserved in Hpass. rewrite Hpass.
      by rewrite (mergeIds_collision _ _ id).
    + rewrite Hroot'. apply child_graft. rewrite Hp. eauto.
Qed.

Lemma mergeConsecutiveMappingFilters_chain_witness :
  mergeConsecutiveMappingFilters 2
    (mkTree (EDomain {[ stmtS 0; stmtS 1 ]})
       [mappingChain twoFiltersHead twoFiltersTail [leafNode]])
    (λ _, 0%nat) ([] ++ [0%nat])
  = Done (graft (mkTree (EDomain {[ stmtS 0; stmtS 1 ]})
                   [mappingChain twoFiltersHead twoFiltersTail [leafNode]])
            ([] ++ [0%nat])
            (mkTree (EMappingFilter
                       (foldl intersect twoFiltersHead.1 (fst <$> twoFiltersTail))
                       (⋃ (snd <$> twoFiltersHead :: twoFiltersTail)))
               [leafNode]),
          [] ++ [0%nat])
  ∧ child (graft (mkTree (EDomain {[ stmtS 0; stmtS 1 ]})
                    [mappingChain twoFiltersHead twoFiltersTail [leafNode]])
             ([] ++ [0%nat])
             (mkTree (EMappingFilter
                        (foldl intersect twoFiltersHead.1 (fst <$> twoFiltersTail))
                        (⋃ (snd <$> twoFiltersHead :: twoFiltersTail)))
                [leafNode]))
          ([] ++ [0%nat])
    = Some (mkTree (EMappingFilter
                      (foldl intersect twoFiltersHead.1 (fst <$> twoFiltersTail))
                      (⋃ (snd <$> twoFiltersHead :: twoFiltersTail)))
              [leafNode]).
Proof.
  apply (proj1 mergeConsecutiveMappingFilters_chain
           (mkTree (EDomain {[ stmtS 0; stmtS 1 ]})
              [mappingChain twoFiltersHead twoFiltersTail [leafNode]])
           [] 0%nat twoFiltersHead twoFiltersTail leafNode (λ _, 0%nat) 2%nat).
  - reflexivity.
  - simpl. eauto.
  - reflexivity.
  - reflexivity.
  - simpl. repeat split; repeat constructor.
    apply (bool_decide_unpack _). vm_compute. exact I.
  - simpl. split; [vm_compute; reflexivity|exact I].
  - intros j _. reflexivity.
  - unfold noMappingFilters. simpl. repeat constructor.
  - simpl. lia.
Defined.

(** C6 as stated fails for three filters that preserve the tuple counts
    two by two and have an empty common intersection: the first two
    merge, the third stays. *)
Lemma mergeConsecutiveMappingFilters_pairwise_not_enough :
  pairwiseDisjoint (snd <$> threeFilters)
  ∧ countsPreservedPairwise (fst <$> threeFilters)
  ∧ mergeConsecutiveMappingFilters 5 threeFiltersTree (λ _, 0%nat) [0%nat]
    = Done (mkTree (EDomain {[ stmtS 0; stmtS 1; stmtS 2 ]})
              [mappingChain ({[ stmtS 1 ]}, {[ BlockId 0; BlockId 1 ]})
                 [ ({[ stmtS 0; stmtS 2 ]}, {[ ThreadId 0 ]}) ] [leafNode]],
            [0%nat])
  ∧ ¬ ∃ f ids,
        mergeConsecutiveMappingFilters 5 threeFiltersTree (λ _, 0%nat) [0%nat]
        = Done (mkTree (EDomain {[ stmtS 0; stmtS 1; stmtS 2 ]})
                  [mkTree (EMappingFilter f ids) [leafNode]], [0%nat]).
Proof.
  assert (mergeConsecutiveMappingFilters 5 threeFiltersTree (λ _, 0%nat)
            [0%nat]
          = Done (mkTree (EDomain {[ stmtS 0; stmtS 1; stmtS 2 ]})
                    [mappingChain ({[ stmtS 1 ]}, {[ BlockId 0; BlockId 1 ]})
                       [ ({[ stmtS 0; stmtS 2 ]}, {[ ThreadId 0 ]}) ]
                       [leafNode]],
                  [0%nat])) as Hrun.
  { vm_compute. reflexivity. }
  split; [|split; [|split; [exact Hrun|]]].
  - simpl. repeat split; repeat constructor;
      apply (bool_decide_unpack _); vm_compute; exact I.
  - simpl. repeat split; repeat constructor; vm_compute; reflexivity.
  - intros (f & ids & H). rewrite Hrun in H. discriminate.
Qed.

(** A piece without a point in the representation of the second filter
    keeps the two filters apart that merge without it. *)
Lemma mergeConsecutiveMappingFilters_empty_piece_blocks :
  let root := mkTree (EDomain {[ stmtS 0; stmtS 1 ]})
                [mappingChain twoFiltersHead twoFiltersTail [leafNode]] in
  mergeConsecutiveMappingFilters 2 root
    (λ q, if decide (q = [0; 0]%nat) then 1%nat else 0%nat) [0%nat]
  = Done (root, [0%nat])
  ∧ mergeConsecutiveMappingFilters 2 root (λ _, 0%nat) [0%nat]
    = Done (mkTree (EDomain {[ stmtS 0; stmtS 1 ]})
              [mkTree (EMappingFilter {[ stmtS 1 ]}
                         {[ BlockId 0; ThreadId 0 ]}) [leafNode]],
            [0%nat]).
Proof. split; vm_compute; reflexivity. Qed.

(** * Further properties of the file *)

(** ** Scaling *)

Lemma size_to_long_small (n : N) :
  (n < 2 ^ 63)%N → size_to_long n = Z.of_N n.
Proof.
  intros Hn. unfold size_to_long.
  assert (Z.of_N n < 2 ^ 63) as Hz.
  { change (2 ^ 63) with (Z.of_N (2 ^ 63)). lia. }
  rewrite Z.mod_small by lia.
  destruct (Z.of_N n <? 2 ^ 63) eqn:Hlt; [done|].
  apply Z.ltb_ge in Hlt. lia.
Qed.

Lemma val_of_size_small (n : N) :
  (n < 2 ^ 63)%N → val_of_size n = val_of_Z (Z.of_N n).
Proof. intros Hn. unfold val_of_size. by rewrite size_to_long_small. Qed.

Lemma val_of_Z_times (a b : Z) :
  (val_of_Z a * val_of_Z b)%Qc = val_of_Z (a * b).
Proof.
  apply Qc_is_canon. unfold val_of_Z. simpl.
  rewrite !Qred_correct. unfold Qeq. simpl. lia.
Qed.

(** Without a wrap of the product, the conversion commutes with it. *)
Lemma val_of_size_mul (a b : N) :
  (a * b < 2 ^ 63)%N →
  val_of_size (a * b) = (val_of_size a * val_of_size b)%Qc.
Proof.
  intros Hab.
  destruct (decide (a = 0%N)) as [->|Ha].
  { rewrite N.mul_0_l. change (val_of_size 0) with 0%Qc. ring. }
  destruct (decide (b = 0%N)) as [->|Hb].
  { rewrite N.mul_0_r. change (val_of_size 0) with 0%Qc. ring. }
  rewrite !val_of_size_small by nia.
  rewrite val_of_Z_times. f_equal. lia.
Qed.

Lemma scale_val_scale_val (u : union_pw_aff) (a b : val) :
  scale_val (scale_val u a) b = scale_val u (a * b)%Qc.
Proof.
  unfold scale_val. rewrite <- map_fmap_compose. apply map_fmap_ext.
  intros x q _. simpl. ring.
Qed.

Lemma scale_val_one (u : union_pw_aff) : scale_val u (val_of_size 1) = u.
Proof.
  unfold scale_val. rewrite <- (map_fmap_id u) at 2. apply map_fmap_ext.
  intros x q _. change (val_of_size 1) with 1%Qc. simpl. ring.
Qed.

(** The vector of scales after padding and truncation. *)
Lemma fitted_sizes_lookup (n : nat) (s : list N) (i : nat) :
  (i < n)%nat →
  (if bool_decide (n < length
                     (if bool_decide (length s < n)%nat
                      then resize n 0%N s else s))%nat
   then take n (if bool_decide (length s < n)%nat then resize n 0%N s else s)
   else (if bool_decide (length s < n)%nat then resize n 0%N s else s)) !! i
  = Some (default 0%N (s !! i)).
Proof.
  intros Hi. destruct (decide (length s < n)%nat) as [Hs|Hs].
  - rewrite (bool_decide_eq_true_2 _ Hs), length_resize.
    rewrite bool_decide_eq_false_2 by lia.
    destruct (decide (i < length s)%nat) as [Hil|Hil].
    + rewrite lookup_resize by lia.
      destruct (lookup_lt_is_Some_2 s i Hil) as [x ->]. done.
    + rewrite lookup_resize_new by lia.
      by rewrite (lookup_ge_None_2 s i) by lia.
  - rewrite (bool_decide_eq_false_2 _ Hs).
    destruct (lookup_lt_is_Some_2 s i ltac:(lia)) as [x Hx].
    destruct (bool_decide (n < length s)%nat).
    + rewrite lookup_take_lt by done. by rewrite Hx.
    + by rewrite Hx.
Qed.

Lemma fitted_sizes_length (n : nat) (s : list N) :
  length (if bool_decide (n < length
                     (if bool_decide (length s < n)%nat
                      then resize n 0%N s else s))%nat
   then take n (if bool_decide (length s < n)%nat then resize n 0%N s else s)
   else (if bool_decide (length s < n)%nat then resize n 0%N s else s))
  = n.
Proof.
  destruct (decide (length s < n)%nat) as [Hs|Hs].
  - rewrite (bool_decide_eq_true_2 _ Hs), length_resize.
    rewrite bool_decide_eq_false_2 by lia. apply length_resize.
  - rewrite (bool_decide_eq_false_2 _ Hs).
    destruct (decide (n < length s)%nat) as [Hl|Hl].
    + rewrite (bool_decide_eq_true_2 _ Hl), length_take. lia.
    + rewrite (bool_decide_eq_false_2 _ Hl). lia.
Qed.

(** X1.  [bandScale] never fails on a band node and touches nothing but
    the affine function: member [i] is multiplied by the [i]-th scale as
    isl takes it, converted to [long], which is the scale itself below
    [2^63] and negative from there on; by zero where the vector of scales
    is too short; and scales past the member count are ignored. *)
Theorem bandScale_members (band : ScheduleTreeElemBand)
    (children : list ScheduleTree) (scales : list N) :
  ∃ mupa,
    bandScale (mkTree (EBand band) children) scales
    = Done (mkTree (EBand {| mupa_ := mupa;
                             permutable_ := permutable_ band;
                             coincident_ := coincident_ band;
                             unroll_ := unroll_ band |}) children)
    ∧ length mupa = nMember band
    ∧ ∀ i upa, mupa_ band !! i = Some upa →
        let scale := default 0%N (scales !! i) in
        mupa !! i = Some (scale_val upa (val_of_Z (size_to_long scale)))
        ∧ ((scale < 2 ^ 63)%N → size_to_long scale = Z.of_N scale)
        ∧ ((2 ^ 63 ≤ scale < 2 ^ 64)%N →
           size_to_long scale = Z.of_N scale - 2 ^ 64).
Proof.
  eexists. split; [reflexivity|]. split.
  - unfold scale_multi_val. rewrite length_zip_with, length_fmap.
    rewrite fitted_sizes_length. unfold nMember. lia.
  - intros i upa Hupa scale. split; [|split].
    + unfold scale_multi_val.
      rewrite lookup_zip_with, Hupa. cbn [mbind option_bind].
      rewrite list_lookup_fmap, fitted_sizes_lookup
        by (by eapply lookup_lt_Some).
      done.
    + apply size_to_long_small.
    + intros [Hlow Hhigh]. unfold size_to_long.
      assert (2 ^ 63 ≤ Z.of_N scale < 2 ^ 64) as Hz.
      { change (2 ^ 63) with (Z.of_N (2 ^ 63)).
        change (2 ^ 64) with (Z.of_N (2 ^ 64)). lia. }
      rewrite Z.mod_small by lia.
      destruct (Z.of_N scale <? 2 ^ 63) eqn:Hlt; [|done].
      apply Z.ltb_lt in Hlt. lia.
Qed.

Lemma bandScale_fitted (band : ScheduleTreeElemBand)
    (children : list ScheduleTree) (s : list N) :
  length s = nMember band →
  bandScale (mkTree (EBand band) children) s
  = Done (mkTree (EBand {| mupa_ := zip_with scale_val (mupa_ band)
                                      (val_of_size <$> s);
                           permutable_ := permutable_ band;
                           coincident_ := coincident_ band;
                           unroll_ := unroll_ band |}) children).
Proof.
  intros Hs. unfold bandScale.
  cbn [elem_ elemAsBand from_option obind children_].
  rewrite Hs, !(bool_decide_eq_false_2 (nMember band < nMember band)%nat) by lia.
  rewrite Hs, !(bool_decide_eq_false_2 (nMember band < nMember band)%nat) by lia.
  done.
Qed.

(** X2.  Scalings compose: scaling a band by one vector and then by
    another, both as long as the band, is scaling by the products, as
    long as every product stays below [2^63], the range of the [long]
    that isl takes a size as; and scaling by ones changes nothing. *)
Theorem bandScale_compose (band : ScheduleTreeElemBand)
    (children : list ScheduleTree) (s1 s2 : list N) :
  length s1 = nMember band → length s2 = nMember band →
  Forall2 (λ a b, (a * b < 2 ^ 63)%N) s1 s2 →
  (r ←! bandScale (mkTree (EBand band) children) s1; bandScale r s2)
  = bandScale (mkTree (EBand band) children) (zip_with N.mul s1 s2)
  ∧ bandScale (mkTree (EBand band) children) (replicate (nMember band) 1%N)
    = Done (mkTree (EBand band) children).
Proof.
  intros H1 H2 Hsmall. split.
  - rewrite (bandScale_fitted band children s1 H1). cbn [obind].
    rewrite bandScale_fitted.
    2:{ unfold nMember in *. cbn [mupa_].
        rewrite length_zip_with, length_fmap. lia. }
    rewrite bandScale_fitted by (rewrite length_zip_with; lia).
    cbn [mupa_ permutable_ coincident_ unroll_].
    replace (zip_with scale_val
               (zip_with scale_val (mupa_ band) (val_of_size <$> s1))
               (val_of_size <$> s2))
      with (zip_with scale_val (mupa_ band)
              (val_of_size <$> zip_with N.mul s1 s2)); [done|].
    apply list_eq. intros i. rewrite !lookup_zip_with, !list_lookup_fmap.
    rewrite lookup_zip_with.
    destruct (mupa_ band !! i) as [u|]; [|done].
    destruct (s1 !! i) as [a|] eqn:Ha; [|done].
    destruct (s2 !! i) as [b|] eqn:Hb; [|done].
    cbn. rewrite scale_val_scale_val, val_of_size_mul; [done|].
    exact (Forall2_lookup_lr _ _ _ _ _ _ Hsmall Ha Hb).
  - rewrite bandScale_fitted by apply length_replicate.
    destruct band as [mupa perm coin unr]. unfold nMember.
    cbn [mupa_ permutable_ coincident_ unroll_].
    replace (zip_with scale_val mupa (val_of_size <$> replicate (length mupa) 1%N))
      with mupa; [done|].
    apply list_eq. intros i.
    rewrite lookup_zip_with, list_lookup_fmap.
    destruct (mupa !! i) as [u|] eqn:Hu; [|done]. cbn.
    rewrite lookup_replicate_2 by (by eapply lookup_lt_Some). cbn.
    by rewrite scale_val_one.
Qed.

Lemma bandScale_compose_witness :
  (r ←! bandScale (mkTree (EBand bandS2) [leafNode]) [2%N; 3%N];
   bandScale r [5%N; 1%N])
  = bandScale (mkTree (EBand bandS2) [leafNode])
      (zip_with N.mul [2%N; 3%N] [5%N; 1%N])
  ∧ bandScale (mkTree (EBand bandS2) [leafNode])
      (replicate (nMember bandS2) 1%N)
    = Done (mkTree (EBand bandS2) [leafNode]).
Proof.
  apply (bandScale_compose bandS2 [leafNode] [2%N; 3%N] [5%N; 1%N]).
  - reflexivity.
  - reflexivity.
  - repeat constructor.
Defined.

Lemma bandScale_members_witness :
  ∃ mupa,
    bandScale (mkTree (EBand bandS01) [leafNode]) [] 
    = Done (mkTree (EBand {| mupa_ := mupa;
                             permutable_ := permutable_ bandS01;
                             coincident_ := coincident_ bandS01;
                             unroll_ := unroll_ bandS01 |}) [leafNode])
    ∧ length mupa = nMember bandS01
    ∧ mupa !! 0%nat
      = Some (scale_val {[ stmtS 0 := val_of_Z 0; stmtS 1 := val_of_Z 1 ]}
                        (val_of_size (default 0%N (([] : list N) !! 0%nat)))).
Proof.
  destruct (bandScale_members bandS01 [leafNode] []) as (mupa & Hrun & Hlen & Hm).
  exists mupa. split; [exact Hrun|]. split; [exact Hlen|].
  apply (Hm 0%nat). reflexivity.
Defined.

(** ** Splitting one member out *)

Lemma drop_dims_outer {A} (l : list A) (pos : nat) :
  (pos ≤ length l)%nat → drop_dims l pos (length l - pos) = take pos l.
Proof.
  intros Hpos. unfold drop_dims.
  replace (pos + (length l - pos))%nat with (length l) by lia.
  by rewrite drop_all, app_nil_r.
Qed.

Lemma drop_dims_inner {A} (l : list A) (pos : nat) :
  drop_dims l 0 pos = drop pos l.
Proof. done. Qed.

Lemma drop_take_middle {A} (l : list A) (pos : nat) (u : A) :
  l !! pos = Some u → drop pos (take (S pos) l) = [u].
Proof.
  intros Hu. rewrite (take_S_r l pos u Hu).
  assert (pos < length l)%nat as Hlt by (by eapply lookup_lt_Some).
  rewrite drop_app_length'; [done|]. rewrite length_take. lia.
Qed.

Lemma dimMinusOne_positive (m : multi_union_pw_aff) :
  (0 < length m)%nat → Z.of_nat (length m) < 2 ^ 32 →
  dimMinusOne m = Z.of_nat (length m) - 1.
Proof.
  intros Hpos Hlt. unfold dimMinusOne. apply Z.mod_small. lia.
Qed.

Lemma sizeSucc_small (pos : nat) :
  Z.of_nat pos + 1 < 2 ^ 64 → sizeSucc pos = S pos.
Proof.
  intros Hlt. unfold sizeSucc. rewrite Z.mod_small by lia. lia.
Qed.

(** What [bandSplitOut] leaves of a band: up to three bands, one below
    the other, with the members before [pos], the member at [pos] and the
    members after it. *)
Lemma bandSplitOut_result (relativeRoot : ScheduleTree)
    (band : ScheduleTreeElemBand) (children : list ScheduleTree)
    (pos : nat) (u : union_pw_aff) :
  Z.of_nat (nMember band) < 2 ^ 32 →
  mupa_ band !! pos = Some u →
  ∃ outer mid inner : ScheduleTreeElemBand,
    mupa_ outer = take pos (mupa_ band)
    ∧ mupa_ mid = [u]
    ∧ mupa_ inner = drop (S pos) (mupa_ band)
    ∧ permutable_ mid = permutable_ band
    ∧ bandSplitOut relativeRoot (mkTree (EBand band) children) pos
      = Done
          (if decide (pos = 0%nat)
           then (if decide (S pos = nMember band)
                 then mkTree (EBand mid) children
                 else mkTree (EBand mid) [mkTree (EBand inner) children],
                 [])
           else (if decide (S pos = nMember band)
                 then mkTree (EBand outer) [mkTree (EBand mid) children]
                 else mkTree (EBand outer)
                        [mkTree (EBand mid) [mkTree (EBand inner) children]],
                 [0%nat])).
Proof.
  intros Hn Hu.
  assert (pos < nMember band)%nat as Hpos by (by eapply lookup_lt_Some).
  unfold bandSplitOut. cbn [elem_ elemAsBand from_option obind].
  rewrite dimMinusOne_positive by (unfold nMember in *; lia).
  fold (nMember band).
  assert (length (mupa_ band) = nMember band) as Hlen by done.
  destruct (decide (S pos = nMember band)) as [Hlast|Hlast].
  - rewrite bool_decide_eq_false_2 by lia. cbn [obind].
    assert (drop (S pos) (mupa_ band) = []) as Hnone
      by (apply drop_ge; lia).
    destruct (decide (pos = 0%nat)) as [->|Hfirst].
    + rewrite bool_decide_eq_false_2 by lia.
      exists emptyBand, band, emptyBand. rewrite Hnone.
      repeat split; try done.
      destruct (mupa_ band) as [|x [|y l]]; simpl in *; try lia.
      by injection Hu as ->.
    + rewrite bool_decide_eq_true_2 by done.
      rewrite bandSplit_result by lia.
      cbn [obind child lookup list_lookup children_ mbind option_bind
           from_option].
      eexists _, _, emptyBand.
      split; [|split; [|split; [|split; [|reflexivity]]]];
        cbn [mupa_ permutable_]; [| |by rewrite Hnone|done].
      * apply drop_dims_outer. lia.
      * rewrite drop_dims_inner, <- (drop_take_middle _ _ _ Hu).
        by rewrite take_ge by lia.
  - rewrite bool_decide_eq_true_2 by lia.
    rewrite sizeSucc_small by lia.
    rewrite bandSplit_result by lia. cbn [obind].
    set (first := {| mupa_ := drop_dims (mupa_ band) (S pos)
                                (nMember band - S pos);
                     permutable_ := permutable_ band;
                     coincident_ := drop_dims (coincident_ band) (S pos)
                                      (nMember band - S pos);
                     unroll_ := drop_dims (unroll_ band) (S pos)
                                  (nMember band - S pos) |}).
    assert (mupa_ first = take (S pos) (mupa_ band)) as Hfirstm.
    { cbn [first mupa_]. rewrite <- Hlen. apply drop_dims_outer. lia. }
    assert (nMember first = S pos) as Hfirstn.
    { unfold nMember at 1. rewrite Hfirstm, length_take. lia. }
    destruct (decide (pos = 0%nat)) as [->|Hfirst].
    + rewrite bool_decide_eq_false_2 by lia.
      eexists emptyBand, first, _.
      split; [done|]. split; [|split; [|split; [done|reflexivity]]];
        cbn [mupa_].
      * rewrite Hfirstm. rewrite <- (drop_take_middle _ _ _ Hu). done.
      * by rewrite drop_dims_inner.
    + rewrite bool_decide_eq_true_2 by done.
      rewrite bandSplit_result by lia.
      cbn [obind child lookup list_lookup children_ mbind option_bind
           from_option].
      eexists _, _, _.
      split; [|split; [|split; [|split; [|reflexivity]]]];
        cbn [mupa_ permutable_]; [| | |done].
      * rewrite Hfirstn. replace (S pos - pos)%nat with 1%nat by lia.
        rewrite Hfirstm. unfold drop_dims.
        rewrite take_take, Nat.min_l by lia.
        replace (pos + 1)%nat with (S pos) by lia.
        rewrite drop_ge by (rewrite length_take; lia). apply app_nil_r.
      * rewrite drop_dims_inner, Hfirstm. by apply drop_take_middle.
      * by rewrite drop_dims_inner.
Qed.

(** X3.  [bandSplitOut] at a position within the band returns a pointer to
    a band that holds exactly the member at that position: the band itself
    when the position is the first one, its new child otherwise. *)
Theorem bandSplitOut_isolates (relativeRoot : ScheduleTree)
    (band : ScheduleTreeElemBand) (children : list ScheduleTree)
    (pos : nat) (u : union_pw_aff) :
  Z.of_nat (nMember band) < 2 ^ 32 →
  mupa_ band !! pos = Some u →
  ∃ tree' ptr isolated b,
    bandSplitOut relativeRoot (mkTree (EBand band) children) pos
    = Done (tree', ptr)
    ∧ ptr = (if decide (pos = 0%nat) then [] else [0%nat])
    ∧ child tree' ptr = Some isolated
    ∧ elem_ isolated = EBand b
    ∧ mupa_ b = [u]
    ∧ permutable_ b = permutable_ band.
Proof.
  intros Hn Hu.
  destruct (bandSplitOut_result relativeRoot band children pos u Hn Hu)
    as (outer & mid & inner & _ & Hmid & _ & Hperm & ->).
  destruct (decide (pos = 0%nat)), (decide (S pos = nMember band));
    eexists _, _, _, mid;
    (split; [reflexivity|]); (split; [reflexivity|]);
    (split; [reflexivity|]); done.
Qed.

Lemma bandSplitOut_isolates_witness :
  ∃ tree' ptr isolated b,
    bandSplitOut leafNode (mkTree (EBand bandS2) [leafNode]) 1
    = Done (tree', ptr)
    ∧ ptr = (if decide (1%nat = 0%nat) then [] else [0%nat])
    ∧ child tree' ptr = Some isolated
    ∧ elem_ isolated = EBand b
    ∧ mupa_ b
      = [ {[ stmtS2 0 0 := val_of_Z 0; stmtS2 0 1 := val_of_Z 1;
             stmtS2 1 0 := val_of_Z 0; stmtS2 1 1 := val_of_Z 1 ]} ]
    ∧ permutable_ b = permutable_ bandS2.
Proof.
  apply (bandSplitOut_isolates leafNode bandS2 [leafNode] 1).
  - unfold nMember. simpl. lia.
  - reflexivity.
Defined.

(** X4.  On a band node with fewer than [2^32] members [bandSplitOut]
    succeeds exactly for the positions within the band; in particular it
    always fails on a band without members. *)
Theorem bandSplitOut_bounds (relativeRoot : ScheduleTree)
    (band : ScheduleTreeElemBand) (children : list ScheduleTree) (pos : nat) :
  Z.of_nat (nMember band) < 2 ^ 32 →
  Z.of_nat pos < 2 ^ 64 →
  is_done (bandSplitOut relativeRoot (mkTree (EBand band) children) pos) = true
  ↔ (pos < nMember band)%nat.
Proof.
  intros Hn Hpos. split.
  - intros Hdone. destruct (decide (pos < nMember band)%nat) as [|Hout];
      [done|exfalso].
    revert Hdone. unfold bandSplitOut.
    cbn [elem_ elemAsBand from_option obind].
    destruct (decide (nMember band = 0%nat)) as [Hzero|Hsome].
    + (* no member: whichever split is tried first fails *)
      destruct (decide (Z.of_nat pos = dimMinusOne (mupa_ band))) as [Heq|Hne].
      * rewrite bool_decide_eq_false_2 by (intros ?; done). cbn [obind].
        assert (pos ≠ 0%nat) as Hp.
        { intros ->. unfold dimMinusOne, nMember in *. rewrite Hzero in Heq.
          done. }
        rewrite bool_decide_eq_true_2 by done.
        unfold bandSplit. cbn [elem_ elemAsBand from_option obind].
        rewrite Hzero. done.
      * rewrite bool_decide_eq_true_2 by done.
        unfold bandSplit. cbn [elem_ elemAsBand from_option obind].
        rewrite Hzero. done.
    + rewrite dimMinusOne_positive by (unfold nMember in *; lia).
      rewrite bool_decide_eq_true_2 by (unfold nMember in *; lia).
      destruct (decide (Z.of_nat pos + 1 < 2 ^ 64)) as [Hsmall|Hwrap].
      * rewrite sizeSucc_small by done.
        unfold bandSplit. cbn [elem_ elemAsBand from_option obind].
        rewrite bool_decide_eq_true_2 by lia. cbn [check obind].
        rewrite (bool_decide_eq_false_2 (S pos ≤ nMember band)%nat) by lia.
        done.
      * (* [pos + 1] wraps to 0: the first split leaves an outer band
           without members, which the second split rejects *)
        assert (sizeSucc pos = 0%nat) as ->.
        { unfold sizeSucc. replace (Z.of_nat pos + 1) with (2 ^ 64) by lia.
          by rewrite Z.mod_same. }
        rewrite bandSplit_result by lia. cbn [obind].
        rewrite bool_decide_eq_true_2 by lia.
        unfold bandSplit. cbn [elem_ elemAsBand from_option obind].
        unfold nMember at 1. cbn [mupa_]. unfold drop_dims. cbn [take app].
        rewrite drop_ge by (unfold nMember; lia). done.
  - intros Hin.
    destruct (lookup_lt_is_Some_2 (mupa_ band) pos Hin) as [u Hu].
    destruct (bandSplitOut_result relativeRoot band children pos u Hn Hu)
      as (outer & mid & inner & _ & _ & _ & _ & ->).
    done.
Qed.

Lemma bandSplitOut_bounds_witness :
  is_done (bandSplitOut leafNode (mkTree (EBand bandS2) [leafNode]) 2) = true
  ↔ (2 < nMember bandS2)%nat.
Proof.
  apply (bandSplitOut_bounds leafNode bandS2 [leafNode] 2).
  - unfold nMember. simpl. lia.
  - simpl. lia.
Defined.

(** X5.  Joining the bands that [bandSplitOut] leaves gives back a band
    with the affine function of the band that was split, above the same
    children. *)
Theorem bandSplitOut_joinBandsIterative_roundtrip
    (relativeRoot : ScheduleTree) (band : ScheduleTreeElemBand)
    (children : list ScheduleTree) (pos fuel : nat) (permutable : bool) :
  Z.of_nat (nMember band) < 2 ^ 32 →
  (pos < nMember band)%nat →
  singleBandChild children = false →
  (3 ≤ fuel)%nat →
  ∃ tree' ptr b,
    bandSplitOut relativeRoot (mkTree (EBand band) children) pos
    = Done (tree', ptr)
    ∧ joinBandsIterative fuel tree' permutable
      = Done (mkTree (EBand b) children)
    ∧ mupa_ b = mupa_ band
    ∧ permutable_ b = permutable.
Proof.
  intros Hn Hin Hkids Hfuel.
  destruct (lookup_lt_is_Some_2 (mupa_ band) pos Hin) as [u Hu].
  destruct (bandSplitOut_result relativeRoot band children pos u Hn Hu)
    as (outer & mid & inner & Houter & Hmid & Hinner & _ & ->).
  pose proof (take_drop_middle (mupa_ band) pos u Hu) as Hall.
  unfold joinBandsIterative.
  destruct (decide (pos = 0%nat)) as [->|Hfirst],
           (decide (_ = nMember band)) as [Hlast|Hlast].
  - eexists _, _, _. split; [reflexivity|].
    change (mkTree (EBand mid) children) with (bandChain mid [] children).
    rewrite joinBandsLoop_chain by (done || simpl; lia).
    split; [reflexivity|]. split; [|done].
    cbn [mupa_ fmap list_fmap concat]. rewrite Hmid, <- Hall.
    rewrite (drop_ge _ 1) by (unfold nMember in *; lia). done.
  - eexists _, _, _. split; [reflexivity|].
    change (mkTree (EBand mid) [mkTree (EBand inner) children])
      with (bandChain mid [inner] children).
    rewrite joinBandsLoop_chain by (done || simpl; lia).
    split; [reflexivity|]. split; [|done].
    cbn [mupa_ fmap list_fmap concat]. rewrite Hmid, Hinner, app_nil_r.
    exact Hall.
  - eexists _, _, _. split; [reflexivity|].
    change (mkTree (EBand outer) [mkTree (EBand mid) children])
      with (bandChain outer [mid] children).
    rewrite joinBandsLoop_chain by (done || simpl; lia).
    split; [reflexivity|]. split; [|done].
    cbn [mupa_ fmap list_fmap concat]. rewrite Houter, Hmid, app_nil_r.
    etrans; [|exact Hall].
    by rewrite (drop_ge _ (S pos)) by (unfold nMember in *; lia).
  - eexists _, _, _. split; [reflexivity|].
    change (mkTree (EBand outer)
              [mkTree (EBand mid) [mkTree (EBand inner) children]])
      with (bandChain outer [mid; inner] children).
    rewrite joinBandsLoop_chain by (done || simpl; lia).
    split; [reflexivity|]. split; [|done].
    cbn [mupa_ fmap list_fmap concat]. rewrite Houter, Hmid, Hinner, app_nil_r.
    exact Hall.
Qed.

Lemma bandSplitOut_joinBandsIterative_roundtrip_witness :
  ∃ tree' ptr b,
    bandSplitOut leafNode (mkTree (EBand bandS2) [leafNode]) 0
    = Done (tree', ptr)
    ∧ joinBandsIterative 3 tree' true = Done (mkTree (EBand b) [leafNode])
    ∧ mupa_ b = mupa_ bandS2
    ∧ permutable_ b = true.
Proof.
  apply (bandSplitOut_joinBandsIterative_roundtrip leafNode bandS2
           [leafNode] 0 3 true).
  - unfold nMember. simpl. lia.
  - unfold nMember. simpl. lia.
  - reflexivity.
  - lia.
Defined.

(** ** Tiling, in general *)








Lemma fitted_sizes_take (n : nat) (s : list N) :
  (if bool_decide (n < length
                     (if bool_decide (length (take n s) < n)%nat
                      then resize n 0%N (take n s) else take n s))%nat
   then take n (if bool_decide (length (take n s) < n)%nat
                then resize n 0%N (take n s) else take n s)
   else (if bool_decide (length (take n s) < n)%nat
         then resize n 0%N (take n s) else take n s))
  = (if bool_decide (n < length
                     (if bool_decide (length s < n)%nat
                      then resize n 0%N s else s))%nat
     then take n (if bool_decide (length s < n)%nat then resize n 0%N s else s)
     else (if bool_decide (length s < n)%nat then resize n 0%N s else s)).
Proof.
  apply list_eq. intros i. destruct (decide (i < n)%nat) as [Hi|Hi].
  - rewrite !fitted_sizes_lookup by done. by rewrite lookup_take_lt.
  - rewrite !lookup_ge_None_2; [done|rewrite fitted_sizes_length; lia..].
Qed.

(** X7.  Tile sizes past the member count are ignored: on a band with at
    least one member a longer vector tiles like its first entries. *)
Theorem bandTile_truncates (band : ScheduleTreeElemBand)
    (children : list ScheduleTree) (tileSizes : list N)
    (tileOptions : TileOptions) :
  (0 < nMember band)%nat → (nMember band < length tileSizes)%nat →
  bandTile (mkTree (EBand band) children) tileSizes tileOptions
  = bandTile (mkTree (EBand band) children) (take (nMember band) tileSizes)
      tileOptions.
Proof.
  intros Hn Hlong. unfold bandTile.
  cbn [elem_ elemAsBand from_option obind].
  replace (length tileSizes =? 0)%nat with false
    by (symmetry; apply Nat.eqb_neq; lia).
  replace (length (take (nMember band) tileSizes) =? 0)%nat with false
    by (symmetry; apply Nat.eqb_neq; rewrite length_take_le; lia).
  by rewrite fitted_sizes_take.
Qed.

Lemma bandTile_truncates_witness :
  bandTile (mkTree (EBand bandS01) [leafNode]) [2%N; 5%N] ScaleTileLoops
  = bandTile (mkTree (EBand bandS01) [leafNode])
      (take (nMember bandS01) [2%N; 5%N]) ScaleTileLoops.
Proof.
  apply (bandTile_truncates bandS01 [leafNode] [2%N; 5%N] ScaleTileLoops).
  - unfold nMember. simpl. lia.
  - unfold nMember. simpl. lia.
Defined.



(** ** The flag vectors *)



(** ** Swapping a subtree back *)

Lemma updateR_undo {R R'} (f : ScheduleTree → outcome (ScheduleTree * R))
    (g : ScheduleTree → outcome (ScheduleTree * R'))
    (p : path) (root root' n n' : ScheduleTree) (r : R) (r' : R') :
  child root p = Some n → f n = Done (n', r) → g n' = Done (n, r') →
  updateR root p f = Done (root', r) →
  updateR root' p g = Done (root, r').
Proof.
  revert root root'. induction p as [|i q IH]; intros root root' Hn Hf Hg.
  - simpl in *. injection Hn as ->. rewrite Hf. by intros [= <-].
  - cbn [child] in Hn. cbn [updateR].
    destruct (children_ root !! i) as [c|] eqn:Hc; [|done].
    cbn [mbind option_bind] in Hn. cbn [from_option obind].
    destruct (updateR_spec f q c n n' r Hn Hf) as (c' & Hupd & _ & _).
    rewrite Hupd. cbn [obind fst snd]. intros [= <-]. cbn [children_ elem_].
    rewrite list_lookup_insert_eq by (by eapply lookup_lt_Some).
    cbn [from_option obind]. rewrite (IH c c' Hn Hf Hg Hupd).
    cbn [obind fst snd]. rewrite list_insert_insert_eq.
    rewrite list_insert_id by done. by destruct root.
Qed.

(** X10.  Swapping a subtree in and swapping the old one back restores
    the tree: the second [swapSubtree], at the returned pointer and with
    the subtree the first one handed back, gives the original root and
    hands back the subtree that had been put in. *)
Theorem swapSubtree_undo (root : ScheduleTree) (parent : path) (cpos : nat)
    (pnode old newSubtree : ScheduleTree) :
  child root parent = Some pnode →
  children_ pnode !! cpos = Some old →
  ∃ root' ptr,
    swapSubtree root (parent ++ [cpos]) newSubtree = Done (root', ptr, old)
    ∧ swapSubtree root' ptr old = Done (root, ptr, newSubtree).
Proof.
  intros Hp Hold.
  assert (cpos < length (children_ pnode))%nat as Hlt
    by (by eapply lookup_lt_Some).
  set (pnode' := mkTree (elem_ pnode) (<[cpos := newSubtree]> (children_ pnode))).
  destruct (updateR_spec (λ p, swapChild p cpos newSubtree) parent root pnode
              pnode' old Hp) as (root' & Hupd & Hchild & _).
  { unfold swapChild. by rewrite Hold. }
  assert (swapChild pnode' cpos old = Done (pnode, newSubtree)) as Hback.
  { unfold swapChild, pnode'. cbn [children_ elem_].
    rewrite list_lookup_insert_eq by done. cbn [from_option obind].
    rewrite list_insert_insert_eq, list_insert_id by done. by destruct pnode. }
  assert (∀ (t : ScheduleTree) (n : ScheduleTree),
            is_Some (child t (parent ++ [cpos])) →
            swapSubtree t (parent ++ [cpos]) n
            = (r ←! updateR t parent (λ p, swapChild p cpos n);
               Done (r.1, parent ++ [cpos], r.2))) as Hswap.
  { intros t n Hvalid. unfold swapSubtree, positionRelativeTo.
    rewrite bool_decide_eq_true_2 by (by destruct parent). cbn [check obind].
    rewrite last_snoc. cbn [from_option obind].
    by rewrite ancestor_parent. }
  exists root', (parent ++ [cpos]). split.
  - rewrite Hswap, Hupd; [done|]. rewrite child_app, Hp. simpl.
    rewrite Hold. eauto.
  - rewrite Hswap.
    + rewrite (updateR_undo (λ p, swapChild p cpos newSubtree)
                 (λ p, swapChild p cpos old) parent root root'
                 pnode pnode' old newSubtree Hp); [done| |done|done].
      unfold swapChild. by rewrite Hold.
    + rewrite child_app, Hchild. simpl.
      rewrite list_lookup_insert_eq by done. eauto.
Qed.

Lemma swapSubtree_undo_witness :
  ∃ root' ptr,
    swapSubtree filteredTree ([0%nat] ++ [0%nat]) leafNode
    = Done (root', ptr, mkTree (EBand bandS01) [leafNode])
    ∧ swapSubtree root' ptr (mkTree (EBand bandS01) [leafNode])
      = Done (filteredTree, ptr, leafNode).
Proof.
  apply (swapSubtree_undo filteredTree [0%nat] 0%nat
           (mkTree (EFilter {[ stmtS 1 ]}) [mkTree (EBand bandS01) [leafNode]]));
    reflexivity.
Defined.

(** ** The active set, further *)

(** X11.  [activeDomainPoints] fails exactly when the root is not a
    [Domain] node, whatever the node: none of the checks inside its loop
    can fail below a [Domain] root. *)
Theorem activeDomainPoints_succeeds_iff (root : ScheduleTree) (node : path) :
  is_done (activeDomainPoints root node) = true
  ↔ elemIsDomain (elem_ root) = true.
Proof.
  split.
  - unfold activeDomainPoints. by destruct (elem_ root).
  - intros Hroot. destruct (elem_ root) as [d| | | | | | |] eqn:He;
      try discriminate.
    destruct (child root node) as [n|] eqn:Hn.
    + destruct (activeDomainPoints_total root node d He) as [D ->]; eauto.
    + unfold activeDomainPoints, ancestors. rewrite He, Hn.
      by destruct (decide (node = [])).
Qed.

Lemma chain_filters (es : list ScheduleTreeElem) (D : union_set)
    (s : option union_map) :
  Forall (λ e, elemIsExtension e = false) es →
  ∃ s', foldlM chainStep (D, s) es
        = Done (foldl intersect D (omap elemAsBaseFilter es), s').
Proof.
  revert D s. induction es as [|e es IH]; intros D s Hes; [by eexists|].
  inversion_clear Hes as [|? ? He Hes'].
  destruct e; try discriminate; cbn [foldlM chainStep obind omap
    elemAsBaseFilter foldl]; apply IH; done.
Qed.

Lemma foldl_intersect_subseteq (fs : list union_set) (D : union_set) :
  foldl intersect D fs ⊆ D.
Proof.
  revert D. induction fs as [|f fs IH]; intros D; [done|].
  cbn [foldl]. etrans; [apply IH|]. unfold intersect.
  apply intersection_subseteq_l.
Qed.

(** X12.  With no [Extension] node above a node, the active set is the
    root domain intersected with the filters on the way down, in the
    order they are met, and so a subset of the root domain. *)
Theorem activeDomainPoints_without_extension
    (root : ScheduleTree) (node : path) (d : union_set) :
  elem_ root = EDomain d →
  is_Some (child root node) →
  Forall (λ e, elemIsExtension e = false) (ancestorElems root node) →
  activeDomainPoints root node
  = Done (foldl intersect d (omap elemAsBaseFilter (ancestorElems root node)))
  ∧ foldl intersect d (omap elemAsBaseFilter (ancestorElems root node)) ⊆ d.
Proof.
  intros Hroot Hn Hext. split; [|apply foldl_intersect_subseteq].
  destruct (decide (node = [])) as [->|Hne].
  - unfold activeDomainPoints. by rewrite Hroot.
  - destruct (chain_filters (ancestorElems root node) d None Hext) as [s Hs].
    by destruct (activeDomainPoints_chain root node d _ s Hroot Hn Hne Hs).
Qed.

Lemma activeDomainPoints_without_extension_witness :
  activeDomainPoints filteredTree [0; 0; 0]%nat
  = Done (foldl intersect {[ stmtS 0; stmtS 1 ]}
            (omap elemAsBaseFilter (ancestorElems filteredTree [0; 0; 0]%nat)))
  ∧ foldl intersect {[ stmtS 0; stmtS 1 ]}
      (omap elemAsBaseFilter (ancestorElems filteredTree [0; 0; 0]%nat))
    ⊆ {[ stmtS 0; stmtS 1 ]}.
Proof.
  apply (activeDomainPoints_without_extension filteredTree [0; 0; 0]%nat).
  - reflexivity.
  - vm_compute. eauto.
  - vm_compute. repeat constructor.
Defined.

Lemma activeDomainPoints_succeeds_iff_witness :
  is_done (activeDomainPoints filteredTree [0%nat]) = true.
Proof.
  apply (proj2 (activeDomainPoints_succeeds_iff filteredTree [0%nat])).
  reflexivity.
Defined.

(** ** The dimension of the prefix schedule *)

Lemma scheduleStep_fold_elems (root : ScheduleTree) (l : list path) s :
  fold_left (scheduleStep root) l s
  = fold_left scheduleElem (omap (elemAt root) l) s.
Proof.
  revert s. induction l as [|p l IH]; intros s; [done|].
  cbn [fold_left]. rewrite IH.
  change (omap (elemAt root) (p :: l))
    with (match elemAt root p with
          | Some e => e :: omap (elemAt root) l
          | None => omap (elemAt root) l
          end).
  unfold elemAt at 2. unfold scheduleStep at 1.
  destruct (child root p) as [t|] eqn:Hp; cbn [fmap option_fmap option_map];
    [|done].
  cbn [fold_left]. f_equal; try done.
Qed.

Lemma prefixSchedule_elems (root : ScheduleTree) (p : path) :
  prefixSchedule root p = fold_left scheduleElem (ancestorElems root p) None.
Proof.
  unfold prefixSchedule, partialScheduleImpl, ancestorElems.
  by rewrite app_nil_r, scheduleStep_fold_elems.
Qed.

Lemma stackBands_elems (root : ScheduleTree) (l : list path) :
  stackBands root l = fold_left stackElem (omap (elemAt root) l) [].
Proof.
  unfold stackBands. generalize ([] : multi_union_pw_aff).
  induction l as [|p l IH]; intros m; [done|].
  cbn [fold_left]. rewrite IH.
  change (omap (elemAt root) (p :: l))
    with (match elemAt root p with
          | Some e => e :: omap (elemAt root) l
          | None => omap (elemAt root) l
          end).
  by destruct (elemAt root p) as [e|].
Qed.

Lemma elem_of_from_mupa (f : multi_union_pw_aff) (x t : tuple) :
  (x, t) ∈ from_mupa f → ∃ zs, t = anon zs ∧ length zs = length f.
Proof.
  unfold from_mupa. destruct f as [|u f]; [by intros ?%elem_of_empty|].
  intros H. apply elem_of_set_omap in H as (y & _ & Hy).
  destruct (mupa_at (u :: f) y) as [zs|] eqn:Hzs; [|done].
  cbn in Hy. simplify_eq. exists zs. split; [done|].
  unfold mupa_at in Hzs. symmetry. by eapply length_mapM.
Qed.

Lemma scheduleElem_dim (s : union_map) (m : multi_union_pw_aff)
    (e : ScheduleTreeElem) (s' : union_map) :
  elemIsDomain e = false →
  scheduleDim s (length m) →
  scheduleElem (Some s) e = Some s' →
  scheduleDim s' (length (stackElem m e)).
Proof.
  intros He Hs. unfold scheduleElem, extendSchedule, stackElem.
  destruct e; try discriminate; cbn [elem_ elemAsBand fmap option_fmap
    option_map]; try (by intros [= <-]).
  - unfold mupa_flat_range_product. rewrite length_app.
    destruct (bool_decide (0 < nMember band)%nat) eqn:Hn.
    + intros [= <-] x t Hxt.
      apply elem_of_flat_range_product in Hxt
        as (a & r1 & r2 & [= -> ->] & H1 & H2).
      destruct (Hs a r1 H1) as [_ Hr1].
      apply elem_of_from_mupa in H2 as (zs & -> & Hzs).
      split; [done|]. cbn [snd anon]. rewrite length_app. lia.
    + intros [= <-]. apply bool_decide_eq_false_1 in Hn.
      unfold nMember in Hn. intros x t Hxt. destruct (Hs x t Hxt).
      split; [done|]. lia.
  - intros [= <-] x t Hxt. apply elem_of_intersect_domain in Hxt as [_ Hxt].
    exact (Hs x t Hxt).
  - intros [= <-] x t Hxt. apply elem_of_intersect_domain in Hxt as [_ Hxt].
    exact (Hs x t Hxt).
  - intros [= <-] x t Hxt. apply elem_of_union in Hxt as [Hxt|Hxt].
    + exact (Hs x t Hxt).
    + apply elem_of_intersect_range in Hxt as [Hr _]. cbn [snd] in Hr.
      apply elem_of_range in Hr as [a Ha]. exact (Hs a t Ha).
Qed.

Lemma scheduleElem_some (s : union_map) (e : ScheduleTreeElem) :
  ∃ s', scheduleElem (Some s) e = Some s'.
Proof.
  unfold scheduleElem, extendSchedule. destruct e; cbn; eauto.
  destruct (bool_decide (0 < nMember band)%nat); eauto.
Qed.

Lemma schedule_chain_dim (es : list ScheduleTreeElem) :
  ∀ (s : union_map) (m : multi_union_pw_aff),
    Forall (λ e, elemIsDomain e = false) es →
    scheduleDim s (length m) →
    ∃ s', fold_left scheduleElem es (Some s) = Some s'
          ∧ scheduleDim s' (length (fold_left stackElem es m)).
Proof.
  induction es as [|e es IH]; intros s m Hes Hs; [by exists s|].
  inversion_clear Hes as [|? ? He Hes'].
  destruct (scheduleElem_some s e) as [s1 H1].
  cbn [fold_left]. rewrite H1. apply IH; [done|].
  by eapply scheduleElem_dim.
Qed.

(** X14.  Below a [Domain] root that is the only [Domain] node on the
    way, the prefix schedule at a node relates every point to an anonymous
    tuple with as many coordinates as [prefixScheduleMupa] has members
    there: the members of all the bands above the node. *)
Theorem prefixSchedule_dimension (root : ScheduleTree) (node : path)
    (d : union_set) :
  elem_ root = EDomain d →
  node ≠ [] →
  is_Some (child root node) →
  Forall (λ e, elemIsDomain e = false) (tail (ancestorElems root node)) →
  ∃ m s,
    prefixScheduleMupa root node = Done m
    ∧ prefixSchedule root node = Some s
    ∧ scheduleDim s (length m)
    ∧ m = concat (omap (λ e, mupa_ <$> elemAsBand e) (ancestorElems root node)).
Proof.
  intros Hroot Hne Hn Hchain.
  destruct (ancestorElems_cons root node Hn Hne) as [rest Hrest].
  rewrite Hrest in Hchain. cbn [tail] in Hchain.
  destruct (schedule_chain_dim rest (from_domain d) [] Hchain)
    as (s & Hs & Hdim).
  { intros x t Hxt. apply elem_of_from_domain in Hxt as [Ht _].
    cbn [snd] in Ht. by rewrite Ht. }
  exists (fold_left stackElem rest []), s.
  split; [|split; [|split; [done|]]].
  - unfold prefixScheduleMupa. rewrite Hroot. cbn [elemIsDomain check obind].
    rewrite stackBands_elems. fold (ancestorElems root node).
    rewrite Hrest, Hroot. done.
  - rewrite prefixSchedule_elems, Hrest, Hroot. exact Hs.
  - rewrite Hrest, Hroot. cbn [omap elemAsBand fmap option_fmap option_map].
    change (omap (λ e, mupa_ <$> elemAsBand e) (EDomain d :: rest))
      with (omap (λ e, mupa_ <$> elemAsBand e) rest).
    clear. rewrite <- (app_nil_l (concat _)).
    generalize ([] : multi_union_pw_aff).
    induction rest as [|e rest IH]; intros m; [by rewrite app_nil_r|].
    cbn [fold_left]. rewrite IH. unfold stackElem, mupa_flat_range_product.
    destruct e; cbn; try done. by rewrite <- app_assoc.
Qed.

Lemma prefixSchedule_dimension_witness :
  ∃ m s,
    prefixScheduleMupa filteredTree [0; 0; 0]%nat = Done m
    ∧ prefixSchedule filteredTree [0; 0; 0]%nat = Some s
    ∧ scheduleDim s (length m)
    ∧ m = concat (omap (λ e, mupa_ <$> elemAsBand e)
                       (ancestorElems filteredTree [0; 0; 0]%nat)).
Proof.
  apply (prefixSchedule_dimension filteredTree [0; 0; 0]%nat
           {[ stmtS 0; stmtS 1 ]}).
  - reflexivity.
  - discriminate.
  - vm_compute. eauto.
  - vm_compute. repeat constructor.
Defined.

(** ** Merging mapping filters keeps the active set *)

Lemma omap_elemAt_below e X (l : list path) :
  omap (elemAt (mkTree e [X])) (cons 0%nat <$> l) = omap (elemAt X) l.
Proof.
  induction l as [|q l IH]; [done|].
  rewrite fmap_cons.
  change (omap (elemAt (mkTree e [X])) ((0%nat :: q) :: (cons 0%nat <$> l)))
    with (match elemAt X q with
          | Some y => y :: omap (elemAt (mkTree e [X])) (cons 0%nat <$> l)
          | None => omap (elemAt (mkTree e [X])) (cons 0%nat <$> l)
          end).
  rewrite IH. done.
Qed.

Lemma ancestorElems_below e X (p : path) :
  is_Some (child X p) →
  ancestorElems (mkTree e [X]) (0%nat :: p) = e :: ancestorElems X p.
Proof.
  intros Hp. unfold ancestorElems.
  rewrite (ancestors_valid (mkTree e [X]) (0%nat :: p)) by done.
  rewrite (ancestors_valid X p) by done.
  cbn [strict_prefixes].
  change (omap (elemAt (mkTree e [X])) ([] :: (cons 0%nat <$> strict_prefixes p)))
    with (e :: omap (elemAt (mkTree e [X])) (cons 0%nat <$> strict_prefixes p)).
  by rewrite omap_elemAt_below.
Qed.

Lemma mappingChain_leaf (ks : list mappingFilter) (k : mappingFilter)
    (c : ScheduleTree) :
  child (mappingChain k ks [c]) (replicate (S (length ks)) 0%nat) = Some c
  ∧ ancestorElems (mappingChain k ks [c]) (replicate (S (length ks)) 0%nat)
    = (λ k : mappingFilter, EMappingFilter k.1 k.2) <$> k :: ks.
Proof.
  revert k. induction ks as [|k' ks IH]; intros k.
  - split; reflexivity.
  - destruct (IH k') as [Hchild Helems]. cbn [mappingChain length replicate].
    split.
    + cbn [child lookup list_lookup mbind option_bind]. exact Hchild.
    + rewrite ancestorElems_below by (exists c; exact Hchild).
      rewrite fmap_cons. f_equal. exact Helems.
Qed.

Lemma foldl_intersect_assoc (fs : list union_set) (a b : union_set) :
  foldl intersect (intersect a b) fs = intersect a (foldl intersect b fs).
Proof.
  revert b. induction fs as [|f fs IH]; intros b; [done|].
  cbn [foldl]. rewrite <- IH. f_equal. unfold intersect.
  by rewrite (assoc_L (∩)).
Qed.

Lemma omap_filter_mapping (ks : list mappingFilter) :
  omap elemAsBaseFilter
       ((λ k : mappingFilter, EMappingFilter k.1 k.2) <$> ks)
  = fst <$> ks.
Proof. induction ks as [|k ks IH]; [done|]. cbn. by rewrite IH. Qed.

Lemma Forall_mapping_not_extension (ks : list mappingFilter) :
  Forall (λ e, elemIsExtension e = false)
         ((λ k : mappingFilter, EMappingFilter k.1 k.2) <$> ks).
Proof. induction ks; constructor; done. Qed.

(** ** Inserting a node above another *)

Lemma take_delete_insert {A} (l : list A) (i : nat) (x : A) :
  (i < length l)%nat →
  take i (delete i l) ++ x :: drop i (delete i l) = <[i := x]> l.
Proof.
  revert i. induction l as [|y l IH]; intros i Hi; [simpl in Hi; lia|].
  destruct i as [|i]; [done|]. simpl. f_equal. apply IH. simpl in Hi. lia.
Qed.

Lemma updateR_elemAt_prefix {R} (f : ScheduleTree → outcome (ScheduleTree * R))
    (p : path) (root root' n n' : ScheduleTree) (r : R) :
  child root p = Some n → f n = Done (n', r) → elem_ n' = elem_ n →
  updateR root p f = Done (root', r) →
  ∀ q, q `prefix_of` p → elemAt root' q = elemAt root q.
Proof.
  revert root root'. induction p as [|i p IH]; intros root root' Hn Hf He.
  - simpl in *. injection Hn as ->. rewrite Hf. intros [= <-] q Hq.
    apply prefix_nil_inv in Hq as ->. unfold elemAt. simpl. by rewrite He.
  - cbn [child] in Hn. cbn [updateR].
    destruct (children_ root !! i) as [c|] eqn:Hc; [|done].
    cbn [mbind option_bind] in Hn. cbn [from_option obind].
    destruct (updateR_spec f p c n n' r Hn Hf) as (c' & Hupd & _ & _).
    rewrite Hupd. cbn [obind fst snd]. intros [= <-] q Hq.
    destruct q as [|j q]; [done|].
    apply prefix_cons_inv_1 in Hq as Hj. subst j.
    apply prefix_cons_inv_2 in Hq.
    unfold elemAt. cbn [child children_].
    rewrite list_lookup_insert_eq by (by eapply lookup_lt_Some).
    rewrite Hc. cbn [mbind option_bind].
    exact (IH c c' Hn Hf He Hupd q Hq).
Qed.

Lemma strict_prefixes_prefix (p q : path) (i : nat) :
  q ∈ strict_prefixes (p ++ [i]) → q `prefix_of` p.
Proof.
  revert q i. induction p as [|j p IH] using rev_ind; intros q i Hq.
  - simpl in Hq. apply list_elem_of_singleton in Hq as ->. done.
  - rewrite strict_prefixes_snoc in Hq. apply elem_of_app in Hq as [Hq|Hq].
    + apply IH in Hq. by apply prefix_app_r.
    + by apply list_elem_of_singleton in Hq as ->.
Qed.

Lemma omap_ext_elem {A B} (f g : A → option B) (l : list A) :
  (∀ x, x ∈ l → f x = g x) → omap f l = omap g l.
Proof.
  induction l as [|x l IH]; intros H; [done|].
  cbn [omap list_omap]. rewrite (H x) by left.
  rewrite IH by (intros y Hy; apply H; by right). done.
Qed.

(** What the insertions above a node share. *)
Lemma wrapInParent_spec (root : ScheduleTree) (parent : path) (cpos : nat)
    (pnode old : ScheduleTree) (e : ScheduleTreeElem) :
  child root parent = Some pnode →
  children_ pnode !! cpos = Some old →
  ∃ root',
    wrapInParent root (parent ++ [cpos]) (λ c, mkTree e [c])
    = Done (root', parent ++ [cpos])
    ∧ child root' (parent ++ [cpos]) = Some (mkTree e [old])
    ∧ child root' (parent ++ [cpos; 0%nat]) = Some old
    ∧ elem_ root' = elem_ root
    ∧ ancestorElems root' (parent ++ [cpos; 0%nat])
      = ancestorElems root (parent ++ [cpos]) ++ [e].
Proof.
  intros Hp Hold.
  assert (cpos < length (children_ pnode))%nat as Hlt
    by (by eapply lookup_lt_Some).
  assert (child root (parent ++ [cpos]) = Some old) as Hnode.
  { rewrite child_app, Hp. simpl. by rewrite Hold. }
  set (pnode' := mkTree (elem_ pnode)
                   (<[cpos := mkTree e [old]]> (children_ pnode))).
  set (f := λ p : ScheduleTree,
              n' ←! (r ←! detachChild p cpos;
                     insertChild r.1 cpos (mkTree e [r.2]));
              Done (n', tt)).
  assert (f pnode = Done (pnode', tt)) as Hf.
  { unfold f, detachChild, insertChild. rewrite Hold.
    cbn [from_option obind fst snd children_ elem_].
    rewrite bool_decide_eq_true_2 by (rewrite length_delete; [lia|eauto]).
    cbn [check obind]. unfold pnode'. by rewrite take_delete_insert. }
  destruct (updateR_spec f parent root pnode pnode' tt Hp Hf)
    as (root' & Hupd & Hchild & Helem).
  assert (child root' (parent ++ [cpos]) = Some (mkTree e [old])) as Hnew.
  { rewrite child_app, Hchild. simpl.
    by rewrite list_lookup_insert_eq. }
  exists root'. split; [|split; [exact Hnew|split; [|split]]].
  - unfold wrapInParent, positionInParent.
    rewrite ancestor_parent by eauto. cbn [obind].
    rewrite last_snoc. cbn [from_option obind].
    unfold update. fold f. rewrite Hupd. cbn [obind fst].
    rewrite Hnew. done.
  - change (parent ++ [cpos; 0%nat]) with (parent ++ [cpos] ++ [0%nat]).
    rewrite (assoc_L (++)), child_app, Hnew. done.
  - rewrite Helem. destruct (decide (parent = [])) as [->|]; [|done].
    simpl in Hp. by injection Hp as ->.
  - change (parent ++ [cpos; 0%nat]) with (parent ++ [cpos] ++ [0%nat]).
    rewrite (assoc_L (++)).
    rewrite (ancestorElems_snoc root' (parent ++ [cpos]) 0%nat (mkTree e [old]));
      [|rewrite child_app, Hnew; simpl; eauto|exact Hnew].
    cbn [elem_]. f_equal. unfold ancestorElems.
    rewrite !ancestors_valid by eauto.
    apply omap_ext_elem. intros q Hq.
    apply strict_prefixes_prefix in Hq.
    exact (updateR_elemAt_prefix f parent root root' pnode pnode' tt
             Hp Hf eq_refl Hupd q Hq).
Qed.

Lemma chain_from_root (root : ScheduleTree) (node : path) (d : union_set) :
  elem_ root = EDomain d → is_Some (child root node) → node ≠ [] →
  ∃ D S,
    foldlM chainStep (d, None) (ancestorElems root node) = Done (D, Some S)
    ∧ activeDomainPoints root node = Done D
    ∧ prefixSchedule root node = Some S.
Proof.
  intros Hroot Hn Hne.
  destruct (ancestorElems_cons root node Hn Hne) as [rest Hrest].
  destruct (chain_total d (from_domain d) rest) as (D & S & Hfold).
  assert (foldlM chainStep (d, None) (ancestorElems root node)
          = Done (D, Some S)) as Hall.
  { rewrite Hrest, Hroot. cbn [foldlM]. by rewrite chainStep_root. }
  exists D, S. split; [exact Hall|].
  by apply (activeDomainPoints_chain root node d D (Some S)).
Qed.

(** X16.  [insertExtensionAbove] puts an [Extension] node in the slot of a
    node and the node below it; the points active at the node afterwards
    are those active before together with the images, under the extension,
    of the schedule tuples of the active points.  With the empty relation
    of [insertEmptyExtensionAbove] the active set is unchanged. *)
Theorem insertExtensionAbove_active (root : ScheduleTree) (parent : path)
    (cpos : nat) (pnode old : ScheduleTree) (d : union_set)
    (extension : union_map) :
  elem_ root = EDomain d →
  child root parent = Some pnode →
  children_ pnode !! cpos = Some old →
  ∃ D S,
    activeDomainPoints root (parent ++ [cpos]) = Done D
    ∧ prefixSchedule root (parent ++ [cpos]) = Some S
    ∧ (∃ root',
         insertExtensionAbove root (parent ++ [cpos]) extension
         = Done (root', parent ++ [cpos])
         ∧ child root' (parent ++ [cpos])
           = Some (mkTree (EExtension extension) [old])
         ∧ activeDomainPoints root' (parent ++ [cpos; 0%nat])
           = Done (unite D (apply (range (intersect_domain S D)) extension)))
    ∧ (∃ root',
         insertEmptyExtensionAbove root (parent ++ [cpos])
         = Done (root', parent ++ [cpos])
         ∧ child root' (parent ++ [cpos; 0%nat]) = Some old
         ∧ activeDomainPoints root' (parent ++ [cpos; 0%nat]) = Done D).
Proof.
  intros Hroot Hp Hold.
  assert (is_Some (child root (parent ++ [cpos]))) as Hnode.
  { rewrite child_app, Hp. simpl. rewrite Hold. eauto. }
  destruct (chain_from_root root (parent ++ [cpos]) d Hroot Hnode)
    as (D & S & Hfold & Hact & Hpre); [by destruct parent|].
  exists D, S. split; [exact Hact|]. split; [exact Hpre|].
  assert (∀ ext : union_map,
            ∃ root',
              insertExtensionAbove root (parent ++ [cpos]) ext
              = Done (root', parent ++ [cpos])
              ∧ child root' (parent ++ [cpos]) = Some (mkTree (EExtension ext) [old])
              ∧ child root' (parent ++ [cpos; 0%nat]) = Some old
              ∧ activeDomainPoints root' (parent ++ [cpos; 0%nat])
                = Done (unite D (apply (range (intersect_domain S D)) ext)))
    as Hins.
  { intros ext.
    destruct (wrapInParent_spec root parent cpos pnode old (EExtension ext)
                Hp Hold) as (root' & Hrun & Hnew & Hbelow & Helem & Hes).
    exists root'. split; [exact Hrun|]. split; [exact Hnew|].
    split; [exact Hbelow|].
    eapply (activeDomainPoints_chain root' _ d _ _);
      [by rewrite Helem|rewrite Hbelow; eauto|by destruct parent|].
    rewrite Hes, foldlM_snoc, Hfold. cbn [obind]. reflexivity. }
  split.
  - destruct (Hins extension) as (root' & Hrun & Hnew & _ & Hact').
    exists root'. done.
  - destruct (Hins ∅) as (root' & Hrun & _ & Hbelow & Hact').
    exists root'. split; [|split; [exact Hbelow|]].
    + unfold insertEmptyExtensionAbove. rewrite Hroot.
      cbn [elemIsDomain check obind]. exact Hrun.
    + rewrite Hact'. f_equal. unfold unite. apply set_eq. intros x.
      rewrite elem_of_union, elem_of_apply. split; [|by left].
      intros [?|(a & _ & Ha)]; [done|]. by apply elem_of_empty in Ha.
Qed.

Lemma insertExtensionAbove_active_witness :
  ∃ D S,
    activeDomainPoints filteredTree ([0%nat] ++ [0%nat]) = Done D
    ∧ prefixSchedule filteredTree ([0%nat] ++ [0%nat]) = Some S
    ∧ (∃ root',
         insertExtensionAbove filteredTree ([0%nat] ++ [0%nat])
           {[ (anon [], stmtE) ]}
         = Done (root', [0%nat] ++ [0%nat])
         ∧ child root' ([0%nat] ++ [0%nat])
           = Some (mkTree (EExtension {[ (anon [], stmtE) ]})
                     [mkTree (EBand bandS01) [leafNode]])
         ∧ activeDomainPoints root' ([0%nat] ++ [0; 0]%nat)
           = Done (unite D (apply (range (intersect_domain S D))
                                  {[ (anon [], stmtE) ]})))
    ∧ (∃ root',
         insertEmptyExtensionAbove filteredTree ([0%nat] ++ [0%nat])
         = Done (root', [0%nat] ++ [0%nat])
         ∧ child root' ([0%nat] ++ [0; 0]%nat)
           = Some (mkTree (EBand bandS01) [leafNode])
         ∧ activeDomainPoints root' ([0%nat] ++ [0; 0]%nat) = Done D).
Proof.
  apply (insertExtensionAbove_active filteredTree [0%nat] 0%nat
           (mkTree (EFilter {[ stmtS 1 ]}) [mkTree (EBand bandS01) [leafNode]])
           (mkTree (EBand bandS01) [leafNode]) {[ stmtS 0; stmtS 1 ]});
    reflexivity.
Defined.

Lemma prefixScheduleMupa_elems (root : ScheduleTree) (node : path) d :
  elem_ root = EDomain d →
  prefixScheduleMupa root node
  = Done (fold_left stackElem (ancestorElems root node) []).
Proof.
  intros Hroot. unfold prefixScheduleMupa. rewrite Hroot.
  cbn [elemIsDomain check obind]. by rewrite stackBands_elems.
Qed.

(** X17.  [insertBandAbove] puts a band in the slot of a node and the node
    below it; the points active at the node stay the same, and the
    coordinate-valued prefix schedule at the node gains the members of the
    new band at its end. *)
Theorem insertBandAbove_prefix (root : ScheduleTree) (parent : path)
    (cpos : nat) (pnode old : ScheduleTree) (d : union_set)
    (mupa : multi_union_pw_aff) :
  elem_ root = EDomain d →
  child root parent = Some pnode →
  children_ pnode !! cpos = Some old →
  ∃ root' D m,
    insertBandAbove root (parent ++ [cpos]) mupa
    = Done (root', parent ++ [cpos])
    ∧ child root' (parent ++ [cpos]) = Some (makeBand mupa [old])
    ∧ activeDomainPoints root (parent ++ [cpos]) = Done D
    ∧ activeDomainPoints root' (parent ++ [cpos; 0%nat]) = Done D
    ∧ prefixScheduleMupa root (parent ++ [cpos]) = Done m
    ∧ prefixScheduleMupa root' (parent ++ [cpos; 0%nat]) = Done (m ++ mupa).
Proof.
  intros Hroot Hp Hold.
  assert (is_Some (child root (parent ++ [cpos]))) as Hnode.
  { rewrite child_app, Hp. simpl. rewrite Hold. eauto. }
  destruct (chain_from_root root (parent ++ [cpos]) d Hroot Hnode)
    as (D & S & Hfold & Hact & Hpre); [by destruct parent|].
  destruct (wrapInParent_spec root parent cpos pnode old
              (elem_ (makeBand mupa [])) Hp Hold)
    as (root' & Hrun & Hnew & Hbelow & Helem & Hes).
  exists root', D, (fold_left stackElem (ancestorElems root (parent ++ [cpos])) []).
  split; [exact Hrun|]. split; [exact Hnew|]. split; [exact Hact|].
  split; [|split].
  - destruct (chainStep_total D S (elem_ (makeBand mupa []))) as (D' & S' & Hstep).
    assert (D' = D) as ->.
    { revert Hstep. unfold chainStep, makeBand. cbn [elem_].
      by intros [= <- _]. }
    eapply (activeDomainPoints_chain root' _ d _ _);
      [by rewrite Helem|rewrite Hbelow; eauto|by destruct parent|].
    rewrite Hes, foldlM_snoc, Hfold. cbn [obind]. exact Hstep.
  - exact (prefixScheduleMupa_elems root _ d Hroot).
  - rewrite (prefixScheduleMupa_elems root' _ d) by (by rewrite Helem).
    rewrite Hes, fold_left_app. done.
Qed.

Lemma insertBandAbove_prefix_witness :
  ∃ root' D m,
    insertBandAbove filteredTree ([0%nat] ++ [0%nat]) (mupa_ bandS01)
    = Done (root', [0%nat] ++ [0%nat])
    ∧ child root' ([0%nat] ++ [0%nat])
      = Some (makeBand (mupa_ bandS01) [mkTree (EBand bandS01) [leafNode]])
    ∧ activeDomainPoints filteredTree ([0%nat] ++ [0%nat]) = Done D
    ∧ activeDomainPoints root' ([0%nat] ++ [0; 0]%nat) = Done D
    ∧ prefixScheduleMupa filteredTree ([0%nat] ++ [0%nat]) = Done m
    ∧ prefixScheduleMupa root' ([0%nat] ++ [0; 0]%nat)
      = Done (m ++ mupa_ bandS01).
Proof.
  apply (insertBandAbove_prefix filteredTree [0%nat] 0%nat
           (mkTree (EFilter {[ stmtS 1 ]}) [mkTree (EBand bandS01) [leafNode]])
           (mkTree (EBand bandS01) [leafNode]) {[ stmtS 0; stmtS 1 ]});
    reflexivity.
Defined.

(** X18.  [insertBandBelow] needs a node with at most one child; the new
    band then is the only child and holds the former children, and on a
    band node a [joinBands] right after stacks the new members behind the
    old ones, above the former children. *)
Theorem insertBandBelow_joinBands :
  (∀ (e : ScheduleTreeElem) (children : list ScheduleTree)
     (mupa : multi_union_pw_aff),
     (length children ≤ 1)%nat →
     insertBandBelow (mkTree e children) mupa
     = Done (mkTree e [makeBand mupa children], [0%nat]))
  ∧ (∀ (e : ScheduleTreeElem) (children : list ScheduleTree)
       (mupa : multi_union_pw_aff),
       (1 < length children)%nat →
       insertBandBelow (mkTree e children) mupa = Abort IncorrectSizes)
  ∧ (∀ (band : ScheduleTreeElemBand) (children : list ScheduleTree)
       (mupa : multi_union_pw_aff) (permutable : bool),
       (length children ≤ 1)%nat →
       ∃ b,
         (r ←! insertBandBelow (mkTree (EBand band) children) mupa;
          joinBands r.1 permutable)
         = Done (mkTree (EBand b) children)
         ∧ mupa_ b = mupa_ band ++ mupa
         ∧ unroll_ b = unroll_ band ++ replicate (length mupa) false
         ∧ coincident_ b = coincident_ band ++ replicate (length mupa) false
         ∧ permutable_ b = permutable).
Proof.
  assert (∀ (e : ScheduleTreeElem) (children : list ScheduleTree)
            (mupa : multi_union_pw_aff),
            (length children ≤ 1)%nat →
            insertBandBelow (mkTree e children) mupa
            = Done (mkTree e [makeBand mupa children], [0%nat])) as Hok.
  { intros e children mupa Hlen. unfold insertBandBelow. cbn [children_].
    by rewrite bool_decide_eq_true_2 by done. }
  split; [exact Hok|]. split.
  - intros e children mupa Hlen. unfold insertBandBelow. cbn [children_].
    by rewrite bool_decide_eq_false_2 by lia.
  - intros band children mupa permutable Hlen.
    rewrite Hok by done. cbn [obind fst]. unfold makeBand.
    rewrite joinBands_nested. eexists. split; [reflexivity|].
    unfold joinedBand. cbn. by rewrite length_replicate.
Qed.

Lemma insertBandBelow_joinBands_witness :
  ∃ b,
    (r ←! insertBandBelow (mkTree (EBand bandS01) [leafNode]) (mupa_ bandS01);
     joinBands r.1 true)
    = Done (mkTree (EBand b) [leafNode])
    ∧ mupa_ b = mupa_ bandS01 ++ mupa_ bandS01
    ∧ unroll_ b = unroll_ bandS01 ++ replicate (length (mupa_ bandS01)) false
    ∧ coincident_ b
      = coincident_ bandS01 ++ replicate (length (mupa_ bandS01)) false
    ∧ permutable_ b = true.
Proof.
  apply (proj2 (proj2 insertBandBelow_joinBands) bandS01 [leafNode]
           (mupa_ bandS01) true).
  simpl. lia.
Defined.

(** ** Tile options *)

(** X19.  An option is set in the combination of two option sets exactly
    when it is set in one of them; and neither of the two tile options
    implies the other. *)
Theorem tileOptions_or_and (a b wanted : TileOptions) :
  tileOptionsAnd (tileOptionsOr a b) wanted
  = tileOptionsAnd a wanted || tileOptionsAnd b wanted
  ∧ tileOptionsAnd ScaleTileLoops ShiftPointLoops = false
  ∧ tileOptionsAnd ShiftPointLoops ScaleTileLoops = false.
Proof.
  split; [|done]. unfold tileOptionsAnd, tileOptionsOr.
  rewrite Z.land_lor_distr_l.
  destruct (Z.land a wanted =? 0) eqn:Ha, (Z.land b wanted =? 0) eqn:Hb;
    cbn [negb orb].
  - apply Z.eqb_eq in Ha, Hb. rewrite Ha, Hb. done.
  - apply Z.eqb_eq in Ha. apply Z.eqb_neq in Hb. rewrite Ha, Z.lor_0_l.
    apply negb_true_iff, Z.eqb_neq. done.
  - apply Z.eqb_neq in Ha. apply negb_true_iff, Z.eqb_neq.
    intros H. apply Z.lor_eq_0_iff in H as [? _]. done.
  - apply Z.eqb_neq in Ha. apply negb_true_iff, Z.eqb_neq.
    intros H. apply Z.lor_eq_0_iff in H as [? _]. done.
Qed.

(** ** Joining, at the edges *)

(** X20.  [joinBands] on a band whose children are not a single band only
    sets the [permutable] flag; on a node that is not a band it fails, and
    so does [joinBandsIterative]. *)
Theorem joinBands_without_band_child :
  (∀ (band : ScheduleTreeElemBand) (kids : list ScheduleTree)
     (permutable : bool),
     singleBandChild kids = false →
     joinBands (mkTree (EBand band) kids) permutable
     = Done (mkTree (EBand {| mupa_ := mupa_ band;
                              permutable_ := permutable;
                              coincident_ := coincident_ band;
                              unroll_ := unroll_ band |}) kids))
  ∧ (∀ (st : ScheduleTree) (permutable : bool) (fuel : nat),
       elemAsBand (elem_ st) = None → (0 < fuel)%nat →
       joinBands st permutable = Abort NotABand
       ∧ joinBandsIterative fuel st permutable = Abort NotABand).
Proof.
  split.
  - intros band kids permutable Hkids. unfold joinBands.
    by rewrite joinBandsHelper_end.
  - intros st permutable fuel Hst Hfuel.
    unfold joinBands, joinBandsIterative.
    destruct fuel as [|fuel]; [lia|]. cbn [joinBandsLoop].
    unfold joinBandsHelper. by rewrite Hst.
Qed.

Lemma joinBands_without_band_child_witness :
  joinBands (mkTree (EBand bandS01) [leafNode]) false
  = Done (mkTree (EBand {| mupa_ := mupa_ bandS01;
                           permutable_ := false;
                           coincident_ := coincident_ bandS01;
                           unroll_ := unroll_ bandS01 |}) [leafNode]).
Proof.
  apply (proj1 joinBands_without_band_child bandS01 [leafNode] false).
  reflexivity.
Defined.

(** ** Collecting a path *)

Lemma collectPathLoop_chain {A} (next : A → option A) (measure : A → nat)
    (fuel : nat) (pre : list A) (n : A) :
  (∀ a b : A, next a = Some b → (measure b < measure a)%nat) →
  (measure n < fuel)%nat →
  (∀ (i : nat) (a b : A),
     (pre ++ [n]) !! i = Some a → (pre ++ [n]) !! S i = Some b →
     next a = Some b) →
  ∃ res : list A,
    collectPathLoop fuel next (pre ++ [n]) n = Done res
    ∧ (pre ++ [n]) `prefix_of` res
    ∧ (∀ (i : nat) (a b : A),
         res !! i = Some a → res !! S i = Some b → next a = Some b)
    ∧ list.last res ≫= next = None.
Proof.
  intros Hdec. revert pre n.
  induction fuel as [|fuel IH]; intros pre n Hfuel Hchain; [lia|].
  cbn [collectPathLoop]. destruct (next n) as [n'|] eqn:Hnext.
  - destruct (IH (pre ++ [n]) n') as (res & Hres & Hpre & Hch & Hlast).
    + apply Hdec in Hnext. lia.
    + intros i a b Ha Hb.
      destruct (decide (S i < length (pre ++ [n]))%nat) as [Hi|Hi].
      * rewrite lookup_app_l in Ha by lia. rewrite lookup_app_l in Hb by lia.
        by apply (Hchain i).
      * assert (is_Some (((pre ++ [n]) ++ [n']) !! S i)) as Hsome by done.
        apply lookup_lt_is_Some in Hsome.
        rewrite !length_app in Hsome. rewrite !length_app in Hi.
        cbn [length] in Hsome, Hi.
        assert (i = length pre) as -> by lia.
        rewrite lookup_app_l in Ha by (rewrite length_app; simpl; lia).
        rewrite lookup_app_r in Ha by lia.
        rewrite Nat.sub_diag in Ha. simplify_eq/=.
        rewrite lookup_app_r in Hb by (rewrite length_app; simpl; lia).
        rewrite length_app in Hb. cbn [length] in Hb.
        replace (S (length pre) - (length pre + 1))%nat with 0%nat in Hb by lia.
        by simplify_eq/=.
    + exists res. split; [done|]. split; [|done].
      etrans; [|exact Hpre]. by apply prefix_app_r.
  - exists (pre ++ [n]). split; [done|]. split; [done|]. split; [done|].
    by rewrite last_snoc.
Qed.

(** X21.  When every step of [next] lowers a measure, the loop of
    [collectScheduleTreesPath] ends within as many rounds as the measure of
    the start allows: the result begins with the start, each entry is the
    [next] of the one before, and the last entry has no [next]. *)
Theorem collectScheduleTreesPath_chain {A} (next : A → option A)
    (measure : A → nat) (fuel : nat) (start : A) :
  (∀ a b : A, next a = Some b → (measure b < measure a)%nat) →
  (measure start < fuel)%nat →
  ∃ res : list A,
    collectScheduleTreesPath fuel next start = Done res
    ∧ head res = Some start
    ∧ (∀ (i : nat) (a b : A),
         res !! i = Some a → res !! S i = Some b → next a = Some b)
    ∧ list.last res ≫= next = None.
Proof.
  intros Hdec Hfuel.
  destruct (collectPathLoop_chain next measure fuel [] start Hdec Hfuel)
    as (res & Hres & Hpre & Hch & Hlast).
  { intros i a b Ha Hb. destruct i; done. }
  exists res. split; [exact Hres|]. split; [|done].
  destruct Hpre as [k ->]. done.
Qed.

Lemma collectScheduleTreesPath_chain_witness :
  ∃ res : list nat,
    collectScheduleTreesPath 3
      (λ n : nat, match n with O => None | S m => Some m end) 2%nat
    = Done res
    ∧ head res = Some 2%nat
    ∧ (∀ (i : nat) (a b : nat),
         res !! i = Some a → res !! S i = Some b →
         match a with O => None | S m => Some m end = Some b)
    ∧ list.last res ≫= (λ n : nat, match n with O => None | S m => Some m end)
      = None.
Proof.
  apply (collectScheduleTreesPath_chain
           (λ n : nat, match n with O => None | S m => Some m end)
           (λ n : nat, n) 3 2%nat).
  - intros a b. destruct a as [|a]; [done|]. intros [= <-]. lia.
  - lia.
Defined.

(** ** Simplification in a context *)

Lemma pruneSteps_filter (k : nat) (l : list ScheduleTree) :
  (k ≤ length l)%nat →
  fold_left pruneStep (rev (seq 1 k)) l
  = filter (λ c, emptyFilterNode c = false) (take k l) ++ drop k l.
Proof.
  revert l. induction k as [|k IH]; intros l Hk.
  - simpl. by rewrite drop_0.
  - rewrite seq_S, rev_unit. cbn [fold_left]. unfold pruneStep at 2.
    replace (1 + k - 1)%nat with k by lia.
    destruct (lookup_lt_is_Some_2 l k) as [c Hc]; [lia|].
    rewrite Hc, (take_S_r l k c Hc), list.filter_app.
    destruct (emptyFilterNode c) eqn:Hempty.
    + rewrite IH by (rewrite length_delete; [lia|eauto]).
      rewrite filter_cons_False, filter_nil, app_nil_r by (by rewrite Hempty).
      rewrite delete_take_drop.
      rewrite take_app_length' by (rewrite length_take; lia).
      rewrite drop_app_length' by (rewrite length_take; lia). done.
    + rewrite IH by lia.
      rewrite filter_cons_True, filter_nil by done.
      rewrite (drop_S l c k Hc), <- (assoc_L (++)). done.
Qed.

Lemma pruneEmptyFilters_filter (l : list ScheduleTree) :
  pruneEmptyFilters l = filter (λ c, emptyFilterNode c = false) l.
Proof.
  unfold pruneEmptyFilters. rewrite pruneSteps_filter by done.
  by rewrite firstn_all, drop_all, app_nil_r.
Qed.

Lemma gist_children (gistSet : union_set → union_set → union_set)
    (gistMupa : multi_union_pw_aff → union_set → multi_union_pw_aff)
    (tree : ScheduleTree) (context : union_set) (c' : ScheduleTree) :
  c' ∈ children_ (gist gistSet gistMupa tree context) →
  ∃ c, c ∈ children_ tree ∧ c' = gist gistSet gistMupa c context.
Proof.
  destruct tree as [e cs]. cbn [gist children_].
  assert (∀ l, c' ∈ (if emptyFilterNode (mkTree (gistElem gistSet gistMupa e context) [])
                     then []
                     else map (λ c, gist gistSet gistMupa c context) l) →
               ∃ c, c ∈ l ∧ c' = gist gistSet gistMupa c context) as Hmap.
  { intros l. destruct (emptyFilterNode _); [by intros ?%elem_of_nil|].
    intros Hin. apply (list_elem_of_fmap_1 _ l c') in Hin as (c & -> & Hc). eauto. }
  destruct (elemIsSequence _).
  - rewrite pruneEmptyFilters_filter. intros Hin.
    apply list_elem_of_filter in Hin as [_ Hin]. by apply Hmap.
  - apply Hmap.
Qed.

(** X22.  After [gist], whatever isl's simplification returns: no child of
    a sequence is a filter with an empty set, and a filter with an empty
    set has no children; this holds at every node of the result. *)
Theorem gist_prunes (gistSet : union_set → union_set → union_set)
    (gistMupa : multi_union_pw_aff → union_set → multi_union_pw_aff)
    (tree : ScheduleTree) (context : union_set) (p : path)
    (t : ScheduleTree) :
  child (gist gistSet gistMupa tree context) p = Some t →
  (elem_ t = ESequence →
   ∀ c, c ∈ children_ t → emptyFilterNode c = false)
  ∧ (emptyFilterNode t = true → children_ t = []).
Proof.
  revert tree. induction p as [|i q IH]; intros tree Hchild.
  - cbn [child] in Hchild. injection Hchild as <-.
    destruct tree as [e cs]. cbn [gist elem_ children_]. split.
    + intros ->. cbn [elemIsSequence]. rewrite pruneEmptyFilters_filter.
      intros c Hc. by apply list_elem_of_filter in Hc as [? _].
    + unfold emptyFilterNode at 1. cbn [elem_]. intros Hempty.
      assert (emptyFilterNode (mkTree (gistElem gistSet gistMupa e context) [])
              = true) as -> by exact Hempty.
      destruct (elemIsSequence _); [|done].
      by rewrite pruneEmptyFilters_filter.
  - cbn [child] in Hchild.
    destruct (children_ (gist gistSet gistMupa tree context) !! i)
      as [c'|] eqn:Hc'; [|done].
    cbn [mbind option_bind] in Hchild.
    apply list_elem_of_lookup_2 in Hc'.
    apply gist_children in Hc' as (c & _ & ->).
    by apply (IH c).
Qed.

Lemma gist_prunes_witness :
  (elem_ (gist (λ s c, intersect s c) (λ m _, m) sequenceST {[ stmtS 0 ]})
   = ESequence →
   ∀ c, c ∈ children_ (gist (λ s c, intersect s c) (λ m _, m) sequenceST
                         {[ stmtS 0 ]}) →
        emptyFilterNode c = false)
  ∧ (emptyFilterNode (gist (λ s c, intersect s c) (λ m _, m) sequenceST
                        {[ stmtS 0 ]}) = true →
     children_ (gist (λ s c, intersect s c) (λ m _, m) sequenceST
                  {[ stmtS 0 ]}) = []).
Proof.
  apply (gist_prunes (λ s c, intersect s c) (λ m _, m) sequenceST
           {[ stmtS 0 ]} []).
  reflexivity.
Defined.

(** ** Ordering *)

Lemma update_slot_spec (root : ScheduleTree) (parent : path) (cpos : nat)
    (pnode old new : ScheduleTree)
    (f : ScheduleTree → outcome ScheduleTree) :
  child root parent = Some pnode →
  children_ pnode !! cpos = Some old →
  f pnode = Done (mkTree (elem_ pnode) (<[cpos := new]> (children_ pnode))) →
  ∃ root',
    update root parent f = Done root'
    ∧ child root' (parent ++ [cpos]) = Some new
    ∧ elem_ root' = elem_ root
    ∧ ancestorElems root' (parent ++ [cpos])
      = ancestorElems root (parent ++ [cpos]).
Proof.
  intros Hp Hold Hf.
  assert (cpos < length (children_ pnode))%nat as Hlt
    by (by eapply lookup_lt_Some).
  assert (child root (parent ++ [cpos]) = Some old) as Hnode.
  { rewrite child_app, Hp. simpl. by rewrite Hold. }
  set (pnode' := mkTree (elem_ pnode) (<[cpos := new]> (children_ pnode))).
  set (fR := λ p : ScheduleTree, n' ←! f p; Done (n', tt)).
  assert (fR pnode = Done (pnode', tt)) as HfR.
  { unfold fR. by rewrite Hf. }
  destruct (updateR_spec fR parent root pnode pnode' tt Hp HfR)
    as (root' & Hupd & Hchild & Helem).
  assert (child root' (parent ++ [cpos]) = Some new) as Hnew.
  { rewrite child_app, Hchild. simpl. by rewrite list_lookup_insert_eq. }
  exists root'. split; [|split; [exact Hnew|split]].
  - unfold update. fold fR. by rewrite Hupd.
  - rewrite Helem. destruct (decide (parent = [])) as [->|]; [|done].
    simpl in Hp. by injection Hp as ->.
  - unfold ancestorElems. rewrite !ancestors_valid by eauto.
    apply omap_ext_elem. intros q Hq.
    apply strict_prefixes_prefix in Hq.
    exact (updateR_elemAt_prefix fR parent root root' pnode pnode' tt
             Hp HfR eq_refl Hupd q Hq).
Qed.

Lemma sequence_branch_active (root : ScheduleTree) (node : path)
    (d D : union_set) (S : option union_map) (seqNode sub : ScheduleTree)
    (i : nat) (filter : union_set) :
  elem_ root = EDomain d →
  foldlM chainStep (d, None) (ancestorElems root node) = Done (D, S) →
  child root node = Some seqNode → elem_ seqNode = ESequence →
  children_ seqNode !! i = Some (mkTree (EFilter filter) [sub]) →
  activeDomainPoints root (node ++ [i; 0%nat]) = Done (intersect D filter).
Proof.
  intros Hroot Hfold Hseq Hel Hi.
  assert (child root (node ++ [i]) = Some (mkTree (EFilter filter) [sub]))
    as Hbranch.
  { rewrite child_app, Hseq. simpl. by rewrite Hi. }
  assert (child root ((node ++ [i]) ++ [0%nat]) = Some sub) as Hsub.
  { rewrite child_app, Hbranch. done. }
  change (node ++ [i; 0%nat]) with (node ++ [i] ++ [0%nat]).
  rewrite (assoc_L (++)).
  eapply (activeDomainPoints_chain root _ d _ _);
    [exact Hroot|by rewrite Hsub|by destruct node|].
  rewrite (ancestorElems_snoc root (node ++ [i]) 0%nat _) by eauto.
  rewrite (ancestorElems_snoc root node i seqNode) by eauto.
  rewrite Hel, !foldlM_snoc, Hfold. cbn [obind elem_ chainStep]. reflexivity.
Qed.

(** X23.  For a node below a [Domain] root with active points [D],
    [orderBefore] puts a sequence into the slot of the node: first a
    filter on the given set, then a filter on [D] less that set, each above
    a copy of the node simplified in its filter; [orderAfter] builds the
    two branches the other way round.  Below the two branches the active
    points are [D] within the set and [D] outside it: no overlap and no
    gap. *)
Theorem orderBefore_orderAfter_partition
    (gistSet : union_set → union_set → union_set)
    (gistMupa : multi_union_pw_aff → union_set → multi_union_pw_aff)
    (root : ScheduleTree) (parent : path) (cpos : nat) (d : union_set)
    (pnode old : ScheduleTree) (filter : union_set) :
  elem_ root = EDomain d →
  child root parent = Some pnode →
  children_ pnode !! cpos = Some old →
  ∃ D : union_set,
    activeDomainPoints root (parent ++ [cpos]) = Done D
    ∧ (∃ root',
         orderBefore gistSet gistMupa root (parent ++ [cpos]) filter
         = Done root'
         ∧ child root' (parent ++ [cpos])
           = Some (mkTree ESequence
                     [mkTree (EFilter filter)
                        [gist gistSet gistMupa old filter];
                      mkTree (EFilter (subtract D filter))
                        [gist gistSet gistMupa old (subtract D filter)]])
         ∧ activeDomainPoints root' (parent ++ [cpos] ++ [0; 0]%nat)
           = Done (intersect D filter)
         ∧ activeDomainPoints root' (parent ++ [cpos] ++ [1; 0]%nat)
           = Done (subtract D filter))
    ∧ (∃ root',
         orderAfter gistSet gistMupa root (parent ++ [cpos]) filter
         = Done root'
         ∧ child root' (parent ++ [cpos])
           = Some (mkTree ESequence
                     [mkTree (EFilter (subtract D filter))
                        [gist gistSet gistMupa old (subtract D filter)];
                      mkTree (EFilter filter)
                        [gist gistSet gistMupa old filter]])
         ∧ activeDomainPoints root' (parent ++ [cpos] ++ [0; 0]%nat)
           = Done (subtract D filter)
         ∧ activeDomainPoints root' (parent ++ [cpos] ++ [1; 0]%nat)
           = Done (intersect D filter))
    ∧ unite (intersect D filter) (subtract D filter) = D
    ∧ intersect (intersect D filter) (subtract D filter) = ∅.
Proof.
  intros Hroot Hp Hold.
  assert (cpos < length (children_ pnode))%nat as Hlt
    by (by eapply lookup_lt_Some).
  assert (child root (parent ++ [cpos]) = Some old) as Hnode.
  { rewrite child_app, Hp. simpl. by rewrite Hold. }
  destruct (chain_from_root root (parent ++ [cpos]) d Hroot)
    as (D & S & Hfold & Hact & _); [eauto|by destruct parent|].
  assert (intersect D (subtract D filter) = subtract D filter) as Hother.
  { unfold intersect, subtract. apply set_eq. intros x.
    rewrite elem_of_intersection, elem_of_difference. tauto. }
  assert (∀ (f1 f2 : union_set) (s1 s2 : ScheduleTree)
            (upd : ScheduleTree → outcome ScheduleTree),
            upd pnode
            = Done (mkTree (elem_ pnode)
                      (<[cpos := mkTree ESequence
                                   [mkTree (EFilter f1) [s1];
                                    mkTree (EFilter f2) [s2]]]>
                         (children_ pnode))) →
            ∃ root',
              update root parent upd = Done root'
              ∧ child root' (parent ++ [cpos])
                = Some (mkTree ESequence [mkTree (EFilter f1) [s1];
                                          mkTree (EFilter f2) [s2]])
              ∧ activeDomainPoints root' (parent ++ [cpos] ++ [0; 0]%nat)
                = Done (intersect D f1)
              ∧ activeDomainPoints root' (parent ++ [cpos] ++ [1; 0]%nat)
                = Done (intersect D f2)) as Hboth.
  { intros f1 f2 s1 s2 upd Hupd.
    destruct (update_slot_spec root parent cpos pnode old _ upd Hp Hold Hupd)
      as (root' & Hrun & Hnew & Helem & Hes).
    exists root'. split; [exact Hrun|]. split; [exact Hnew|].
    rewrite !(assoc_L (++)).
    split.
    - eapply (sequence_branch_active root' (parent ++ [cpos]) d D (Some S));
        [by rewrite Helem|by rewrite Hes|exact Hnew|done|done].
    - eapply (sequence_branch_active root' (parent ++ [cpos]) d D (Some S));
        [by rewrite Helem|by rewrite Hes|exact Hnew|done|done]. }
  exists D. split; [exact Hact|]. split; [|split; [|split]].
  - destruct (Hboth filter (subtract D filter)
                (gist gistSet gistMupa old filter)
                (gist gistSet gistMupa old (subtract D filter))
                (λ p, r ←! detachChild p cpos;
                      insertChild r.1 cpos
                        (appendChild
                           (makeSequence
                              [gistedFilter gistSet gistMupa filter old])
                           (gistedFilter gistSet gistMupa
                              (subtract D filter) r.2))))
      as (root' & Hrun & Hnew & Ha & Hb).
    { unfold detachChild, insertChild. rewrite Hold.
      cbn [from_option obind fst snd children_ elem_].
      rewrite bool_decide_eq_true_2 by (rewrite length_delete; [lia|eauto]).
      cbn [check obind]. by rewrite take_delete_insert. }
    exists root'. split; [|split; [exact Hnew|split; [exact Ha|]]].
    + unfold orderBefore, positionInParent. rewrite Hact. cbn [obind].
      rewrite Hnode. cbn [from_option obind].
      rewrite ancestor_parent by eauto. cbn [obind].
      rewrite last_snoc. cbn [from_option obind]. exact Hrun.
    + by rewrite Hb, Hother.
  - destruct (Hboth (subtract D filter) filter
                (gist gistSet gistMupa old (subtract D filter))
                (gist gistSet gistMupa old filter)
                (λ p, r ←! detachChild p cpos;
                      seq ←! insertChild
                               (makeSequence
                                  [gistedFilter gistSet gistMupa filter old])
                               0
                               (gistedFilter gistSet gistMupa
                                  (subtract D filter) r.2);
                      insertChild r.1 cpos seq))
      as (root' & Hrun & Hnew & Ha & Hb).
    { unfold detachChild, insertChild. rewrite Hold.
      cbn [from_option obind fst snd children_ elem_ makeSequence length].
      rewrite bool_decide_eq_true_2 by lia. cbn [check obind].
      rewrite bool_decide_eq_true_2 by (rewrite length_delete; [lia|eauto]).
      cbn [check obind]. by rewrite take_delete_insert. }
    exists root'. split; [|split; [exact Hnew|split; [|exact Hb]]].
    + unfold orderAfter, positionInParent. rewrite Hact. cbn [obind].
      rewrite Hnode. cbn [from_option obind].
      rewrite ancestor_parent by eauto. cbn [obind].
      rewrite last_snoc. cbn [from_option obind]. exact Hrun.
    + by rewrite Ha, Hother.
  - unfold unite, intersect, subtract. apply set_eq. intros x.
    rewrite elem_of_union, elem_of_intersection, elem_of_difference.
    destruct (decide (x ∈ filter)); tauto.
  - unfold intersect, subtract. apply set_eq. intros x.
    rewrite !elem_of_intersection, elem_of_difference, elem_of_empty. tauto.
Qed.

Lemma orderBefore_orderAfter_partition_witness :
  ∃ D : union_set,
    activeDomainPoints unfilteredTree ([] ++ [0%nat]) = Done D
    ∧ (∃ root',
         orderBefore (λ s c, intersect s c) (λ m _, m) unfilteredTree
           ([] ++ [0%nat]) {[ stmtS 0 ]}
         = Done root'
         ∧ child root' ([] ++ [0%nat])
           = Some (mkTree ESequence
                     [mkTree (EFilter {[ stmtS 0 ]})
                        [gist (λ s c, intersect s c) (λ m _, m)
                           (mkTree (EBand bandS01) [leafNode]) {[ stmtS 0 ]}];
                      mkTree (EFilter (subtract D {[ stmtS 0 ]}))
                        [gist (λ s c, intersect s c) (λ m _, m)
                           (mkTree (EBand bandS01) [leafNode])
                           (subtract D {[ stmtS 0 ]})]])
         ∧ activeDomainPoints root' ([] ++ [0%nat] ++ [0; 0]%nat)
           = Done (intersect D {[ stmtS 0 ]})
         ∧ activeDomainPoints root' ([] ++ [0%nat] ++ [1; 0]%nat)
           = Done (subtract D {[ stmtS 0 ]}))
    ∧ (∃ root',
         orderAfter (λ s c, intersect s c) (λ m _, m) unfilteredTree
           ([] ++ [0%nat]) {[ stmtS 0 ]}
         = Done root'
         ∧ child root' ([] ++ [0%nat])
           = Some (mkTree ESequence
                     [mkTree (EFilter (subtract D {[ stmtS 0 ]}))
                        [gist (λ s c, intersect s c) (λ m _, m)
                           (mkTree (EBand bandS01) [leafNode])
                           (subtract D {[ stmtS 0 ]})];
                      mkTree (EFilter {[ stmtS 0 ]})
                        [gist (λ s c, intersect s c) (λ m _, m)
                           (mkTree (EBand bandS01) [leafNode]) {[ stmtS 0 ]}]])
         ∧ activeDomainPoints root' ([] ++ [0%nat] ++ [0; 0]%nat)
           = Done (subtract D {[ stmtS 0 ]})
         ∧ activeDomainPoints root' ([] ++ [0%nat] ++ [1; 0]%nat)
           = Done (intersect D {[ stmtS 0 ]}))
    ∧ unite (intersect D {[ stmtS 0 ]}) (subtract D {[ stmtS 0 ]}) = D
    ∧ intersect (intersect D {[ stmtS 0 ]}) (subtract D {[ stmtS 0 ]}) = ∅.
Proof.
  apply (orderBefore_orderAfter_partition (λ s c, intersect s c) (λ m _, m)
           unfilteredTree [] 0%nat {[ stmtS 0; stmtS 1 ]} unfilteredTree
           (mkTree (EBand bandS01) [leafNode]) {[ stmtS 0 ]});
    reflexivity.
Defined.

(** ** The schedule at a node and below it *)

(** X13.  Below a [Domain] root, the prefix schedule of a child is the
    partial schedule of its parent, and it is not null; at the root itself
    the prefix schedule is null and the partial schedule is the identity
    on the domain, onto the zero-dimensional space. *)
Theorem prefixSchedule_of_child (root : ScheduleTree) (d : union_set) :
  elem_ root = EDomain d →
  prefixSchedule root [] = None
  ∧ partialSchedule root [] = Some (from_domain d)
  ∧ ∀ (p : path) (i : nat),
      is_Some (child root (p ++ [i])) →
      prefixSchedule root (p ++ [i]) = partialSchedule root p
      ∧ is_Some (partialSchedule root p).
Proof.
  intros Hroot. split; [done|]. split.
  - unfold partialSchedule, partialScheduleImpl. cbn.
    unfold scheduleStep. cbn [child]. by rewrite Hroot.
  - intros p i Hchild.
    assert (prefixSchedule root (p ++ [i]) = partialSchedule root p) as Heq.
    { rewrite prefixSchedule_valid by done.
      rewrite partialSchedule_valid by (by eapply child_snoc_valid).
      by rewrite strict_prefixes_snoc, fold_left_app. }
    split; [exact Heq|]. rewrite <- Heq.
    destruct (chain_from_root root (p ++ [i]) d Hroot Hchild)
      as (D & S & _ & _ & HS); [by destruct p|].
    by rewrite HS.
Qed.

Lemma prefixSchedule_of_child_witness :
  prefixSchedule filteredTree [] = None
  ∧ partialSchedule filteredTree [] = Some (from_domain {[ stmtS 0; stmtS 1 ]})
  ∧ ∀ (p : path) (i : nat),
      is_Some (child filteredTree (p ++ [i])) →
      prefixSchedule filteredTree (p ++ [i]) = partialSchedule filteredTree p
      ∧ is_Some (partialSchedule filteredTree p).
Proof.
  apply (prefixSchedule_of_child filteredTree {[ stmtS 0; stmtS 1 ]}).
  reflexivity.
Defined.

(** ** Merging mapping filters and the active set *)

Lemma strict_prefixes_app (p q : path) :
  strict_prefixes (p ++ q) = strict_prefixes p ++ (app p <$> strict_prefixes q).
Proof.
  induction p as [|i p IH].
  - cbn [app strict_prefixes]. by rewrite list_fmap_id.
  - cbn [app strict_prefixes]. rewrite IH, fmap_app, <- list_fmap_compose.
    done.
Qed.

Lemma ancestorElems_app (root sub : ScheduleTree) (p q : path) :
  child root p = Some sub → is_Some (child sub q) →
  ancestorElems root (p ++ q) = ancestorElems root p ++ ancestorElems sub q.
Proof.
  intros Hp Hq. unfold ancestorElems.
  rewrite !ancestors_valid by (rewrite ?child_app, ?Hp; eauto).
  rewrite strict_prefixes_app, omap_app. f_equal.
  induction (strict_prefixes q) as [|r l IH]; [done|].
  rewrite fmap_cons.
  change (omap (elemAt root) ((p ++ r) :: (app p <$> l)))
    with (match elemAt root (p ++ r) with
          | Some y => y :: omap (elemAt root) (app p <$> l)
          | None => omap (elemAt root) (app p <$> l)
          end).
  change (omap (elemAt sub) (r :: l))
    with (match elemAt sub r with
          | Some y => y :: omap (elemAt sub) l
          | None => omap (elemAt sub) l
          end).
  rewrite IH. unfold elemAt at 1. rewrite child_app, Hp. done.
Qed.

Lemma elemAt_graft_prefix (root : ScheduleTree) (p q : path)
    (t : ScheduleTree) :
  q ∈ strict_prefixes p → is_Some (child root p) →
  elemAt (graft root p t) q = elemAt root q.
Proof.
  revert root q. induction p as [|i p IH]; intros root q Hq Hp.
  - by apply elem_of_nil in Hq.
  - cbn [strict_prefixes] in Hq. cbn [child] in Hp.
    destruct (children_ root !! i) as [c|] eqn:Hc; [|by destruct Hp].
    cbn [mbind option_bind] in Hp.
    apply elem_of_cons in Hq as [->|Hq].
    + unfold elemAt. cbn [child]. cbn [fmap option_fmap option_map].
      by rewrite elem_graft.
    + apply list_elem_of_fmap_1 in Hq as (q' & -> & Hq').
      unfold elemAt. cbn [graft]. rewrite Hc. cbn [child children_].
      rewrite list_lookup_insert_eq by (by eapply lookup_lt_Some).
      rewrite Hc. cbn [mbind option_bind]. by apply IH.
Qed.

Lemma ancestorElems_graft (root : ScheduleTree) (p : path) (t : ScheduleTree) :
  is_Some (child root p) →
  ancestorElems (graft root p t) p = ancestorElems root p.
Proof.
  intros Hp. unfold ancestorElems.
  rewrite !ancestors_valid by (rewrite ?child_graft; eauto).
  apply omap_ext_elem. intros q Hq. by apply elemAt_graft_prefix.
Qed.

(** X15.  Merging a chain of mapping filters, anywhere below a [Domain]
    root, keeps the set of points that are active at the subtree below the
    chain: the merged filter selects what the filters of the chain
    selected one after the other. *)
Theorem mergeConsecutiveMappingFilters_keeps_active
    (root : ScheduleTree) (pp : path) (i : nat) (d : union_set)
    (k : mappingFilter) (ks : list mappingFilter) (c : ScheduleTree)
    (emptyPieces : pieces) (fuel : nat) :
  elem_ root = EDomain d →
  is_Some (child root pp) →
  elemAt root pp ≫= elemAsMappingFilter = None →
  child root (pp ++ [i]) = Some (mappingChain k ks [c]) →
  pairwiseDisjoint (snd <$> k :: ks) →
  countsPreservedAlong k.1 (fst <$> ks) →
  noEmptyPieces emptyPieces (pp ++ [i]) (length ks) →
  noMappingFilters c →
  (length ks < fuel)%nat →
  ∃ root' D,
    mergeConsecutiveMappingFilters fuel root emptyPieces (pp ++ [i])
    = Done (root', pp ++ [i])
    ∧ child root ((pp ++ [i]) ++ replicate (S (length ks)) 0%nat) = Some c
    ∧ child root' ((pp ++ [i]) ++ [0%nat]) = Some c
    ∧ activeDomainPoints root ((pp ++ [i]) ++ replicate (S (length ks)) 0%nat)
      = Done D
    ∧ activeDomainPoints root' ((pp ++ [i]) ++ [0%nat]) = Done D.
Proof.
  intros Hroot Hpp Hnm Hp Hpair Hcount Hemp Hc Hfuel.
  set (p := pp ++ [i]) in *.
  set (merged := mkTree (EMappingFilter (foldl intersect k.1 (fst <$> ks))
                                        (⋃ (snd <$> k :: ks))) [c]).
  assert (is_Some (child root p)) as Hvalid by (rewrite Hp; eauto).
  assert (p ≠ []) as Hne by (unfold p; by destruct pp).
  destruct (chain_from_root root p d Hroot Hvalid Hne)
    as (D0 & S0 & Hfold & _ & _).
  destruct (mappingChain_leaf ks k c) as [Hleaf Helems].
  assert (child (graft root p merged) p = Some merged) as Hnew
    by (by apply child_graft).
  exists (graft root p merged), (intersect D0 (foldl intersect k.1 (fst <$> ks))).
  split; [|split; [|split; [|split]]].
  - unfold mergeConsecutiveMappingFilters. rewrite Hroot.
    cbn [check obind]. unfold p.
    by rewrite (mergeLoop_collapse root pp i k ks c emptyPieces fuel).
  - by rewrite child_app, Hp.
  - by rewrite child_app, Hnew.
  - destruct (chain_filters
                ((λ k0 : mappingFilter, EMappingFilter k0.1 k0.2) <$> k :: ks)
                D0 (Some S0)) as [s Hs];
      [apply Forall_mapping_not_extension|].
    eapply (activeDomainPoints_chain root _ d _ s Hroot);
      [rewrite child_app, Hp; cbn [mbind option_bind]; rewrite Hleaf; eauto
      |by destruct p|].
    rewrite (ancestorElems_app root _ p _ Hp) by (rewrite Hleaf; eauto).
    rewrite Helems, foldlM_app, Hfold. cbn [obind]. rewrite Hs.
    rewrite (omap_filter_mapping (k :: ks)). cbn [fmap list_fmap foldl].
    by rewrite foldl_intersect_assoc.
  - eapply (activeDomainPoints_chain (graft root p merged) _ d _ _);
      [by rewrite elem_graft
      |rewrite child_app, Hnew; simpl; eauto
      |by destruct p|].
    rewrite (ancestorElems_app _ merged p [0%nat] Hnew) by (simpl; eauto).
    rewrite ancestorElems_graft by done.
    rewrite foldlM_app, Hfold. cbn [obind]. reflexivity.
Qed.

Lemma mergeConsecutiveMappingFilters_keeps_active_witness :
  ∃ root' D,
    mergeConsecutiveMappingFilters 2
      (mkTree (EDomain {[ stmtS 0; stmtS 1 ]})
         [mappingChain twoFiltersHead twoFiltersTail [leafNode]])
      (λ _, 0%nat) ([] ++ [0%nat])
    = Done (root', [] ++ [0%nat])
    ∧ child (mkTree (EDomain {[ stmtS 0; stmtS 1 ]})
               [mappingChain twoFiltersHead twoFiltersTail [leafNode]])
            (([] ++ [0%nat]) ++ replicate (S (length twoFiltersTail)) 0%nat)
      = Some leafNode
    ∧ child root' (([] ++ [0%nat]) ++ [0%nat]) = Some leafNode
    ∧ activeDomainPoints
        (mkTree (EDomain {[ stmtS 0; stmtS 1 ]})
           [mappingChain twoFiltersHead twoFiltersTail [leafNode]])
        (([] ++ [0%nat]) ++ replicate (S (length twoFiltersTail)) 0%nat)
      = Done D
    ∧ activeDomainPoints root' (([] ++ [0%nat]) ++ [0%nat]) = Done D.
Proof.
  apply (mergeConsecutiveMappingFilters_keeps_active
           (mkTree (EDomain {[ stmtS 0; stmtS 1 ]})
              [mappingChain twoFiltersHead twoFiltersTail [leafNode]])
           [] 0%nat {[ stmtS 0; stmtS 1 ]} twoFiltersHead twoFiltersTail
           leafNode (λ _, 0%nat) 2).
  - reflexivity.
  - simpl. eauto.
  - reflexivity.
  - reflexivity.
  - simpl. repeat split; repeat constructor.
    apply (bool_decide_unpack _). vm_compute. exact I.
  - simpl. split; [vm_compute; reflexivity|exact I].
  - intros j _. reflexivity.
  - unfold noMappingFilters. simpl. repeat constructor.
  - simpl. lia.
Defined.
